(** * DaphneDSL lowering: a shallow embedding of [DaphneDSLVisitor.cpp]

    The visitor walks a DaphneDSL parse tree and emits DaphneIR/SCF
    operations.  This development embeds the parts of the visitor that
    decide loop bounds, indexing, overload resolution, the if-merge, the
    read-only check of assignments and the rectification of early
    returns, and proves properties of them. *)

From Stdlib Require Import ZArith Lia Ascii String.
From stdpp Require Import base decidable option numbers list strings gmap sorting pretty.

Local Open Scope Z_scope.
Set Warnings "-register-all".

(* ===================================================================== *)
(** * Part I: definitions                                                 *)
(* ===================================================================== *)

(** ** Types of SSA values *)

(** The scalar value types the visitor mentions ([builder.getIntegerType],
    [builder.getIndexType], ...). *)
Inductive scalar_kind : Set :=
| SI8 | SI32 | SI64 | UI8 | UI32 | UI64 | F32 | F64 | Bool | Index.

#[global] Instance scalar_kind_eq_dec : EqDecision scalar_kind.
Proof. solve_decision. Defined.

(** Modelled from the spec: [mlir::Type] and the DaphneIR types are declared
    outside the visitor; the data model gives the tagged variant
    Scalar(kind), Matrix(elementType), Frame(columnTypes), String, Unknown. *)
Inductive type : Set :=
| Scalar (k : scalar_kind)
| Matrix (elem : type)
| Frame (cols : list type)
| StringType
| Unknown.

Fixpoint type_eqb (a b : type) {struct a} : bool :=
  match a, b with
  | Scalar k, Scalar k' => bool_decide (k = k')
  | Matrix e, Matrix e' => type_eqb e e'
  | Frame cs, Frame cs' =>
      (fix cols_eqb (l l' : list type) {struct l} : bool :=
         match l, l' with
         | [], [] => true
         | x :: l, y :: l' => type_eqb x y && cols_eqb l l'
         | _, _ => false
         end) cs cs'
  | StringType, StringType => true
  | Unknown, Unknown => true
  | _, _ => false
  end.

Lemma type_eqb_eq : ∀ a b : type, type_eqb a b = true ↔ a = b.
Proof.
  fix IH 1.
  intros [k|e|cs| |] [k'|e'|cs'| |]; simpl; try (split; [done|done]).
  - rewrite bool_decide_eq_true. split; congruence.
  - rewrite IH. split; congruence.
  - revert cs'. induction cs as [|x cs IHcs]; intros [|y cs'];
      try (split; [done|done]).
    rewrite andb_true_iff, IH, IHcs. split.
    + intros [-> [= ->]]. done.
    + intros [= -> ->]. done.
Qed.

Lemma type_eqb_neq (a b : type) : type_eqb a b = false → a ≠ b.
Proof. intros H E. apply type_eqb_eq in E. congruence. Qed.

#[global] Instance type_eq_dec : EqDecision type :=
  λ a b,
    match type_eqb a b as r return type_eqb a b = r → Decision (a = b) with
    | true => λ H, left (proj1 (type_eqb_eq a b) H)
    | false => λ H, right (type_eqb_neq a b H)
    end eq_refl.

(** [utils.unknownType]. *)
Definition unknownType : type := Unknown.

(** ** SSA values

    An SSA value is modelled by the expression that defines it: an operation
    the visitor creates with [builder.create<...>] becomes a constructor that
    holds the result type the visitor passes and the operand values.  A value
    that exists before the code under study runs (the result of lowering a
    sub-expression, a block argument) is a [Leaf]. *)
Inductive axis : Set := Row | Col.

#[global] Instance axis_eq_dec : EqDecision axis.
Proof. solve_decision. Defined.

Inductive value : Set :=
| Leaf (id : nat) (ty : type)
| ConstantOp (ty : type) (c : Z)
| CastOp (ty : type) (v : value)
| RenameOp (ty : type) (v : value)
| EwAddOp (ty : type) (lhs rhs : value)
| EwMulOp (ty : type) (lhs rhs : value)
| EwGeOp (ty : type) (lhs rhs : value)
| EwSignOp (ty : type) (arg : value)
| NumAxOp (ax : axis) (ty : type) (arg : value)
| ExtractAxOp (ax : axis) (ty : type) (arg pos : value)
| SliceAxOp (ax : axis) (ty : type) (arg lo hi : value)
| InsertAxOp (ax : axis) (ty : type) (arg ins lo hi : value)
| BlockArgument (idx : nat) (ty : type)
| OpResult (loc : nat) (idx : nat) (ty : type).

#[global] Instance value_eq_dec : EqDecision value.
Proof. solve_decision. Defined.

(** [v.getType()] *)
Definition getType (v : value) : type :=
  match v with
  | Leaf _ ty | ConstantOp ty _ | CastOp ty _ | RenameOp ty _
  | EwAddOp ty _ _ | EwMulOp ty _ _ | EwGeOp ty _ _ | EwSignOp ty _
  | NumAxOp _ ty _ | ExtractAxOp _ ty _ _ | SliceAxOp _ ty _ _ _
  | InsertAxOp _ ty _ _ _ _ | BlockArgument _ ty | OpResult _ _ ty => ty
  end.

(** Modelled from the spec: [utils.castIf] is declared in the parser
    utilities, which are not part of the sources; bounds are evaluated "as
    signed 64-bit values", so a value of another type is wrapped in a cast
    and a value that already has the type is used as it is. *)
Definition castIf (t : type) (v : value) : value :=
  if decide (getType v = t) then v else CastOp t v.

(** [utils.castSI64If], the same helper at the signed 64-bit type. *)
Definition castSI64If (v : value) : value := castIf (Scalar SI64) v.

(** [utils.sizeType], the type of [NumRowsOp]/[NumColsOp] results. *)
Definition sizeType : type := Scalar Index.

(** ** Counted and parallel for-loops: the bounds

    [visitForStatement], from "Parse from, to, and step" to the cast to
    MLIR's index type, and the value the induction variable is bound to. *)

(** [builder.getIntegerType(64, true)], "the type we assume for from, to, and
    step". *)
Definition si64 : type := Scalar SI64.

(** [builder.getIndexType()] *)
Definition idxType : type := Scalar Index.

(** The operands of the [scf::ForOp] the visitor creates, the counting
    direction, and the value bound to the loop variable.  The visitor binds
    the variable to [EwMulOp(castIf(t, ph), direction)] for a placeholder
    [ph] of index type and later replaces [ph] by the induction variable of
    the [ForOp] ([ph.replaceAllUsesWith]); the induction variable is the
    first argument of the body block and has the index type too, so the
    bound value is given here with the induction variable in place. *)
Record ForOp : Set := mkForOp {
  for_direction : value;
  for_lowerBound : value;
  for_upperBound : value;
  for_step : value;
  for_var : value;
}.

Definition forInductionVar : value := BlockArgument 0 idxType.

Definition visitForStatement_bounds
    (ctx_from ctx_to : value) (ctx_step : option value) : ForOp :=
  let t := si64 in
  let from := castIf t ctx_from in
  let to := castIf t ctx_to in
  let '(step, direction) :=
    match ctx_step with
    | Some s =>
        let step := castIf t s in
        (step, EwSignOp t step)
    | None =>
        let step :=
          EwAddOp t (ConstantOp t (-1))
            (EwMulOp t (ConstantOp t 2) (castIf t (EwGeOp t to from))) in
        (step, step)
    end in
  let to := EwAddOp t to direction in
  let from := EwMulOp t from direction in
  let to := EwMulOp t to direction in
  let step := EwMulOp t step direction in
  {| for_direction := direction;
     for_lowerBound := castIf idxType from;
     for_upperBound := castIf idxType to;
     for_step := castIf idxType step;
     for_var := EwMulOp t (castIf t forInductionVar) direction |}.

(** The operands [from], [to], [step] of the [daphne::ParForOp] created by
    [visitParForStatement], and the value bound to the loop variable (the
    block argument [ivPH], replaced by the block argument [iv] of the
    body). *)
Record ParForOp : Set := mkParForOp {
  parfor_from : value;
  parfor_to : value;
  parfor_step : value;
  parfor_var : value;
}.

Definition visitParForStatement_bounds
    (ctx_from ctx_to : value) (ctx_step : option value) : ParForOp :=
  let t := si64 in
  let from := castIf t ctx_from in
  let to := castIf t ctx_to in
  let step :=
    match ctx_step with
    | Some s => castIf t s
    | None => ConstantOp t 1
    end in
  {| parfor_from := from;
     parfor_to := to;
     parfor_step := step;
     parfor_var := BlockArgument 0 idxType |}.

(** ** Meaning of the emitted scalar operations *)

(** Two's complement wrap-around to 64 bits, signed and unsigned. *)
Definition wrap_s64 (z : Z) : Z := (z + 2 ^ 63) mod 2 ^ 64 - 2 ^ 63.
Definition wrap_u64 (z : Z) : Z := z mod 2 ^ 64.

Definition wrapTo (ty : type) (z : Z) : Z :=
  match ty with
  | Scalar SI64 | Scalar Index => wrap_s64 z
  | Scalar UI64 => wrap_u64 z
  | _ => z
  end.

(** Modelled from the spec: the kernels behind the elementwise operations
    are not part of the visitor.  The spec computes the bounds in signed
    64-bit arithmetic ([-1 + 2*(to>=from ? 1 : 0)], [to + direction],
    [from*direction], sign of the step); the operations are given that
    meaning, with wrap-around to the result type.  [rho] gives the values of
    the leaves and [beta] those of the block arguments.  Operations on data
    objects have no scalar meaning. *)
Fixpoint eval (rho beta : nat → Z) (v : value) : option Z :=
  match v with
  | Leaf id _ => Some (rho id)
  | BlockArgument i _ => Some (beta i)
  | ConstantOp _ c => Some c
  | CastOp ty a => wrapTo ty <$> eval rho beta a
  | RenameOp _ a => eval rho beta a
  | EwAddOp ty a b =>
      x ← eval rho beta a; y ← eval rho beta b; Some (wrapTo ty (x + y))
  | EwMulOp ty a b =>
      x ← eval rho beta a; y ← eval rho beta b; Some (wrapTo ty (x * y))
  | EwGeOp ty a b =>
      x ← eval rho beta a; y ← eval rho beta b;
      Some (if decide (y ≤ x) then 1 else 0)
  | EwSignOp ty a => Z.sgn <$> eval rho beta a
  | _ => None
  end.

(** Modelled from the spec: [scf.for] is MLIR's, "the underlying exclusive,
    ascending-only form": the induction variable starts at the lower bound,
    advances by the (positive) step and the body runs while it is below the
    upper bound.  The list holds the values the induction variable takes. *)
Definition scfFor_trips (lb ub step : Z) : nat :=
  if decide (0 < step) then Z.to_nat ((ub - lb + step - 1) `div` step) else 0%nat.

Definition scfFor_ivs (lb ub step : Z) : list Z :=
  (λ k : nat, lb + Z.of_nat k * step) <$> seq 0 (scfFor_trips lb ub step).

(** The values the script-visible loop variable takes, in order. *)
Definition forIterations (rho : nat → Z) (op : ForOp) : option (list Z) :=
  lb ← eval rho (λ _, 0) (for_lowerBound op);
  ub ← eval rho (λ _, 0) (for_upperBound op);
  st ← eval rho (λ _, 0) (for_step op);
  mapM (λ iv, eval rho (λ _, iv) (for_var op)) (scfFor_ivs lb ub st).

(** The literal [n] as [visitLiteral] lowers an integer literal. *)
Definition intLiteral (n : Z) : value := ConstantOp si64 n.


(** ** Errors

    The visitor fails by throwing [ErrorHandler::compilerError(loc,
    component, message)]; the symbol table throws a [std::runtime_error] on
    a miss.  Lowering stops at the first exception. *)
Definition location : Set := nat.

Inductive exception : Set :=
| CompilerError (loc : location) (component message : string)
| RuntimeError (message : string).

#[global] Instance exception_eq_dec : EqDecision exception.
Proof. solve_decision. Defined.

Inductive result (A : Type) : Type :=
| Ok (a : A)
| Err (e : exception).
Arguments Ok {A} a.
Arguments Err {A} e.

#[global] Instance result_ret : MRet result := λ A a, Ok a.
#[global] Instance result_bind : MBind result := λ A B f m,
  match m with
  | Ok a => f a
  | Err e => Err e
  end.

Definition isErr {A} (r : result A) : bool :=
  match r with Ok _ => false | Err _ => true end.

(** ** The scoped symbol table *)

Record SymbolInfo : Set := mkSymbolInfo {
  si_value : value;
  isReadOnly : bool;
}.

#[global] Instance SymbolInfo_eq_dec : EqDecision SymbolInfo.
Proof. solve_decision. Defined.

(** [ScopedSymbolTable::SymbolTable], a [std::map] from names to symbols. *)
Abbreviation SymbolTable := (gmap string SymbolInfo).

(** Modelled from the spec: [ScopedSymbolTable] is declared in
    [parser/ScopedSymbolTable.h], which is not part of the sources.  The spec
    gives a stack of scopes that "is never empty during lowering"; "lookup
    searches innermost-to-outermost"; [put] "inserts/overwrites in the
    innermost scope".  The innermost scope is kept apart so that the stack
    cannot be empty; [enclosing] lists the other scopes from the inside
    out. *)
Record ScopedSymbolTable : Type := mkScopes {
  innermost : SymbolTable;
  enclosing : list SymbolTable;
}.

Definition scopes (st : ScopedSymbolTable) : list SymbolTable :=
  innermost st :: enclosing st.

(** Modelled from the spec: a fresh table holds the one global scope. *)
Definition newSymbolTable : ScopedSymbolTable :=
  {| innermost := ∅; enclosing := [] |}.

Fixpoint lookupScopes (scs : list SymbolTable) (sym : string) : option SymbolInfo :=
  match scs with
  | [] => None
  | sc :: scs' =>
      match sc !! sym with
      | Some info => Some info
      | None => lookupScopes scs' sym
      end
  end.

(** Modelled from the spec: [symbolTable.has(sym)]. *)
Definition st_has (st : ScopedSymbolTable) (sym : string) : bool :=
  existsb (λ sc : SymbolTable, bool_decide (is_Some (sc !! sym))) (scopes st).

(** Modelled from the spec: [symbolTable.get(sym)]; [None] stands for the
    exception of a miss. *)
Definition st_get (st : ScopedSymbolTable) (sym : string) : option SymbolInfo :=
  lookupScopes (scopes st) sym.

(** Modelled from the spec: [symbolTable.get(sym, tab)] looks in the given
    table first (the names a branch has rebound) and in the scopes
    otherwise (the value before the construct). *)
Definition st_get_in (st : ScopedSymbolTable) (sym : string) (tab : SymbolTable)
    : option SymbolInfo :=
  match tab !! sym with
  | Some info => Some info
  | None => st_get st sym
  end.

(** Modelled from the spec: [symbolTable.put(sym, info)]. *)
Definition st_put (sym : string) (info : SymbolInfo) (st : ScopedSymbolTable)
    : ScopedSymbolTable :=
  {| innermost := <[sym := info]> (innermost st); enclosing := enclosing st |}.

(** Modelled from the spec: [symbolTable.pushScope()]. *)
Definition pushScope (st : ScopedSymbolTable) : ScopedSymbolTable :=
  {| innermost := ∅; enclosing := scopes st |}.

(** Modelled from the spec: [symbolTable.has(v)] for a value: whether some
    name is bound to it. *)
Definition st_has_value (st : ScopedSymbolTable) (v : value) : bool :=
  existsb (λ sc : SymbolTable,
             bool_decide (Exists (λ kv, si_value kv.2 = v) (map_to_list sc)))
          (scopes st).

(** [renameIf] *)
Definition renameIf (symbolTable : ScopedSymbolTable) (v : value) : value :=
  if st_has_value symbolTable v then RenameOp (getType v) v else v.

(** ** Indexing *)

(** What [visitIndexing] hands over for one axis: a single SSA value, a
    range whose bounds may be missing, or something else. *)
Inductive axSpec : Set :=
| AxValue (v : value)
| AxRange (axLowerIncl axUpperExcl : option value)
| AxOther.

(** Modelled from the spec: [CompilerUtils::hasObjType] is not part of the
    sources; a position is a "data-object value" when its type is a matrix
    or a frame. *)
Definition hasObjType (v : value) : bool :=
  match getType v with
  | Matrix _ | Frame _ => true
  | _ => false
  end.

Definition isStringType (t : type) : bool :=
  match t with StringType => true | _ => false end.

Section Indexing.
(** [CompilerUtils::retValWithInferredType] sets the inferred result
    type of the operation just built; type inference is outside the
    visitor. *)
Variable retValWithInferredType : value → value.

(** [applyRightIndexing<ExtractAxOp, SliceAxOp, NumAxOp>]; the three
    template arguments are fixed by the axis. *)
Definition applyRightIndexing (ax_ : axis) (loc : location) (arg : value)
    (ax : axSpec) (allowLabel : bool) : result value :=
  match ax with
  | AxValue axVal =>
      if hasObjType axVal then
        Ok (retValWithInferredType (ExtractAxOp ax_ unknownType arg axVal))
      else if isStringType (getType axVal) then
        if allowLabel then
          Ok (retValWithInferredType (ExtractAxOp ax_ unknownType arg axVal))
        else
          Err (CompilerError loc "DSLVisitor (applyRightIndexing)"
                 "cannot use right indexing with label in this case")
      else
        Ok (retValWithInferredType
              (SliceAxOp ax_ unknownType arg (castSI64If axVal)
                 (castSI64If
                    (EwAddOp (Scalar UI64) (castSI64If axVal)
                       (ConstantOp si64 1)))))
  | AxRange axLowerIncl axUpperExcl =>
      let axLowerIncl := default (ConstantOp si64 0) axLowerIncl in
      let axUpperExcl := default (NumAxOp ax_ sizeType arg) axUpperExcl in
      Ok (retValWithInferredType
            (SliceAxOp ax_ unknownType arg (castSI64If axLowerIncl)
               (castSI64If axUpperExcl)))
  | AxOther =>
      Err (CompilerError loc "DSLVisitor (applyRightIndexing)"
             "unsupported type for right indexing")
  end.

(** [applyLeftIndexing<InsertAxOp, NumAxOp>] *)
Definition applyLeftIndexing (ax_ : axis) (loc : location) (arg ins : value)
    (ax : axSpec) (allowLabel : bool) : result value :=
  let argType := getType arg in
  match ax with
  | AxValue axVal =>
      if hasObjType axVal then
        Err (CompilerError loc "DSLVisitor (applyLeftIndexing)"
               "left indexing with positions as a data object is not supported (yet)")
      else if isStringType (getType axVal) then
        if allowLabel then
          Err (CompilerError loc "DSLVisitor (applyLeftIndexing)"
                 "left indexing by label is not supported yet")
        else
          Err (CompilerError loc "DSLVisitor (applyLeftIndexing)"
                 "cannot use left indexing with label in this case")
      else
        Ok (InsertAxOp ax_ argType arg ins (castSI64If axVal)
              (castSI64If
                 (EwAddOp (Scalar UI64) (castSI64If axVal)
                    (ConstantOp si64 1))))
  | AxRange axLowerIncl axUpperExcl =>
      let axLowerIncl := default (ConstantOp si64 0) axLowerIncl in
      let axUpperExcl := default (NumAxOp ax_ sizeType arg) axUpperExcl in
      Ok (InsertAxOp ax_ argType arg ins (castSI64If axLowerIncl)
            (castSI64If axUpperExcl))
  | AxOther =>
      Err (CompilerError loc "DSLVisitor (applyLeftIndexing)"
             "unsupported type for left indexing")
  end.

(** ** Assignments *)

Definition isFrameType (t : type) : bool :=
  match t with Frame _ => true | _ => false end.

(** What [visit(idxCtx)] returns: for rows and for columns, whether the
    axis is specified and how. *)
Record indexing : Set := mkIndexing {
  idx_loc : location;
  idx_rows : bool * axSpec;
  idx_cols : bool * axSpec;
}.

(** [handleAssignmentPart]; [idxCtx] is the lowered index of a left
    indexing [var[idxCtx] = val], with [utils.getLoc(idxCtx->start)]. *)
Definition handleAssignmentPart (loc : location) (var : string)
    (idxCtx : option indexing) (symbolTable : ScopedSymbolTable) (val : value)
    : result ScopedSymbolTable :=
  if st_has symbolTable var
     && from_option isReadOnly false (st_get symbolTable var) then
    Err (CompilerError loc "DSLVisitor (handleAssignmentPart)"
           ("trying to assign read-only variable " +:+ var))
  else
    match idxCtx with
    | Some idx =>
        match st_get symbolTable var with
        | None =>
            Err (CompilerError loc "DSLVisitor (handleAssignmentPart)"
                   ("cannot use left indexing on variable " +:+ var +:+
                    " before a value has been assigned to it"))
        | Some info =>
            let obj := si_value info in
            let rows := idx_rows idx in
            let cols := idx_cols idx in
            obj ←
              (if rows.1 && cols.1 then
                 rowSeg ← applyRightIndexing Row (idx_loc idx) obj rows.2 false;
                 rowSeg ← applyLeftIndexing Col (idx_loc idx) rowSeg val cols.2
                            (isFrameType (getType obj));
                 applyLeftIndexing Row (idx_loc idx) obj rowSeg rows.2 false
               else if rows.1 then
                 applyLeftIndexing Row (idx_loc idx) obj val rows.2 false
               else if cols.1 then
                 applyLeftIndexing Col (idx_loc idx) obj val cols.2
                   (isFrameType (getType obj))
               else
                 Ok (renameIf symbolTable val));
            Ok (st_put var (mkSymbolInfo obj false) symbolTable)
        end
    | None =>
        Ok (st_put var (mkSymbolInfo (renameIf symbolTable val) false) symbolTable)
    end.
End Indexing.

(** The scope in which the body of a counted for-loop is lowered:
    [visitForStatement] pushes a scope and binds the loop variable in it,
    read-only. *)
Definition visitForStatement_bodyScope (var : string) (op : ForOp)
    (symbolTable : ScopedSymbolTable) : ScopedSymbolTable :=
  st_put var (mkSymbolInfo (for_var op) true) (pushScope symbolTable).

(** The same for [visitParForStatement]: the loop variable is bound to the
    block argument, with the read-only flag [false]. *)
Definition visitParForStatement_bodyScope (var : string) (op : ParForOp)
    (symbolTable : ScopedSymbolTable) : ScopedSymbolTable :=
  st_put var (mkSymbolInfo (parfor_var op) false) (pushScope symbolTable).

(** [visitBlockStatement] opens a scope for the statements of a block. *)
Definition visitBlockStatement_enter (symbolTable : ScopedSymbolTable)
    : ScopedSymbolTable :=
  pushScope symbolTable.

(** ** Overload resolution for user-defined functions *)

(** A [func::FuncOp]: its unique symbol and its function type. *)
Record FuncOp : Set := mkFuncOp {
  func_symbol : string;
  func_inputs : list type;
  func_results : list type;
}.

#[global] Instance FuncOp_eq_dec : EqDecision FuncOp.
Proof. solve_decision. Defined.

(** [functionsSymbolMap], a [std::multimap] from the DaphneDSL name to the
    functions registered under it: the entries in iteration order (entries
    with equal names stay in the order of their insertion). *)
Definition functionsSymbolMap : Set := list (string * FuncOp).

(** [functionsSymbolMap.equal_range(functionName)] *)
Definition equal_range (m : functionsSymbolMap) (functionName : string) : list FuncOp :=
  snd <$> filter (λ e, e.1 = functionName) m.

(** [argAndUDFParamCompatible] *)
Definition argAndUDFParamCompatible (argTy paramTy : type) : bool :=
  bool_decide (paramTy = argTy)
  || bool_decide (argTy = unknownType) || bool_decide (paramTy = unknownType)
  || match argTy, paramTy with
     | Matrix argElem, Matrix paramElem =>
         bool_decide (argElem = unknownType) || bool_decide (paramElem = unknownType)
     | _, _ => false
     end.

(** The loop over [llvm::zip(funcTy.getInputs(), args)]; it is entered only
    when both have the same length. *)
Fixpoint allCompatible (inputs : list type) (args : list value) : bool :=
  match inputs, args with
  | funcParamType :: inputs', argVal :: args' =>
      if argAndUDFParamCompatible (getType argVal) funcParamType
      then allCompatible inputs' args'
      else false
  | _, _ => true
  end.

(** The body of the search loop for one candidate. *)
Definition candidateMatches (args : list value) (userDefinedFunc : FuncOp) : bool :=
  if decide (length (func_inputs userDefinedFunc) ≠ length args) then false
  else allCompatible (func_inputs userDefinedFunc) args.

(** [s << a << ", " << b ...]: the elements separated by [sep]. *)
Fixpoint joinWith (sep : string) (l : list string) : string :=
  match l with
  | [] => ""
  | [x] => x
  | x :: l' => x +:+ sep +:+ joinWith sep l'
  end.

Section Printing.
(** [operator<<] for [mlir::Type]. *)
Variable printType : type → string.

Definition printSignature (functionName : string) (f : FuncOp) : string :=
  functionName +:+ "(" +:+ joinWith ", " (printType <$> func_inputs f) +:+ ")".

Definition noDefinitionMessage (functionName : string) (args : list value)
    (options : list FuncOp) : string :=
  "no definition of function `" +:+ functionName +:+ "` for argument types (" +:+
  joinWith ", " (printType ∘ getType <$> args) +:+
  "), available options: " +:+
  joinWith ", " (printSignature functionName <$> options).

(** [findMatchingUDF]: the first registered function that matches, an
    exception when the name is registered and nothing matches,
    [std::nullopt] when the name is not registered. *)
Definition findMatchingUDF (m : functionsSymbolMap) (functionName : string)
    (args : list value) (loc : location) : result (option FuncOp) :=
  let range := equal_range m functionName in
  match find (candidateMatches args) range with
  | Some userDefinedFunc => Ok (Some userDefinedFunc)
  | None =>
      match range with
      | _ :: _ =>
          Err (CompilerError loc "DSLVisitor"
                 (noDefinitionMessage functionName args range))
      | [] => Ok None
      end
  end.

End Printing.

(** ** The merge after an if-statement *)

(** Modelled from the spec: [CompilerUtils::equalUnknownAware] is not part
    of the sources; "the then- and else-branch values' types must be equal
    or Unknown on at least one side". *)
Definition equalUnknownAware (t1 t2 : type) : bool :=
  bool_decide (t1 = t2) || bool_decide (t1 = Unknown) || bool_decide (t2 = Unknown).

(** The order of [std::string], which [std::set] iterates in. *)
Definition string_le (a b : string) : Prop := String.leb a b = true.

#[global] Instance string_le_dec : RelDecision string_le.
Proof. intros a b. unfold string_le. apply _. Defined.

(** Modelled from the spec: [ScopedSymbolTable::mergeSymbols], "the union
    of names rebound in either branch", as the [std::set] lists it. *)
Definition mergeSymbols (lhs rhs : SymbolTable) : list string :=
  merge_sort string_le (elements (dom lhs ∪ dom rhs)).

(** Modelled from the spec: [symbolTable.getSymbol(v, tab)] is not part
    of the sources and the spec only says that the error names the
    variable; it is taken to find a name bound to the value, in the
    given table first and in the scopes otherwise. *)
Definition symbolOf (v : value) (tab : SymbolTable) : option string :=
  fst <$> find (λ kv : string * SymbolInfo, bool_decide (si_value kv.2 = v))
            (map_to_list tab).

Fixpoint symbolInScopes (v : value) (scs : list SymbolTable) : option string :=
  match scs with
  | [] => None
  | sc :: scs' =>
      match symbolOf v sc with
      | Some n => Some n
      | None => symbolInScopes v scs'
      end
  end.

Definition getSymbol (st : ScopedSymbolTable) (v : value) (tab : SymbolTable)
    : option string :=
  symbolInScopes v (tab :: scopes st).
(** The [scf::IfOp] built by [visitIfStatement]: the condition, the operands
    of the yield that ends the then-block, and the else-region, which is
    either left out or ends in a yield as well.  The operations that the
    statements of the branches have put in the two blocks are not listed.
    MLIR gives the operation one result for each operand of the yield of the
    then-block, with the type of that operand. *)
Record IfOp : Set := mkIfOp {
  if_loc : location;
  if_cond : value;
  if_thenYield : list value;
  if_elseYield : option (list value);
}.

(** [ifOp.getResults()] *)
Definition getResults (op : IfOp) : list value :=
  imap (λ i v, OpResult (if_loc op) i (getType v)) (if_thenYield op).

Section IfStatement.
Variable printType : type → string.

Definition ambiguousTypeMessage (var : string) (tyThen tyElse : type) : string :=
  "type of variable `" +:+ var +:+
  "` after if-statement is ambiguous, could be either " +:+ printType tyThen +:+
  " (then-branch) or " +:+ printType tyElse +:+ " (else-branch)".

Definition symbolNotFound : exception := RuntimeError "symbol not found".

(** The loop of [visitIfStatement] over [owUnion] that checks the types
    and collects the operands of the two yields. *)
Fixpoint ifYieldOperands (loc : location) (symbolTable : ScopedSymbolTable)
    (owThen owElse : SymbolTable) (owUnion : list string)
    : result (list value * list value) :=
  match owUnion with
  | [] => Ok ([], [])
  | sym :: owUnion' =>
      match st_get_in symbolTable sym owThen with
      | None => Err symbolNotFound
      | Some infoThen =>
          match st_get_in symbolTable sym owElse with
          | None => Err symbolNotFound
          | Some infoElse =>
              let valThen := si_value infoThen in
              let valElse := si_value infoElse in
              let tyThen := getType valThen in
              let tyElse := getType valElse in
              if negb (equalUnknownAware tyThen tyElse) then
                match getSymbol symbolTable valThen owThen with
                | Some var =>
                    Err (CompilerError loc "DSLVisitor"
                           (ambiguousTypeMessage var tyThen tyElse))
                | None => Err symbolNotFound
                end
              else
                '(resultsThen, resultsElse) ←
                  ifYieldOperands loc symbolTable owThen owElse owUnion';
                Ok (valThen :: resultsThen, valElse :: resultsElse)
          end
      end
  end.

(** "Rewire the results of the if-operation to their variable names." *)
Definition rewireResults (owUnion : list string) (results : list value)
    (symbolTable : ScopedSymbolTable) : ScopedSymbolTable :=
  foldl (λ st nr, st_put nr.1 (mkSymbolInfo nr.2 false) st) symbolTable
        (zip owUnion results).

(** [visitIfStatement] from "Determine the result type(s)" on.  [owThen]
    holds what the then-branch has rebound; [elseStmt] is [None] when the
    statement has no else-branch and holds what the else-branch has
    rebound otherwise. *)
Definition visitIfStatement (loc : location) (cond : value)
    (owThen : SymbolTable) (elseStmt : option SymbolTable)
    (symbolTable : ScopedSymbolTable) : result (IfOp * ScopedSymbolTable) :=
  let owElse := default ∅ elseStmt in
  let owUnion := mergeSymbols owThen owElse in
  '(resultsThen, resultsElse) ←
    ifYieldOperands loc symbolTable owThen owElse owUnion;
  let ifOp :=
    {| if_loc := loc;
       if_cond := cond;
       if_thenYield := resultsThen;
       if_elseYield :=
         if bool_decide (is_Some elseStmt) || negb (bool_decide (owUnion = []))
         then Some resultsElse else None |} in
  Ok (ifOp, rewireResults owUnion (getResults ifOp) symbolTable).
End IfStatement.

(** ** Leaving a scope *)

(** Modelled from the spec: [symbolTable.popScope()] is not part of the
    sources.  The spec has the body of a construct lowered "under a fresh
    scope to discover the loop-carried set (names it rebinds)", and
    [visitForStatement] takes the result for the "variables created before
    the loop" that "are updated in the loop's body": the innermost scope is
    dropped, and the result holds its entries for the names that an
    enclosing scope binds as well.  The last scope is not dropped ("the
    BindingStore is never empty during lowering"). *)
Definition popScope (st : ScopedSymbolTable) : SymbolTable * ScopedSymbolTable :=
  match enclosing st with
  | sc :: scs =>
      let symbolTable := {| innermost := sc; enclosing := scs |} in
      (filter (λ kv, st_has symbolTable kv.1 = true) (innermost st), symbolTable)
  | [] => (∅, st)
  end.

(** Modelled from the spec: [symbolTable.put(tab)] for a whole table puts
    each of its entries, so "inserts/overwrites in the innermost scope". *)
Definition st_put_all (tab : SymbolTable) (st : ScopedSymbolTable) : ScopedSymbolTable :=
  {| innermost := tab ∪ innermost st; enclosing := enclosing st |}.

(** The end of [visitBlockStatement]: [symbolTable.put(symbolTable.popScope())]. *)
Definition visitBlockStatement_leave (st : ScopedSymbolTable) : ScopedSymbolTable :=
  let '(ow, symbolTable) := popScope st in
  st_put_all ow symbolTable.

(** [visitForStatement] from [symbolTable.popScope()] on, as far as the
    symbol table goes: [st] is the table at the end of the body.  The names
    of [ow] are gone through in the order of the [std::map]; the operands of
    the [scf::ForOp] are what the names stand for before the loop
    ([symbolTable.get], [None] for its exception), its results have their
    types, and every name is put again for its result, with the read-only
    flag [false]. *)
Definition visitForStatement_leave (loc : location) (st : ScopedSymbolTable)
    : option ScopedSymbolTable :=
  let '(ow, symbolTable) := popScope st in
  let names := merge_sort string_le (elements (dom ow)) in
  forOperands ← mapM (λ sym, si_value <$> st_get symbolTable sym) names;
  let results := imap (λ i forOperand, OpResult loc i (getType forOperand)) forOperands in
  Some (rewireResults names results symbolTable).

(** The tables of [for (i in 1:3) { for (i in 1:2) { } i = 7; }]: at the
    start of the block of the outer loop, and where the inner loop, at
    location 7, has been left. *)
Definition nestedLoops_outerBlock : ScopedSymbolTable :=
  visitBlockStatement_enter
    (visitForStatement_bodyScope "i"
       (visitForStatement_bounds (intLiteral 1) (intLiteral 3) None) newSymbolTable).

Definition nestedLoops_afterInner : option ScopedSymbolTable :=
  let innerBody :=
    visitForStatement_bodyScope "i"
      (visitForStatement_bounds (intLiteral 1) (intLiteral 2) None)
      nestedLoops_outerBlock in
  visitForStatement_leave 7%nat
    (visitBlockStatement_leave (visitBlockStatement_enter innerBody)).

(** ** Rectification of early returns

    [rectifyEarlyReturns] works on the block of a function after its body
    has been lowered.  An operation is given by its kind, its location and
    its regions; a region is the list of operations of its one block, and a
    region without a block (the else-region of an [scf.if] that has none) is
    left out of the list.  Operands and results are not listed: the
    rectification decides by the kinds and the positions of operations only,
    and the values it rewires do not change where operations end up. *)

Inductive opkind : Set :=
| daphne_return
| scf_yield
| scf_if
| daphne_parfor
| other_op (name : string).

#[global] Instance opkind_eq_dec : EqDecision opkind.
Proof. solve_decision. Defined.

Inductive op : Set :=
| Op (kind : opkind) (loc : location) (regions : list (list op)).

Definition op_kind (o : op) : opkind := match o with Op k _ _ => k end.
Definition op_loc (o : op) : location := match o with Op _ l _ => l end.
Definition op_regions (o : op) : list (list op) := match o with Op _ _ rs => rs end.

(** [builder.getUnknownLoc()] *)
Definition unknownLoc : location := 0%nat.

(** [op->getName().getStringRef()] *)
Definition getName (k : opkind) : string :=
  match k with
  | daphne_return => "daphne.return"
  | scf_yield => "scf.yield"
  | scf_if => "scf.if"
  | daphne_parfor => "daphne.parfor"
  | other_op name => name
  end.

Definition isReturnOp (o : op) : bool := bool_decide (op_kind o = daphne_return).
Definition isYieldOp (o : op) : bool := bool_decide (op_kind o = scf_yield).
Definition isIfKind (k : opkind) : bool := bool_decide (k = scf_if).

(** What running a piece of the rectification gives: a value, an exception,
    behaviour that C++ leaves undefined (a null operation is dereferenced,
    the last operation of an empty block is taken), or no answer within the
    given number of rounds of the loop. *)
Inductive outcome (A : Type) : Type :=
| Finished (a : A)
| Thrown (e : exception)
| Undefined
| OutOfFuel.
Arguments Finished {A} a.
Arguments Thrown {A} e.
Arguments Undefined {A}.
Arguments OutOfFuel {A}.

#[global] Instance outcome_ret : MRet outcome := λ A a, Finished a.
#[global] Instance outcome_bind : MBind outcome := λ A B f m,
  match m with
  | Finished a => f a
  | Thrown e => Thrown e
  | Undefined => Undefined
  | OutOfFuel => OutOfFuel
  end.
#[global] Instance outcome_fmap : FMap outcome := λ A B f m,
  match m with
  | Finished a => Finished (f a)
  | Thrown e => Thrown e
  | Undefined => Undefined
  | OutOfFuel => OutOfFuel
  end.

(** A position in a block: the operations to descend through, each with its
    index in its block and the number of the region entered, and the index
    of the operation in the innermost block. *)
Definition path : Set := list (nat * nat).
Definition position : Set := path * nat.

Definition below (i r : nat) (pos : position) : position := ((i, r) :: pos.1, pos.2).

(** [funcBlock->walk([&](ReturnOp) ...)]: the positions of the return
    operations in the order of the walk (the operations of a block in
    order, the regions of an operation before the operation itself). *)
Fixpoint walkOp (o : op) : list (nat * position) :=
  match o with
  | Op _ _ rs =>
      (fix walkRegions (r : nat) (rs : list (list op)) : list (nat * position) :=
         match rs with
         | [] => []
         | b :: rs' =>
             (pair r <$>
               (fix walkOps (i : nat) (b : list op) : list position :=
                  match b with
                  | [] => []
                  | o' :: b' =>
                      ((λ rp : nat * position, below i rp.1 rp.2) <$> walkOp o')
                      ++ (if isReturnOp o' then [([], i)] else [])
                      ++ walkOps (S i) b'
                  end) 0%nat b)
             ++ walkRegions (S r) rs'
         end) 0%nat rs
  end.

Fixpoint walkOps (i : nat) (b : list op) : list position :=
  match b with
  | [] => []
  | o :: b' =>
      ((λ rp : nat * position, below i rp.1 rp.2) <$> walkOp o)
      ++ (if isReturnOp o then [([], i)] else [])
      ++ walkOps (S i) b'
  end.

Definition walk (funcBlock : list op) : list position := walkOps 0 funcBlock.

(** The count [nested] of the walk's callback: 1 for a return in the block
    of the function, one more for each enclosing operation. *)
Definition nested (pos : position) : nat := S (length pos.1).

(** The walk keeps the first return of the greatest nesting level. *)
Definition mostNestedReturn (funcBlock : list op) : option position :=
  foldl (λ best pos,
           match best with
           | None => Some pos
           | Some b => if decide (nested b < nested pos)%nat then Some pos else best
           end)
        None (walk funcBlock).

(** [levelOfMostNested] when the walk is over, [0] without a return. *)
Definition levelOfMostNested (funcBlock : list op) : nat :=
  from_option nested 0%nat (mostNestedReturn funcBlock).

(** [returnOp->getParentOp()] for the return at a position; [None] is the
    null pointer of a return in the block of the function, which hangs in
    no operation yet. *)
Fixpoint getParentOp (p : path) (b : list op) : option op :=
  match p with
  | [] => None
  | (i, r) :: p' =>
      match b !! i with
      | None => None
      | Some o =>
          match p' with
          | [] => Some o
          | _ :: _ => rs ← op_regions o !! r; getParentOp p' rs
          end
      end
  end.

(** The enclosing operations of an [scf.if], from the inside out: the kind of
    each and the operations that follow it in its block
    ([parentOp->getNextNode()] and on). *)
Definition ancestors : Set := list (opkind * list op).

Definition notNestedInIfs (loc : location) : exception :=
  CompilerError loc "DSLVisitor" "Early return not nested in `if`s not yet supported!".

(** The first loop of [rectifyIfCaseWithoutReturnOp]: the operations
    visited from [ifOpWithEarlyReturn->getNextNode()] on.  At a yield the
    walk goes on behind the parent of the yield, which must be an [scf.if].
    The operations visited in the block of the if are moved, those of
    enclosing blocks are cloned; the second component lists what stays
    behind the if in its block. *)
Fixpoint opsAfterIf (anc : ancestors) : list op → outcome (list op * list op) :=
  fix visit (next : list op) : outcome (list op * list op) :=
    match next with
    | [] => Finished ([], [])
    | o :: next' =>
        if isYieldOp o then
          match anc with
          | [] => Undefined
          | (parentKind, afterParent) :: anc' =>
              if isIfKind parentKind then
                '(visited, _) ← opsAfterIf anc' afterParent;
                Finished (o :: visited, next')
              else Thrown (notNestedInIfs (op_loc o))
          end
        else
          '(visited, rest) ← visit next';
          Finished (o :: visited, rest)
    end.

(** The chain [currIfOp] runs through in the second loop: the if itself and
    its enclosing operations as long as they are [scf.if]s. *)
Fixpoint leadingIfs (anc : ancestors) : nat :=
  match anc with
  | (k, _) :: anc' => if isIfKind k then S (leadingIfs anc') else 0%nat
  | [] => 0%nat
  end.

(** The second loop of [rectifyIfCaseWithoutReturnOp]: every yield among
    the operations of the case is erased; [n] counts the ifs [currIfOp] can
    still run through, and a yield met when it is null dereferences it. *)
Fixpoint eraseYields (n : nat) (caseBlock : list op) : outcome (list op) :=
  match caseBlock with
  | [] => Finished []
  | o :: caseBlock' =>
      if isYieldOp o then
        match n with
        | O => Undefined
        | S n' => eraseYields n' caseBlock'
        end
      else cons o <$> eraseYields n caseBlock'
  end.

(** [rectifyIfCaseWithoutReturnOp]: the new operations of the case and what
    stays behind the if in its block. *)
Definition rectifyIfCaseWithoutReturnOp (anc : ancestors)
    (caseBlock next : list op) : outcome (list op * list op) :=
  let caseBlock :=
    if from_option isYieldOp false (last caseBlock) then caseBlock
    else caseBlock ++ [Op scf_yield unknownLoc []] in
  '(visited, rest) ← opsAfterIf anc next;
  caseBlock ← eraseYields (S (leadingIfs anc)) (caseBlock ++ visited);
  Finished (caseBlock, rest).

(** Index of the first return among the operations of a block
    ([*returnOps.begin()]). *)
Fixpoint firstReturn (b : list op) : option nat :=
  match b with
  | [] => None
  | o :: b' => if isReturnOp o then Some 0%nat else S <$> firstReturn b'
  end.

(** [removeOperationsBeforeReturnOp]: erases, from the back, every operation
    behind the first return. *)
Definition removeOperationsBeforeReturnOp (firstReturnOp : nat) (b : list op) : list op :=
  take (S firstReturnOp) b.

Definition finalOpNotReturn (loc : location) (case : string) : exception :=
  CompilerError loc "DSLVisitor"
    ("Final operation in " +:+ case +:+ " case has to be return op").

(** The body shared by [insertThenBlock] and [insertElseBlock] of
    [rectifyEarlyReturn], after the operations of the old block have been
    spliced in. *)
Definition rectifyCase (case : string) (ifLoc : location) (anc : ancestors)
    (newBlock next : list op) : outcome (list op * list op) :=
  '(newBlock, next) ←
    match firstReturn newBlock with
    | Some i => Finished (removeOperationsBeforeReturnOp i newBlock, next)
    | None => rectifyIfCaseWithoutReturnOp anc newBlock next
    end;
  match last newBlock with
  | None => Undefined
  | Some o =>
      if isReturnOp o then
        (* replaceReturnWithYield *)
        Finished (removelast newBlock ++ [Op scf_yield (op_loc o) []], next)
      else Thrown (finalOpNotReturn ifLoc case)
  end.

(** [rectifyEarlyReturn]: what replaces the if and the operations behind it
    in its block: the new if, the return of its results, and what stays. *)
Definition rectifyEarlyReturn (ifOp : op) (next : list op) (anc : ancestors)
    : outcome (list op) :=
  '(newThenBlock, next) ←
    rectifyCase "then" (op_loc ifOp) anc (default [] (op_regions ifOp !! 0%nat)) next;
  '(newElseBlock, next) ←
    rectifyCase "else" (op_loc ifOp) anc (default [] (op_regions ifOp !! 1%nat)) next;
  Finished (Op scf_if unknownLoc [newThenBlock; newElseBlock]
            :: Op daphne_return (op_loc ifOp) [] :: next).

(** [rectifyEarlyReturn(ifOp)] for the operation that the path leads to;
    the operations passed on the way are its enclosing operations. *)
Fixpoint rectifyEarlyReturnAt (p : path) (anc : ancestors) (b : list op)
    : outcome (list op) :=
  match p with
  | [] => Finished b
  | (i, r) :: p' =>
      match b !! i with
      | None => Finished b
      | Some o =>
          match p' with
          | [] =>
              new ← rectifyEarlyReturn o (drop (S i) b) anc;
              Finished (take i b ++ new)
          | _ :: _ =>
              match op_regions o !! r with
              | None => Finished b
              | Some inner =>
                  inner' ← rectifyEarlyReturnAt p' ((op_kind o, drop (S i) b) :: anc) inner;
                  Finished (<[i := Op (op_kind o) (op_loc o) (<[r := inner']> (op_regions o))]> b)
              end
          end
      end
  end.

Definition earlyReturnNotSupported (parentOp : op) : exception :=
  CompilerError (op_loc parentOp) "DSLVisitor"
    ("Early return in `" +:+ getName (op_kind parentOp) +:+ "` is not supported.").

(** [mostNestedReturn == &funcBlock->back()] *)
Definition isBack (pos : position) (funcBlock : list op) : bool :=
  bool_decide (pos.1 = [] ∧ S pos.2 = length funcBlock).

(** What one round of the loop of [rectifyEarlyReturns] does. *)
Inductive round : Set :=
| RoundBreak                       (* "finished!", or the parent is a ParForOp *)
| RoundRectify (p : path)          (* [rectifyEarlyReturn(ifOp)] *)
| RoundThrow (e : exception)
| RoundUndefined.                  (* [dyn_cast] of a null parent *)

Definition nextRound (funcBlock : list op) : round :=
  match mostNestedReturn funcBlock with
  | None => RoundBreak
  | Some pos =>
      if isBack pos funcBlock then RoundBreak
      else
        match getParentOp pos.1 funcBlock with
        | None => RoundUndefined
        | Some parentOp =>
            match op_kind parentOp with
            | scf_if => RoundRectify pos.1
            | daphne_parfor => RoundBreak
            | _ => RoundThrow (earlyReturnNotSupported parentOp)
            end
        end
  end.

(** The loop of [rectifyEarlyReturns], for at most [fuel] rounds. *)
Fixpoint rectifyLoop (fuel : nat) (funcBlock : list op) : outcome (list op) :=
  match fuel with
  | O => OutOfFuel
  | S fuel' =>
      match nextRound funcBlock with
      | RoundBreak => Finished funcBlock
      | RoundRectify p =>
          funcBlock' ← rectifyEarlyReturnAt p [] funcBlock;
          rectifyLoop fuel' funcBlock'
      | RoundThrow e => Thrown e
      | RoundUndefined => Undefined
      end
  end.

(** [rectifyEarlyReturns] *)
Definition rectifyEarlyReturns (fuel : nat) (funcBlock : list op) : outcome (list op) :=
  if bool_decide (funcBlock = []) then Finished funcBlock
  else rectifyLoop fuel funcBlock.


(** The symbol tables met while the body of a loop is lowered, as far as
    blocks and assignments to other names go: starting from the scope of the
    body, a nested block pushes a scope and an assignment binds a name other
    than the loop variable. *)
Inductive withinBody (var : string) (body : ScopedSymbolTable)
    : ScopedSymbolTable → Prop :=
| withinBody_start : withinBody var body body
| withinBody_block (st : ScopedSymbolTable) :
    withinBody var body st → withinBody var body (visitBlockStatement_enter st)
| withinBody_bind (st : ScopedSymbolTable) (sym : string) (info : SymbolInfo) :
    withinBody var body st → sym ≠ var → withinBody var body (st_put sym info st).

(** The exception of an assignment to a read-only variable. *)
Definition readOnlyViolation (loc : location) (var : string) : exception :=
  CompilerError loc "DSLVisitor (handleAssignmentPart)"
    ("trying to assign read-only variable " +:+ var).

(** The value a name has at the end of a branch: the one the branch bound
    it to or, when the branch left it alone, the one it had before. *)
Definition branchValue (symbolTable : ScopedSymbolTable) (ow : SymbolTable)
    (sym : string) : option value :=
  si_value <$> st_get_in symbolTable sym ow.

(** A name whose values after the two branches have types that are equal or
    unknown on one side at least. *)
Definition mergeable (symbolTable : ScopedSymbolTable) (owThen owElse : SymbolTable)
    (sym : string) : Prop :=
  ∃ valThen valElse,
    branchValue symbolTable owThen sym = Some valThen
    ∧ branchValue symbolTable owElse sym = Some valElse
    ∧ (getType valThen = getType valElse
       ∨ getType valThen = Unknown ∨ getType valElse = Unknown).

(** A name whose values after the two branches have different types, none
    of them unknown. *)
Definition ambiguous (symbolTable : ScopedSymbolTable) (owThen owElse : SymbolTable)
    (sym : string) (valThen valElse : value) : Prop :=
  branchValue symbolTable owThen sym = Some valThen
  ∧ branchValue symbolTable owElse sym = Some valElse
  ∧ getType valThen ≠ getType valElse
  ∧ getType valThen ≠ Unknown ∧ getType valElse ≠ Unknown.

(** ** Well-formed blocks and the weight of a block

    What the proofs about the loop of [rectifyEarlyReturns] are stated with:
    the shape of the blocks MLIR accepts, and a number that goes down in
    every round of the loop. *)

Section Weight.
Local Open Scope nat_scope.

(** An operation that is a return or has one in its regions. *)
Fixpoint hasReturn (o : op) : bool :=
  match o with
  | Op k _ rs => bool_decide (k = daphne_return) || existsb (existsb hasReturn) rs
  end.

(** The weight of an operation, given the weight [c] of what control runs
    through behind it: a return counts 1, an [scf.if] with a return counts
    1 and, for each of its two branches, the operations of the branch and
    what lies behind the if (which the rewrite step puts into the branch);
    any other operation counts what its regions hold.  [potential c b] is
    the weight of a block and the weight of what control runs through from
    its start: up to the end of the block, or through a yield into the [c]
    behind. *)
Fixpoint weight (o : op) (c : nat) {struct o} : nat :=
  match o with
  | Op k _ rs =>
      let potential :=
        fix potential (c : nat) (b : list op) {struct b} : nat * nat :=
          match b with
          | [] => (0, 0)
          | o' :: b' =>
              let tc := potential c b' in
              if isYieldOp o' then (tc.1, c)
              else let w := weight o' tc.2 in (w + tc.1, w + tc.2)
          end in
      match k with
      | daphne_return => 1
      | scf_yield => 0
      | scf_if =>
          if existsb (existsb hasReturn) rs then
            match rs with
            | [t] => 1 + ((potential c t).1 + c) + c
            | [t; e] => 1 + ((potential c t).1 + c) + ((potential c e).1 + c)
            | _ => 0
            end
          else 0
      | _ =>
          (fix regions (rs : list (list op)) : nat :=
             match rs with
             | [] => 0
             | b :: rs' => (potential 0 b).1 + regions rs'
             end) rs
      end
  end.

Fixpoint potential (c : nat) (b : list op) {struct b} : nat * nat :=
  match b with
  | [] => (0, 0)
  | o :: b' =>
      let tc := potential c b' in
      if isYieldOp o then (tc.1, c)
      else let w := weight o tc.2 in (w + tc.1, w + tc.2)
  end.

Definition tot (c : nat) (b : list op) : nat := (potential c b).1.
Definition chain (c : nat) (b : list op) : nat := (potential c b).2.

Fixpoint regionsWeight (rs : list (list op)) : nat :=
  match rs with
  | [] => 0
  | b :: rs' => tot 0 b + regionsWeight rs'
  end.

(** [scf.yield] is a terminator: it is the last operation of its block. *)
Fixpoint yieldOnlyLast (b : list op) : bool :=
  match b with
  | [] => true
  | o :: b' =>
      match b' with
      | [] => true
      | _ :: _ => negb (isYieldOp o) && yieldOnlyLast b'
      end
  end.

(** Returns and yields have no regions; an [scf.if] has a then-region and
    at most an else-region. *)
Definition kindAllows (k : opkind) (rs : list (list op)) : bool :=
  match k with
  | daphne_return | scf_yield => bool_decide (length rs = 0)
  | scf_if => bool_decide (length rs = 1 ∨ length rs = 2)
  | _ => true
  end.

Fixpoint wfOp (o : op) : bool :=
  match o with
  | Op k _ rs =>
      kindAllows k rs && forallb (λ b, forallb wfOp b && yieldOnlyLast b) rs
  end.

Definition wfBlock (b : list op) : bool := forallb wfOp b && yieldOnlyLast b.

Definition wfAncestors (anc : ancestors) : bool :=
  forallb (λ ka : opkind * list op, wfBlock ka.2) anc.

Definition returnFree (b : list op) : bool := forallb (λ o, negb (hasReturn o)) b.

Definition yieldFree (b : list op) : bool := forallb (λ o, negb (isYieldOp o)) b.

(** The weight of what control runs through behind an if with the given
    enclosing operations. *)
Fixpoint cont (anc : ancestors) : nat :=
  match anc with
  | [] => 0
  | (k, after) :: anc' => if isIfKind k then chain (cont anc') after else 0
  end.

(** What [eraseYields] leaves of a block. *)
Fixpoint dropYields (b : list op) : list op :=
  match b with
  | [] => []
  | o :: b' => if isYieldOp o then dropYields b' else o :: dropYields b'
  end.

Definition yieldAt (loc : location) : op := Op scf_yield loc [].

(** Every operation of the block is a return or holds none. *)
Definition returnsDirect (b : list op) : bool :=
  forallb (λ o, isReturnOp o || negb (hasReturn o)) b.

(** An [scf.if] with a return directly in a branch and with no return
    nested deeper. *)
Definition directReturns (o : op) : Prop :=
  op_kind o = scf_if
  ∧ returnsDirect (default [] (op_regions o !! 0)) = true
  ∧ returnsDirect (default [] (op_regions o !! 1)) = true
  ∧ (firstReturn (default [] (op_regions o !! 0)) ≠ None
     ∨ firstReturn (default [] (op_regions o !! 1)) ≠ None).

(** The operation a path leads to, as [getParentOp] finds it, has the
    property. *)
Fixpoint leadsTo (P : op → Prop) (p : path) (b : list op) : Prop :=
  match p with
  | [] => False
  | (i, r) :: p' =>
      match b !! i with
      | None => False
      | Some o =>
          match p' with
          | [] => P o
          | _ :: _ =>
              match op_regions o !! r with
              | None => False
              | Some inner => leadsTo P p' inner
              end
          end
      end
  end.

(** The walk through the regions of an operation, from region [r] on. *)
Fixpoint walkRegions (r : nat) (rs : list (list op)) : list (nat * position) :=
  match rs with
  | [] => []
  | b :: rs' => (pair r <$> walkOps 0 b) ++ walkRegions (S r) rs'
  end.

(** A return at a position of a block. *)
Fixpoint returnAt (p : path) (j : nat) (b : list op) : Prop :=
  match p with
  | [] => ∃ o, b !! j = Some o ∧ isReturnOp o = true
  | (i, r) :: p' =>
      ∃ o inner, b !! i = Some o ∧ op_regions o !! r = Some inner ∧ returnAt p' j inner
  end.

Definition walkOpSpec (o : op) : Prop :=
  ∀ r pos, (r, pos) ∈ walkOp o ↔
    ∃ inner, op_regions o !! r = Some inner ∧ returnAt pos.1 pos.2 inner.

Definition walkOpsSpec (b : list op) : Prop :=
  ∀ i0 p j, (p, j) ∈ walkOps i0 b ↔
    match p with
    | [] => ∃ n o, j = i0 + n ∧ b !! n = Some o ∧ isReturnOp o = true
    | (i, r) :: p' =>
        ∃ n o inner, i = i0 + n ∧ b !! n = Some o
                     ∧ op_regions o !! r = Some inner ∧ returnAt p' j inner
    end.

(** The step of the fold in [mostNestedReturn]. *)
Definition deeper (best : option position) (pos : position) : option position :=
  match best with
  | None => Some pos
  | Some b => if decide (nested b < nested pos) then Some pos else best
  end.

End Weight.

(** ** Index expressions *)

(** The parse tree of one axis of an index: a single position [pos], or a
    range [posLowerIncl : posUpperExcl] whose bounds may be missing; the
    expressions are given by the values they lower to. *)
Inductive RangeContext : Set :=
| RangePos (pos : value)
| RangeBounds (posLowerIncl posUpperExcl : option value).

(** [visitRange] *)
Definition visitRange (ctx : RangeContext) : bool * axSpec :=
  match ctx with
  | RangePos pos => (true, AxValue pos)
  | RangeBounds posLowerIncl posUpperExcl =>
      (bool_decide (posLowerIncl ≠ None) || bool_decide (posUpperExcl ≠ None),
       AxRange posLowerIncl posUpperExcl)
  end.

(** [visitIndexing]; an axis that is left out gives
    [(false, antlrcpp::Any(nullptr))]. *)
Definition visitIndexing (loc : location) (rows cols : option RangeContext) : indexing :=
  {| idx_loc := loc;
     idx_rows := from_option visitRange (false, AxOther) rows;
     idx_cols := from_option visitRange (false, AxOther) cols |}.

Section RightIndexing.
Variable retValWithInferredType : value → value.

(** [visitRightIdxExtractExpr], for the value [obj] of the indexed
    expression and the index as [visit(ctx->idx)] returns it. *)
Definition visitRightIdxExtractExpr (obj : value) (idx : indexing) : result value :=
  let rows := idx_rows idx in
  let cols := idx_cols idx in
  obj ←
    (if rows.1 then
       applyRightIndexing retValWithInferredType Row (idx_loc idx) obj rows.2 false
     else Ok obj);
  if cols.1 then
    applyRightIndexing retValWithInferredType Col (idx_loc idx) obj cols.2
      (isFrameType (getType obj))
  else Ok obj.
End RightIndexing.

(** An axis that is left out or is a range without bounds. *)
Definition unspecified (ctx : option RangeContext) : Prop :=
  ctx = None ∨ ctx = Some (RangeBounds None None).

(** A position that is a data object or a string. *)
Definition nonScalarPosition (spec : bool * axSpec) : Prop :=
  spec.1 = true
  ∧ ∃ axVal, spec.2 = AxValue axVal
             ∧ (hasObjType axVal = true ∨ getType axVal = StringType).

(** ** Functions applied to the elements of a matrix *)

(** The test of the search loop of [findMatchingUnaryUDF] for one
    candidate. *)
Definition unaryCandidateMatches (argType : type) (userDefinedFunc : FuncOp) : bool :=
  match func_inputs userDefinedFunc with
  | [input0] => argAndUDFParamCompatible argType input0
  | _ => false
  end.

Definition noUnaryDefinition (loc : location) (functionName : string) : exception :=
  CompilerError loc "DSLVisitor"
    ("No function definition of `" +:+ functionName +:+ "` found with matching types").

(** [findMatchingUnaryUDF] *)
Definition findMatchingUnaryUDF (m : functionsSymbolMap) (loc : location)
    (functionName : string) (argType : type) : result (option FuncOp) :=
  let range := equal_range m functionName in
  match find (unaryCandidateMatches argType) range with
  | Some userDefinedFunc => Ok (Some userDefinedFunc)
  | None =>
      match range with
      | _ :: _ => Err (noUnaryDefinition loc functionName)
      | [] => Ok None
      end
  end.

(** An argument of a call: its text ([getText()]) and what lowering it
    gives ([valueOrErrorOnVisit]). *)
Record ArgContext : Set := mkArgContext {
  arg_text : string;
  arg_lowered : result value;
}.

(** What [handleMapOpCall] hands to [builtins.build] for the built-in
    function [map]: the matrix and the function, which is passed on as the
    string constant of its symbol name. *)
Record MapCall : Set := mkMapCall {
  map_arg : value;
  map_udf : FuncOp;
}.

(** [handleMapOpCall], up to the call of [builtins.build]. *)
Definition handleMapOpCall (m : functionsSymbolMap) (loc : location) (func : string)
    (exprs : list ArgContext) : result MapCall :=
  if decide (func ≠ "map") then
    Err (CompilerError loc "DSLVisitor"
           ("called 'handleMapOpCall' for function " +:+ func +:+ " instead of 'map'"))
  else
    match exprs with
    | [expr0; expr1] =>
        argVal ← arg_lowered expr0;
        match getType argVal with
        | Matrix elementType =>
            let udfName := arg_text expr1 in
            maybeUDF ← findMatchingUnaryUDF m loc udfName elementType;
            match maybeUDF with
            | None =>
                Err (CompilerError loc "DSLVisitor"
                       ("No function definition of `" +:+ udfName +:+ "` found"))
            | Some udf => Ok {| map_arg := argVal; map_udf := udf |}
            end
        | _ =>
            Err (CompilerError loc "DSLVisitor"
                   "built-in function 'map' expects argument of type matrix as its first parameter")
        end
    | _ =>
        Err (CompilerError loc "DSLVisitor"
               ("built-in function 'map' expects exactly 2 argument(s), but got " +:+
                pretty (length exprs)))
    end.

(** ** Casts *)

(** [getColumnTypes()[0]]: the type of the first column; a frame type
    without columns is indexed out of bounds. *)
Definition firstColumnType (columnTypes : list type) : outcome type :=
  match columnTypes with
  | ty :: _ => Finished ty
  | [] => Undefined
  end.

(** [utils.matrixOf] *)
Definition matrixOf (vt : type) : type := Matrix vt.

Section CastExpr.
(** [utils.getValueTypeByName], which is declared with the parser
    utilities. *)
Variable getValueTypeByName : string → outcome type.

Definition frameColumnTypesUnsupported (loc : location) : exception :=
  CompilerError loc "DSLVisitor"
    "casting to a frame with particular column types is not supported yet".

(** The result type [resType] that [visitCastExpr] gives the [CastOp], from
    the data type and the value type named in the cast (each may be
    missing) and the type of the lowered argument. *)
Definition castResultType (loc : location) (DATA_TYPE VALUE_TYPE : option string)
    (argType : type) : outcome type :=
  match DATA_TYPE with
  | Some dtStr =>
      if decide (dtStr = "matrix") then
        vt ←
          match VALUE_TYPE with
          | Some name => getValueTypeByName name
          | None =>
              vt ← match argType with
                   | Frame columnTypes => firstColumnType columnTypes
                   | _ => Finished argType
                   end;
              Finished (match vt with Matrix elementType => elementType | _ => vt end)
          end;
        Finished (matrixOf vt)
      else if decide (dtStr = "frame") then
        match VALUE_TYPE with
        | Some _ => Thrown (frameColumnTypesUnsupported loc)
        | None =>
            colTypes ←
              match argType with
              | Matrix elementType => Finished [elementType]
              | Frame columnTypes => ty ← firstColumnType columnTypes; Finished [ty]
              | _ => Finished [argType]
              end;
            Finished (Frame colTypes)
        end
      else if decide (dtStr = "scalar") then
        match VALUE_TYPE with
        | Some name => getValueTypeByName name
        | None =>
            match argType with
            | Matrix elementType => Finished elementType
            | Frame columnTypes => firstColumnType columnTypes
            | _ => Finished argType
            end
        end
      else
        Thrown (CompilerError loc "DSLVisitor"
                  ("unsupported data type in cast expression: " +:+ dtStr))
  | None =>
      match VALUE_TYPE with
      | Some name =>
          vt ← getValueTypeByName name;
          match argType with
          | Matrix _ => Finished (matrixOf vt)
          | Frame _ => Thrown (frameColumnTypesUnsupported loc)
          | Unknown => Finished unknownType
          | _ => Finished vt
          end
      | None =>
          Thrown (CompilerError loc "DSLVisitor"
                    "casting requires the specification of the target data and/or value type")
      end
  end.

(** [visitCastExpr], for an argument that lowers to [arg]. *)
Definition visitCastExpr (loc : location) (DATA_TYPE VALUE_TYPE : option string)
    (arg : value) : outcome value :=
  resType ← castResultType loc DATA_TYPE VALUE_TYPE (getType arg);
  Finished (CastOp resType arg).
End CastExpr.

(** ** Literals *)

(** The characters the visitor and the C++ library tell apart. *)
Definition isDigit (c : ascii) : bool :=
  (48 <=? nat_of_ascii c)%nat && (nat_of_ascii c <=? 57)%nat.

Definition digitValue (c : ascii) : Z := Z.of_nat (nat_of_ascii c) - 48.

(** [std::isspace] in the C locale. *)
Definition isSpace (c : ascii) : bool :=
  bool_decide (nat_of_ascii c = 32%nat)
  || (9 <=? nat_of_ascii c)%nat && (nat_of_ascii c <=? 13)%nat.

Definition underscore : ascii := ascii_of_nat 95.
Definition apostrophe : ascii := ascii_of_nat 39.
Definition backslash : ascii := ascii_of_nat 92.
Definition doubleQuote : ascii := ascii_of_nat 34.

(** [std::regex_replace(litStr, std::regex("_|'"), "")]: the digit
    separators are taken out. *)
Fixpoint removeSeparators (litStr : string) : string :=
  match litStr with
  | EmptyString => EmptyString
  | String c rest =>
      if bool_decide (c = underscore) || bool_decide (c = apostrophe)
      then removeSeparators rest
      else String c (removeSeparators rest)
  end.

(** What the conversions of the C++ library give: a number, or one of the
    two exceptions of [std::stoull] and its like, which are not caught by
    the visitor; [LitUndefined] is [back()] of an empty string. *)
Inductive converted (A : Type) : Type :=
| Converted (a : A)
| InvalidArgument
| OutOfRange
| LitUndefined.
Arguments Converted {A} a.
Arguments InvalidArgument {A}.
Arguments OutOfRange {A}.
Arguments LitUndefined {A}.

#[global] Instance converted_bind : MBind converted := λ A B f m,
  match m with
  | Converted a => f a
  | InvalidArgument => InvalidArgument
  | OutOfRange => OutOfRange
  | LitUndefined => LitUndefined
  end.

(** The digits at the start of a string, read in base 10 onto [acc], and
    how many there are. *)
Fixpoint readDigits (acc : Z) (n : nat) (s : string) : Z * nat :=
  match s with
  | String c rest => if isDigit c then readDigits (10 * acc + digitValue c) (S n) rest
                     else (acc, n)
  | EmptyString => (acc, n)
  end.

Fixpoint skipSpaces (s : string) : string :=
  match s with
  | String c rest => if isSpace c then skipSpaces rest else s
  | EmptyString => s
  end.

(** The subject sequence of [strtoull]/[strtoll] in base 10: white space,
    an optional sign, digits; what follows the digits is left alone.  The
    result says whether there was a minus and gives the digits' number, or
    is [None] without a digit. *)
Definition subjectSequence (s : string) : option (bool * Z) :=
  let s := skipSpaces s in
  let '(negative, s) :=
    match s with
    | String c rest =>
        if bool_decide (c = "-"%char) then (true, rest)
        else if bool_decide (c = "+"%char) then (false, rest)
        else (false, s)
    | EmptyString => (false, s)
    end in
  let '(magnitude, n) := readDigits 0 0 s in
  if decide (n = 0%nat) then None else Some (negative, magnitude).

(** [std::stoull]; [unsigned long long] has 64 bits.  A minus negates in
    the unsigned type. *)
Definition stoull (s : string) : converted Z :=
  match subjectSequence s with
  | None => InvalidArgument
  | Some (negative, magnitude) =>
      if decide (2 ^ 64 ≤ magnitude) then OutOfRange
      else Converted (if negative then wrap_u64 (- magnitude) else magnitude)
  end.

(** [std::stoll]; [long long] has 64 bits. *)
Definition stoll (s : string) : converted Z :=
  match subjectSequence s with
  | None => InvalidArgument
  | Some (negative, magnitude) =>
      let v := if negative then - magnitude else magnitude in
      if decide (- 2 ^ 63 ≤ v < 2 ^ 63) then Converted v else OutOfRange
  end.

(** [std::stoul] and [std::stol] where [long] has 64 bits, as on the
    64-bit Linux the system is built for. *)
Definition stoul (s : string) : converted Z := stoull s.
Definition stol (s : string) : converted Z := stoll s.

(** The C++ type of the number handed to the builder of the [ConstantOp],
    which chooses the type of the constant by it. *)
Inductive cppType : Set :=
| cpp_unsigned_long | cpp_uint64_t | cpp_long | cpp_size_t | cpp_int64_t.

Record constant : Set := mkConstant {
  const_type : cppType;
  const_value : Z;
}.

Fixpoint back (s : string) : option ascii :=
  match s with
  | EmptyString => None
  | String c EmptyString => Some c
  | String _ rest => back rest
  end.

(** [litStr.length() > 2 && litStr.substr(litStr.length() - 3) == "ull"] *)
Definition endsWithUll (litStr : string) : bool :=
  bool_decide (2 < String.length litStr)%nat
  && bool_decide (string_of_list_ascii
                    (drop (String.length litStr - 3) (list_ascii_of_string litStr))
                  = "ull"%string).

(** [visitLiteral] for an [INT_LITERAL] with the given text. *)
Definition visitIntLiteral (text : string) : converted constant :=
  let litStr := removeSeparators text in
  match back litStr with
  | None => LitUndefined
  | Some last =>
      if bool_decide (last = "u"%char) then
        v ← stoul litStr; Converted (mkConstant cpp_unsigned_long v)
      else if endsWithUll litStr then
        v ← stoull litStr; Converted (mkConstant cpp_uint64_t v)
      else if bool_decide (last = "l"%char) then
        v ← stol litStr; Converted (mkConstant cpp_long v)
      else if bool_decide (last = "z"%char) then
        v ← stoll litStr; Converted (mkConstant cpp_size_t (wrap_u64 v))
      else
        u ← stoull litStr;
        if decide (u = 2 ^ 63) then Converted (mkConstant cpp_int64_t (- 2 ^ 63))
        else v ← stoll litStr; Converted (mkConstant cpp_int64_t v)
  end.

(** The number a string of digits stands for. *)
Definition decimalValue (digits : string) : Z := (readDigits 0 0 digits).1.

Definition allDigits (s : string) : Prop :=
  Forall (λ c, isDigit c = true) (list_ascii_of_string s).

(** [std::regex_replace] for the pattern of a backslash and the character
    [x], with one character as the replacement: the matches are found from
    the left and do not overlap. *)
Fixpoint replaceEscape (x replacement : ascii) (val : string) : string :=
  match val with
  | EmptyString => EmptyString
  | String c rest =>
      match rest with
      | String d rest' =>
          if bool_decide (c = backslash) && bool_decide (d = x)
          then String replacement (replaceEscape x replacement rest')
          else String c (replaceEscape x replacement rest)
      | EmptyString => String c EmptyString
      end
  end.

(** "Replace escape sequences", in the order of the visitor. *)
Definition replaceEscapeSequences (val : string) : string :=
  let val := replaceEscape "b" (ascii_of_nat 8) val in
  let val := replaceEscape "f" (ascii_of_nat 12) val in
  let val := replaceEscape "n" (ascii_of_nat 10) val in
  let val := replaceEscape "r" (ascii_of_nat 13) val in
  let val := replaceEscape "t" (ascii_of_nat 9) val in
  let val := replaceEscape doubleQuote doubleQuote val in
  replaceEscape backslash backslash val.

(** [val.substr(pos, count)]: [std::out_of_range] for a position behind
    the end, and no more characters than there are. *)
Definition substr (pos count : nat) (val : string) : converted string :=
  if decide (String.length val < pos)%nat then OutOfRange
  else Converted (string_of_list_ascii (take count (drop pos (list_ascii_of_string val)))).

(** [visitLiteral] for a [STRING_LITERAL] with the given text; the
    subtraction [val.size() - 2] is one of [size_t]. *)
Definition visitStringLiteral (text : string) : converted string :=
  let size := String.length text in
  let count :=
    if decide (2 ≤ size)%nat then (size - 2)%nat
    else Z.to_nat (2 ^ 64 - 2 + Z.of_nat size) in
  val ← substr 1 count text;
  Converted (replaceEscapeSequences val).

(** A text without a backslash. *)
Definition noBackslash (s : string) : Prop := backslash ∉ list_ascii_of_string s.

(** The text of a literal with the quotation marks around it. *)
Definition quoted (body : string) : string :=
  String doubleQuote (body +:+ String doubleQuote EmptyString).

Section FrameLiterals.
Local Open Scope nat_scope.

(** ** Frame literals *)

(** [utils.strType] *)
Definition strType : type := StringType.

(** [visitFrameRow]: the values of the elements of a row and their
    types; the elements are given by the values they lower to. *)
Definition visitFrameRow (exprs : list value) : list value * list type :=
  (exprs, getType <$> exprs).

(** [vec[j].emplace_back(x)] *)
Definition emplaceBackAt {A : Type} (j : nat) (x : A) (vec : list (list A))
    : list (list A) :=
  alter (λ column, column ++ [x]) j vec.

(** The loop over [j] that places the values of a row in their columns;
    the row has [cols] elements. *)
Definition placeRow (cols : nat) (rowVectors : list value * list type)
    (vecs : list (list value) * list (list type))
    : list (list value) * list (list type) :=
  foldl (λ vecs j,
           (from_option (λ v, emplaceBackAt j v vecs.1) vecs.1 (rowVectors.1 !! j),
            from_option (λ t, emplaceBackAt j t vecs.2) vecs.2 (rowVectors.2 !! j)))
        vecs (seq 0 cols).

(** "build row vector and place values in the corresponding column" *)
Fixpoint placeRows (loc : location) (cols : nat) (rows : list (list value))
    (vecs : list (list value) * list (list type))
    : result (list (list value) * list (list type)) :=
  match rows with
  | [] => Ok vecs
  | row :: rows' =>
      let rowVectors := visitFrameRow row in
      if decide (length rowVectors.1 ≠ cols) then
        Err (CompilerError loc "DSLVisitor"
               "size of row does not match the amount of labels")
      else placeRows loc cols rows' (placeRow cols rowVectors vecs)
  end.

(** [visitRowMajorFrameLiteralExpr] up to the column vectors
    [valuesVec] and [valueTypesVec], from which the columns of the frame are
    built. *)
Definition rowMajorColumnVectors (loc : location) (labels : list value)
    (rows : list (list value)) : result (list (list value) * list (list type)) :=
  let labelVectors := visitFrameRow labels in
  let cols := length labelVectors.1 in
  if bool_decide (cols = 0) || bool_decide (length rows = 0) then
    Err (CompilerError loc "DSLVisitor" "empty frame literals are not supported")
  else if negb (forallb (λ labelType, bool_decide (labelType = strType)) labelVectors.2) then
    Err (CompilerError loc "DSLVisitor" "labels for frame literals must be strings")
  else placeRows loc cols rows (replicate cols [], replicate cols []).

(** The [CreateFrameOp] of a frame literal: the type of the frame, the
    column matrices and the labels. *)
Record CreateFrameOp : Set := mkCreateFrameOp {
  frame_type : type;
  frame_cols : list value;
  frame_labels : list value;
}.

(** The loop of [visitColMajorFrameLiteralExpr] over the labels and the
    column matrices, which are as many. *)
Fixpoint frameColumns (loc : location) (labels cols : list value)
    : result (list value * list value * list type) :=
  match labels, cols with
  | label :: labels', mat :: cols' =>
      if negb (bool_decide (getType label = strType)) then
        Err (CompilerError loc "DSLVisitor" "labels for frame literals must be strings")
      else
        match getType mat with
        | Matrix elementType =>
            '(parsedLabels, columnMatrices, columnMatElemType) ←
              frameColumns loc labels' cols';
            Ok (label :: parsedLabels, mat :: columnMatrices,
                elementType :: columnMatElemType)
        | _ =>
            Err (CompilerError loc "DSLVisitor"
                   "columns for frame literals must be matrices")
        end
  | _, _ => Ok ([], [], [])
  end.

(** [visitColMajorFrameLiteralExpr] *)
Definition visitColMajorFrameLiteralExpr (loc : location) (labels cols : list value)
    : result CreateFrameOp :=
  if decide (length labels ≠ length cols) then
    Err (CompilerError loc "DSLVisitor"
           "frame literals must have an equal number of column labels and column matrices")
  else
    '(parsedLabels, columnMatrices, columnMatElemType) ← frameColumns loc labels cols;
    Ok {| frame_type := Frame columnMatElemType;
          frame_cols := columnMatrices;
          frame_labels := parsedLabels |}.

(** The columns of rows that have [cols] elements each: column [j] lists
    the elements at [j] of the rows, in the order of the rows. *)
Definition columnsOf {A : Type} (cols : nat) (rows : list (list A)) : list (list A) :=
  (λ j, omap (λ row : list A, row !! j) rows) <$> seq 0 cols.

(** The types of the values of column vectors. *)
Definition typesOf (valuesVec : list (list value)) : list (list type) :=
  (λ column : list value, getType <$> column) <$> valuesVec.

Definition snoc {A : Type} (column : list A) (x : A) : list A := column ++ [x].

End FrameLiterals.

Section FunctionDefinitions.
Local Open Scope nat_scope.

(** ** Function definitions *)

(** The loop of [visitFunctionStatement] over the arguments of the
    function, which fills [funcArgNames] and [funcArgTypes]. *)
Fixpoint collectFunctionArguments (loc : location)
    (functionArguments : list (string * type))
    (funcArgNames : list string) (funcArgTypes : list type)
    : result (list string * list type) :=
  match functionArguments with
  | [] => Ok (funcArgNames, funcArgTypes)
  | arg :: functionArguments' =>
      if bool_decide (arg.1 ∈ funcArgNames) then
        Err (CompilerError loc "DSLVisitor"
               ("Function argument name `" +:+ arg.1 +:+ "` is used twice."))
      else
        collectFunctionArguments loc functionArguments'
          (funcArgNames ++ [arg.1]) (funcArgTypes ++ [arg.2])
  end.

Section FunctionTypes.
Variable getValueTypeByName : string → outcome type.
Variable printType : type → string.

(** [visitFuncTypeDef]: the data type and the value type of a type that is
    written out, or the scalar type. *)
Definition visitFuncTypeDef (loc : location) (dataTy elTy scalarTy : option string)
    : outcome type :=
  match dataTy with
  | Some dtStr =>
      if decide (dtStr = "matrix") then
        vt ← match elTy with
             | Some name => getValueTypeByName name
             | None => Finished unknownType
             end;
        Finished (matrixOf vt)
      else
        Thrown (CompilerError loc "DSLVisitor"
                  ("unsupported data type for function argument: " +:+ dtStr))
  | None =>
      match scalarTy with
      | Some name => getValueTypeByName name
      | None => Finished unknownType
      end
  end.

(** [visitFunctionArg]; [ty] is what [visitFuncTypeDef] gives for the type
    of the argument when one is written. *)
Definition visitFunctionArg (var : string) (ty : option (outcome type))
    : outcome (string * type) :=
  ty ← default (Finished unknownType) ty;
  Finished (var, ty).

(** The loop over the return types that are declared, from index [i]
    on. *)
Fixpoint checkReturnTypesFrom (terminatorLoc : location) (functionName : string)
    (i : nat) (returnOpTypes returnTypes : list type) : result unit :=
  match returnOpTypes, returnTypes with
  | returnOpType :: returnOpTypes', returnType :: returnTypes' =>
      if negb (equalUnknownAware returnOpType returnType) then
        Err (CompilerError terminatorLoc "DSLVisitor"
               ("function `" +:+ functionName +:+
                "` returns a different type for return value #" +:+ pretty i +:+
                " than specified in the definition (" +:+ printType returnOpType +:+
                " vs. " +:+ printType returnType +:+ ")"))
      else
        checkReturnTypesFrom terminatorLoc functionName (S i) returnOpTypes' returnTypes'
  | _, _ => Ok ()
  end.

(** The end of [visitFunctionStatement]: the result types of the
    function, from the types [returnOpTypes] of the operands of the
    terminator of its block and the return types of the definition when it
    declares them. *)
Definition functionResultTypes (terminatorLoc : location) (functionName : string)
    (retTys : option (list type)) (returnOpTypes : list type) : result (list type) :=
  match retTys with
  | None => Ok returnOpTypes
  | Some returnTypes =>
      if decide (length returnOpTypes ≠ length returnTypes) then
        Err (CompilerError terminatorLoc "DSLVisitor"
               ("function `" +:+ functionName +:+
                "` returns a different number of values than specified in the definition (" +:+
                pretty (length returnOpTypes) +:+ " vs. " +:+
                pretty (length returnTypes) +:+ ")"))
      else
        _ ← checkReturnTypesFrom terminatorLoc functionName 0 returnOpTypes returnTypes;
        Ok returnTypes
  end.
End FunctionTypes.

End FunctionDefinitions.

Section Assignments.
Local Open Scope nat_scope.

(** ** Assignment statements *)

(** What lowering the right-hand side of an assignment gives: one value,
    the results of an operation with several results
    ([mlir::ResultRange]), or something else (an operation without a
    result, nothing). *)
Inductive rhsAny : Set :=
| RhsValue (v : value)
| RhsResultRange (results : list value)
| RhsOther.

Section AssignStatement.
Variable retValWithInferredType : value → value.
(** [utils.valueOrError], which is declared with the parser utilities. *)
Variable valueOrError : location → rhsAny → result value.

(** The loop of [visitAssignStatement] over the variables, from the
    variable at index [i] on; [indexing] lists the index expressions of the
    statement, [ctx->indexing(i)] being the one at [i] or null. *)
Fixpoint assignParts (loc : location) (i : nat) (identifiers : list string)
    (indexings : list indexing) (rhsAsRR : list value)
    (symbolTable : ScopedSymbolTable) : result ScopedSymbolTable :=
  match identifiers, rhsAsRR with
  | var :: identifiers', val :: rhsAsRR' =>
      symbolTable ←
        handleAssignmentPart retValWithInferredType loc var (indexings !! i)
          symbolTable val;
      assignParts loc (S i) identifiers' indexings rhsAsRR' symbolTable
  | _, _ => Ok symbolTable
  end.

Definition multipleResultsToOneVariable (loc : location) : exception :=
  CompilerError loc "DSLVisitor" "trying to assign multiple results to a single variable".

Definition oneValueForEachVariable (loc : location) : exception :=
  CompilerError loc "DSLVisitor"
    "right-hand side expression of assignment to multiple variables must return multiple values, one for each variable on the left-hand side".

(** [visitAssignStatement], for the right-hand side as it has been
    lowered; [loc] is the location of the statement and [exprLoc] that of
    the expression. *)
Definition visitAssignStatement (loc exprLoc : location) (identifiers : list string)
    (indexings : list indexing) (rhs : rhsAny) (symbolTable : ScopedSymbolTable)
    : result ScopedSymbolTable :=
  match identifiers with
  | [var] =>
      (* numVars == 1 *)
      match rhs with
      | RhsResultRange _ => Err (multipleResultsToOneVariable loc)
      | _ =>
          val ← valueOrError exprLoc rhs;
          handleAssignmentPart retValWithInferredType loc var (indexings !! 0)
            symbolTable val
      end
  | _ :: _ :: _ =>
      (* numVars > 1 *)
      match rhs with
      | RhsResultRange rhsAsRR =>
          if decide (length rhsAsRR = length identifiers)
          then assignParts loc 0 identifiers indexings rhsAsRR symbolTable
          else Err (oneValueForEachVariable loc)
      | _ => Err (oneValueForEachVariable loc)
      end
  | [] =>
      Err (CompilerError loc "DSLVisitor"
             "the DaphneDSL grammar should prevent zero variables on the left-hand side of an assignment")
  end.
End AssignStatement.

(** A name that is bound read-only. *)
Definition boundReadOnly (symbolTable : ScopedSymbolTable) (var : string) : Prop :=
  ∃ info, st_get symbolTable var = Some info ∧ isReadOnly info = true.

(** A name that is bound and may be assigned. *)
Definition boundWritable (symbolTable : ScopedSymbolTable) (var : string) : Prop :=
  ∃ info, st_get symbolTable var = Some info ∧ isReadOnly info = false.

(** [visitIdentifierExpr]: the name is put together from the identifiers
    with dots between them and looked up; the exception of the symbol table
    for a name that is not bound is turned into a compiler error. *)
Definition visitIdentifierExpr (loc : location) (identifiers : list string)
    (symbolTable : ScopedSymbolTable) : result value :=
  let var := joinWith "." identifiers in
  match st_get symbolTable var with
  | Some info => Ok (si_value info)
  | None =>
      Err (CompilerError loc "DSLVisitor"
             ("variable `" +:+ var +:+ "` referenced before assignment"))
  end.

End Assignments.

(** ** Calls of user-defined functions *)

Section CallExpr.
Local Open Scope nat_scope.
Variable printType : type → string.

(** The results of the [GenericCallOp] of a call, one for each result
    type of the function. *)
Definition callResults (loc : location) (udf : FuncOp) : list value :=
  imap (λ i ty, OpResult loc i ty) (func_results udf).

(** [visitCallExpr] for a function other than [map], from the search for
    a user-defined function to the end of the branch that calls one:
    [None] when no function of the name is registered and the call goes on
    to the built-in functions. *)
Definition visitCallExpr_udf (m : functionsSymbolMap) (loc : location) (func : string)
    (hasKernelHint : bool) (args_vec : list value) : result (option rhsAny) :=
  maybeUDF ← findMatchingUDF printType m func args_vec loc;
  match maybeUDF with
  | Some udf =>
      if hasKernelHint then
        Err (CompilerError loc "DSLVisitor"
               "kernel hints are not supported for calls to user-defined functions")
      else
        let co := callResults loc udf in
        if decide (1 < length (func_results udf)) then Ok (Some (RhsResultRange co))
        else
          match co with
          | result0 :: _ => Ok (Some (RhsValue result0))
          | [] => Ok (Some RhsOther)
          end
  | None => Ok None
  end.
End CallExpr.

(** ** Registering functions *)

(** The order of the entries of [functionsSymbolMap]: by name, in the order
    of [std::string]. *)
Definition name_le (a b : string * FuncOp) : Prop := string_le a.1 b.1.

#[global] Instance name_le_dec : RelDecision name_le.
Proof. intros a b. unfold name_le. apply _. Defined.

(** What a [std::multimap] is: its entries are in the order of the names. *)
Definition sortedByName (m : functionsSymbolMap) : Prop := StronglySorted name_le m.

(** [functionsSymbolMap.insert(e)]: the entry goes behind the entries whose
    names are not greater, so behind the entries of the same name. *)
Fixpoint multimapInsert (m : functionsSymbolMap) (e : string * FuncOp)
    : functionsSymbolMap :=
  match m with
  | [] => [e]
  | x :: m' => if decide (name_le x e) then x :: multimapInsert m' e else e :: m
  end.

(** [createUserDefinedFuncOp]; [functionSymbolName] is what
    [utils.getUniqueFunctionSymbol(functionName)] gives. *)
Definition createUserDefinedFuncOp (functionSymbolName : string)
    (inputs results : list type) (functionName : string) (m : functionsSymbolMap)
    : FuncOp * functionsSymbolMap :=
  let functionOperation := mkFuncOp functionSymbolName inputs results in
  (functionOperation, multimapInsert m (functionName, functionOperation)).

(** [visitFunctionStatement] up to the visit of the body: the function is
    created, and registered, before its body is lowered when its return
    types are declared ([retTys]), and after it otherwise.  The result is
    [functionOperation], null in the second case, and the functions that
    the body can call. *)
Definition functionsAtBody (functionSymbolName functionName : string)
    (funcArgTypes : list type) (retTys : option (list type)) (m : functionsSymbolMap)
    : option FuncOp * functionsSymbolMap :=
  match retTys with
  | Some returnTypes =>
      let created :=
        createUserDefinedFuncOp functionSymbolName funcArgTypes returnTypes functionName m in
      (Some created.1, created.2)
  | None => (None, m)
  end.

(** [s.find(c) != std::string::npos] *)
Fixpoint contains (c : ascii) (s : string) : bool :=
  match s with
  | EmptyString => false
  | String c' s' => if decide (c' = c) then true else contains c s'
  end.

Definition dot : ascii := ascii_of_nat 46.

(** The end of [visitImportStatement] for one imported file:
    [imported] is [functionsSymbolMap] after the visit of the imported
    script, so the functions of that script, and those whose names have no
    dot are added to [origFuncMap], the functions of the importing script,
    under [finalPrefix]. *)
Definition importFunctions (finalPrefix : string)
    (origFuncMap imported : functionsSymbolMap) : functionsSymbolMap :=
  foldl (λ origFuncMap funcSymbol,
           if contains dot funcSymbol.1 then origFuncMap
           else multimapInsert origFuncMap (finalPrefix +:+ funcSymbol.1, funcSymbol.2))
        origFuncMap imported.


(* ===================================================================== *)
(** * Part II: properties                                                 *)
(* ===================================================================== *)

(** ** Bounds of the counted for-loop *)

Lemma wrap_s64_small (z : Z) : - 2 ^ 63 ≤ z < 2 ^ 63 → wrap_s64 z = z.
Proof.
  intros H. unfold wrap_s64.
  rewrite Z.mod_small by lia. lia.
Qed.

Ltac unwrap :=
  repeat match goal with
         | |- context [wrap_s64 ?z] => rewrite (wrap_s64_small z) by lia
         end.

Lemma castIf_same (t : type) (v : value) : getType v = t → castIf t v = v.
Proof. intros H. unfold castIf. by rewrite decide_True. Qed.

Lemma castIf_other (t : type) (v : value) : getType v ≠ t → castIf t v = CastOp t v.
Proof. intros H. unfold castIf. by rewrite decide_False. Qed.

Lemma getType_castIf (t : type) (v : value) : getType (castIf t v) = t.
Proof. unfold castIf. by case_decide. Qed.

(** The step derived for a loop without one: [-1 + 2 * (to >= from)]. *)
Definition derivedStep (from to : value) : value :=
  EwAddOp si64 (ConstantOp si64 (-1))
    (EwMulOp si64 (ConstantOp si64 2) (EwGeOp si64 to from)).

Lemma eval_derivedStep (rho beta : nat → Z) (from to : value) (x y : Z) :
  eval rho beta from = Some x →
  eval rho beta to = Some y →
  eval rho beta (derivedStep from to) = Some (if decide (x ≤ y) then 1 else -1).
Proof.
  intros Hx Hy. unfold derivedStep. cbn. rewrite Hx, Hy. cbn.
  case_decide; reflexivity.
Qed.

Lemma visitForStatement_bounds_no_step (from to : value) :
  let f := castIf si64 from in
  let t := castIf si64 to in
  let direction := derivedStep f t in
  visitForStatement_bounds from to None =
    {| for_direction := direction;
       for_lowerBound := CastOp idxType (EwMulOp si64 f direction);
       for_upperBound := CastOp idxType (EwMulOp si64 (EwAddOp si64 t direction) direction);
       for_step := CastOp idxType (EwMulOp si64 direction direction);
       for_var := EwMulOp si64 (CastOp si64 forInductionVar) direction |}.
Proof. reflexivity. Qed.

Lemma scfFor_ivs_unit (lb ub : Z) :
  scfFor_ivs lb ub 1 = (λ k : nat, lb + Z.of_nat k) <$> seq 0 (Z.to_nat (ub - lb)).
Proof.
  unfold scfFor_ivs, scfFor_trips. rewrite decide_True by lia.
  replace (ub - lb + 1 - 1) with (ub - lb) by lia. rewrite Z.div_1_r.
  apply list_fmap_ext. intros _ k _. lia.
Qed.

(** The values of the loop variable of a loop without a step, for bounds
    whose arithmetic does not overflow: from [from] to [to], upwards or
    downwards, both included. *)
Lemma forIterations_no_step (rho : nat → Z) (from to : value) (x y : Z) :
  (∀ beta, eval rho beta (castIf si64 from) = Some x) →
  (∀ beta, eval rho beta (castIf si64 to) = Some y) →
  - 2 ^ 62 ≤ x ≤ 2 ^ 62 → - 2 ^ 62 ≤ y ≤ 2 ^ 62 →
  forIterations rho (visitForStatement_bounds from to None) =
    Some (if decide (x ≤ y)
          then (λ k : nat, x + Z.of_nat k) <$> seq 0 (Z.to_nat (y - x + 1))
          else (λ k : nat, x - Z.of_nat k) <$> seq 0 (Z.to_nat (x - y + 1))).
Proof.
  intros Hx Hy Bx By.
  rewrite visitForStatement_bounds_no_step. cbv zeta.
  set (f := castIf si64 from) in *. set (t := castIf si64 to) in *.
  assert (Hd : ∀ beta, eval rho beta (derivedStep f t)
                       = Some (if decide (x ≤ y) then 1 else -1)).
  { intros beta. by apply eval_derivedStep. }
  unfold forIterations. cbn [for_lowerBound for_upperBound for_step for_var eval].
  rewrite !Hx, !Hy, !Hd. cbn [fmap option_fmap option_map mbind option_bind wrapTo idxType si64].
  case_decide as Hle.
  - rewrite !Z.mul_1_r. unwrap.
    rewrite scfFor_ivs_unit. replace (y + 1 - x) with (y - x + 1) by lia.
    apply mapM_Some. apply Forall2_fmap_r, Forall2_fmap_l, Forall_Forall2_diag.
    apply Forall_forall. intros k Hk%elem_of_seq.
    cbn -[derivedStep wrap_s64]. rewrite Hd. cbn -[wrap_s64].
    rewrite Z.mul_1_r. by unwrap.
  - replace (x * -1) with (- x) by lia.
    replace (-1 * -1) with 1 by lia. unwrap.
    replace ((y + -1) * -1) with (1 - y) by lia. unwrap.
    rewrite scfFor_ivs_unit. replace (1 - y - - x) with (x - y + 1) by lia.
    apply mapM_Some. apply Forall2_fmap_r, Forall2_fmap_l, Forall_Forall2_diag.
    apply Forall_forall. intros k Hk%elem_of_seq.
    cbn -[derivedStep wrap_s64]. rewrite Hd. cbn -[wrap_s64]. unwrap.
    replace ((- x + Z.of_nat k) * -1) with (x - Z.of_nat k) by lia.
    by unwrap.
Qed.

(** C1: for a counted for-loop without a step, the step is
    [-1 + 2 * (to >= from)], which is 1 when [to >= from] (also when they are
    equal) and -1 otherwise; the direction is the step; the upper bound is
    [(to + direction) * direction], the lower bound [from * direction], the
    step [step * direction], and the loop variable is the induction variable
    times the direction.  Hence the variable runs from [from] to [to], both
    included, upwards or downwards: 5,4,3,2,1 for [5:1], 1,2,3,4,5 for
    [1:5], and 3 alone for [3:3]. *)
Theorem for_loop_without_step (from to : value) :
  let op := visitForStatement_bounds from to None in
  let f := castIf si64 from in
  let t := castIf si64 to in
  let step :=
    EwAddOp si64 (ConstantOp si64 (-1))
      (EwMulOp si64 (ConstantOp si64 2) (EwGeOp si64 t f)) in
  for_direction op = step
  ∧ for_lowerBound op = castIf idxType (EwMulOp si64 f step)
  ∧ for_upperBound op = castIf idxType (EwMulOp si64 (EwAddOp si64 t step) step)
  ∧ for_step op = castIf idxType (EwMulOp si64 step step)
  ∧ for_var op = EwMulOp si64 (castIf si64 forInductionVar) step
  ∧ (∀ rho beta x y,
       eval rho beta f = Some x → eval rho beta t = Some y →
       eval rho beta step = Some (if decide (x ≤ y) then 1 else -1))
  ∧ (∀ rho x y,
       (∀ beta, eval rho beta f = Some x) → (∀ beta, eval rho beta t = Some y) →
       - 2 ^ 62 ≤ x ≤ 2 ^ 62 → - 2 ^ 62 ≤ y ≤ 2 ^ 62 →
       forIterations rho op =
         Some (if decide (x ≤ y)
               then (λ k : nat, x + Z.of_nat k) <$> seq 0 (Z.to_nat (y - x + 1))
               else (λ k : nat, x - Z.of_nat k) <$> seq 0 (Z.to_nat (x - y + 1))))
  ∧ forIterations (λ _, 0)
      (visitForStatement_bounds (intLiteral 5) (intLiteral 1) None)
    = Some [5; 4; 3; 2; 1]
  ∧ forIterations (λ _, 0)
      (visitForStatement_bounds (intLiteral 1) (intLiteral 5) None)
    = Some [1; 2; 3; 4; 5]
  ∧ forIterations (λ _, 0)
      (visitForStatement_bounds (intLiteral 3) (intLiteral 3) None)
    = Some [3].
Proof.
  cbv zeta. repeat split.
  - intros rho beta x y Hx Hy. by apply (eval_derivedStep rho beta).
  - intros rho x y Hx Hy Bx By. by apply forIterations_no_step.
Qed.

(** ** Bounds of the parallel for-loop *)

(** C4, as stated, fails: for [parfor (i in 1:5)] the upper bound handed to
    the [ParForOp] is the literal 5 itself; it is no sum [to + direction],
    and it evaluates to 5, not to 6, while the counted loop over the same
    range gets the upper bound 6. *)
Lemma parfor_upper_bound_not_adjusted :
  let op := visitParForStatement_bounds (intLiteral 1) (intLiteral 5) None in
  (¬ ∃ direction, parfor_to op = EwAddOp si64 (intLiteral 5) direction)
  ∧ eval (λ _, 0) (λ _, 0) (parfor_to op) = Some 5
  ∧ eval (λ _, 0) (λ _, 0)
      (for_upperBound (visitForStatement_bounds (intLiteral 1) (intLiteral 5) None))
    = Some 6.
Proof.
  cbv zeta. split; [|split].
  - intros [direction H]. discriminate H.
  - reflexivity.
  - vm_compute. reflexivity.
Qed.

(** C4, amended: [visitParForStatement] casts [from] and [to] to signed
    64-bit integers and hands them to the [ParForOp] as they are, with
    neither [to + direction] nor a multiplication by a direction; a step that
    is given is cast likewise and a missing step is the constant 1.  So the
    operands evaluate to the values of [from] and [to] themselves and a
    missing step to 1. *)
Theorem parfor_bounds_passed_on (from to : value) (step : option value) :
  let op := visitParForStatement_bounds from to step in
  parfor_from op = castIf si64 from
  ∧ parfor_to op = castIf si64 to
  ∧ parfor_step op = from_option (castIf si64) (ConstantOp si64 1) step
  ∧ (∀ rho beta, eval rho beta (parfor_to op) = eval rho beta (castIf si64 to))
  ∧ (∀ rho beta, eval rho beta (parfor_from op) = eval rho beta (castIf si64 from))
  ∧ (step = None → ∀ rho beta, eval rho beta (parfor_step op) = Some 1).
Proof.
  cbv zeta. repeat split; try done.
  by destruct step.
Qed.

(** ** Indexing *)

Lemma wrap_s64_u64 (z : Z) : wrap_s64 (wrap_u64 z) = wrap_s64 z.
Proof.
  unfold wrap_s64, wrap_u64. by rewrite Zplus_mod_idemp_l.
Qed.

(** The upper bound [v + 1] that both kinds of indexing compute for a scalar
    position evaluates to one more than the position. *)
Lemma eval_scalar_upper (rho beta : nat → Z) (axVal : value) (x : Z) :
  eval rho beta (castSI64If axVal) = Some x →
  - 2 ^ 63 ≤ x < 2 ^ 63 - 1 →
  eval rho beta
    (castSI64If (EwAddOp (Scalar UI64) (castSI64If axVal) (ConstantOp si64 1)))
  = Some (x + 1).
Proof.
  intros Hx B. unfold castSI64If at 1. rewrite castIf_other by done.
  cbn -[wrap_s64 wrap_u64]. rewrite Hx. cbn -[wrap_s64 wrap_u64].
  rewrite wrap_s64_u64. by unwrap.
Qed.

(** C9: left indexing with a data object as position, or with a string as
    position (whether labels are allowed for the target or not), throws;
    right indexing with a scalar position [v] slices [v, v+1), and right
    indexing with a range slices between the bounds, a missing lower bound
    being 0 and a missing upper bound the size of the axis. *)
Theorem indexing_positions (retValWithInferredType : value → value)
    (ax_ : axis) (loc : location) (arg ins : value) (allowLabel : bool) :
  (∀ axVal, hasObjType axVal = true →
     applyLeftIndexing ax_ loc arg ins (AxValue axVal) allowLabel =
       Err (CompilerError loc "DSLVisitor (applyLeftIndexing)"
              "left indexing with positions as a data object is not supported (yet)"))
  ∧ (∀ axVal, getType axVal = StringType →
       applyLeftIndexing ax_ loc arg ins (AxValue axVal) allowLabel =
         Err (CompilerError loc "DSLVisitor (applyLeftIndexing)"
                (if allowLabel then "left indexing by label is not supported yet"
                 else "cannot use left indexing with label in this case")))
  ∧ (∀ axVal, hasObjType axVal = false → getType axVal ≠ StringType →
       let lower := castSI64If axVal in
       let upper :=
         castSI64If (EwAddOp (Scalar UI64) (castSI64If axVal) (ConstantOp si64 1)) in
       applyRightIndexing retValWithInferredType ax_ loc arg (AxValue axVal) allowLabel =
         Ok (retValWithInferredType (SliceAxOp ax_ unknownType arg lower upper))
       ∧ ∀ rho beta x, eval rho beta lower = Some x → - 2 ^ 63 ≤ x < 2 ^ 63 - 1 →
           eval rho beta upper = Some (x + 1))
  ∧ (∀ axLowerIncl axUpperExcl,
       applyRightIndexing retValWithInferredType ax_ loc arg
         (AxRange axLowerIncl axUpperExcl) allowLabel =
         Ok (retValWithInferredType
               (SliceAxOp ax_ unknownType arg
                  (castSI64If (default (ConstantOp si64 0) axLowerIncl))
                  (castSI64If (default (NumAxOp ax_ sizeType arg) axUpperExcl))))).
Proof.
  repeat split.
  - intros axVal H. cbn. by rewrite H.
  - intros axVal H. cbn. unfold hasObjType. rewrite H. cbn. by destruct allowLabel.
  - cbn. rewrite H. destruct (getType axVal) eqn:E; try done.
  - intros rho beta x Hx B. by apply eval_scalar_upper.
Qed.

(** ** The symbol table and assignments *)

Lemma st_has_get (st : ScopedSymbolTable) (sym : string) :
  st_has st sym = true ↔ is_Some (st_get st sym).
Proof.
  unfold st_has, st_get. induction (scopes st) as [|sc scs IH]; cbn.
  - split; [done|]. by intros [??].
  - rewrite orb_true_iff, bool_decide_eq_true, IH.
    destruct (sc !! sym) as [info|]; [|split; [intros [[??]|?]|]; by auto].
    split; eauto.
Qed.

Lemma st_get_put (st : ScopedSymbolTable) (sym : string) (info : SymbolInfo) :
  st_get (st_put sym info st) sym = Some info.
Proof. unfold st_get, st_put. cbn. by rewrite lookup_insert_eq. Qed.

Lemma st_get_put_ne (st : ScopedSymbolTable) (sym sym' : string) (info : SymbolInfo) :
  sym' ≠ sym → st_get (st_put sym' info st) sym = st_get st sym.
Proof. intros H. unfold st_get, st_put. cbn. by rewrite lookup_insert_ne. Qed.

Lemma st_get_pushScope (st : ScopedSymbolTable) (sym : string) :
  st_get (pushScope st) sym = st_get st sym.
Proof. unfold st_get, pushScope. cbn. by rewrite lookup_empty. Qed.

Lemma withinBody_get (var : string) (body st : ScopedSymbolTable) :
  withinBody var body st → st_get st var = st_get body var.
Proof.
  induction 1 as [|st _ IH|st sym info _ IH Hne]; [done|..].
  - unfold visitBlockStatement_enter. by rewrite st_get_pushScope.
  - by rewrite st_get_put_ne.
Qed.

Lemma handleAssignmentPart_readOnly (retValWithInferredType : value → value)
    (loc : location) (var : string) (idxCtx : option indexing)
    (symbolTable : ScopedSymbolTable) (val : value) (info : SymbolInfo) :
  st_get symbolTable var = Some info → isReadOnly info = true →
  handleAssignmentPart retValWithInferredType loc var idxCtx symbolTable val =
    Err (readOnlyViolation loc var).
Proof.
  intros Hget Hro. unfold handleAssignmentPart.
  assert (st_has symbolTable var = true) as -> by (apply st_has_get; eauto).
  rewrite Hget. cbn. by rewrite Hro.
Qed.

(** The check of [handleAssignmentPart]: an assignment, plain or with left
    indexing, to a name whose binding is read-only throws at the location of
    the assignment; the counted for-loop binds its variable read-only in the
    scope of its body, so an assignment to the variable in the body, also
    inside nested blocks and after assignments to other names, throws that
    exception as long as the name has not been bound again. *)
Theorem assignment_to_read_only (retValWithInferredType : value → value)
    (loc : location) (var : string) (idxCtx : option indexing) (val : value) :
  (∀ symbolTable info,
     st_get symbolTable var = Some info → isReadOnly info = true →
     handleAssignmentPart retValWithInferredType loc var idxCtx symbolTable val =
       Err (CompilerError loc "DSLVisitor (handleAssignmentPart)"
              ("trying to assign read-only variable " +:+ var)))
  ∧ (∀ symbolTable op,
       st_get (visitForStatement_bodyScope var op symbolTable) var =
         Some {| si_value := for_var op; isReadOnly := true |})
  ∧ (∀ symbolTable op st,
       withinBody var (visitForStatement_bodyScope var op symbolTable) st →
       handleAssignmentPart retValWithInferredType loc var idxCtx st val =
         Err (CompilerError loc "DSLVisitor (handleAssignmentPart)"
                ("trying to assign read-only variable " +:+ var))).
Proof.
  split; [|split].
  - intros symbolTable info. apply handleAssignmentPart_readOnly.
  - intros symbolTable op. apply st_get_put.
  - intros symbolTable op st Hst.
    apply (handleAssignmentPart_readOnly _ _ _ _ _ _
             {| si_value := for_var op; isReadOnly := true |}); [|done].
    rewrite (withinBody_get _ _ _ Hst). apply st_get_put.
Qed.

(** An assignment in the body of [for (i in 1:3)]: [i = 7] inside a nested
    block after [x = 0]. *)
Lemma assignment_to_read_only_witness :
  let body :=
    visitForStatement_bodyScope "i"
      (visitForStatement_bounds (intLiteral 1) (intLiteral 3) None) newSymbolTable in
  let st :=
    visitBlockStatement_enter
      (st_put "x" (mkSymbolInfo (intLiteral 0) false) body) in
  handleAssignmentPart id 42%nat "i" None st (intLiteral 7) =
    Err (CompilerError 42%nat "DSLVisitor (handleAssignmentPart)"
           "trying to assign read-only variable i").
Proof.
  cbv zeta.
  eapply (proj2 (proj2 (assignment_to_read_only id 42%nat "i" None (intLiteral 7)))).
  apply withinBody_block, withinBody_bind; [apply withinBody_start | done].
Defined.

(** C8, where the code departs from it: in
    [for (i in 1:3) { for (i in 1:2) { } i = 7; }] the variable of the outer
    loop is bound read-only in its body, and [i = 7] at the start of the
    block would throw; but the inner loop binds the same name in its own
    scope, so the name is among those the loop is taken to have updated,
    and it is put again for the first result of the inner [scf::ForOp] with
    the read-only flag [false].  The assignment [i = 7] behind the inner
    loop, in the body of the outer loop, does not throw: it binds [i]
    to 7. *)
Theorem assignment_after_nested_loop :
  st_get nestedLoops_outerBlock "i"
  = Some {| si_value :=
              for_var (visitForStatement_bounds (intLiteral 1) (intLiteral 3) None);
            isReadOnly := true |}
  ∧ handleAssignmentPart id 42%nat "i" None nestedLoops_outerBlock (intLiteral 7)
    = Err (CompilerError 42%nat "DSLVisitor (handleAssignmentPart)"
             "trying to assign read-only variable i")
  ∧ ∃ st,
      nestedLoops_afterInner = Some st
      ∧ st_get st "i" = Some {| si_value := OpResult 7%nat 0%nat si64; isReadOnly := false |}
      ∧ handleAssignmentPart id 42%nat "i" None st (intLiteral 7)
        = Ok (st_put "i" {| si_value := intLiteral 7; isReadOnly := false |} st).
Proof.
  split; [vm_compute; reflexivity|]. split; [vm_compute; reflexivity|].
  eexists. split; [vm_compute; reflexivity|].
  split; vm_compute; reflexivity.
Qed.

Lemma bind_not_err {A B : Type} (m : result A) (f : A → result B) (e : exception) :
  m ≠ Err e → (∀ a, f a ≠ Err e) → (m ≫= f) ≠ Err e.
Proof.
  intros Hm Hf. destruct m as [a|e']; [apply Hf|].
  intros H. apply Hm. injection H as ->. done.
Qed.

Lemma readOnlyViolation_other_message (loc loc' : location) (var var' rest : string) :
  CompilerError loc' "DSLVisitor (handleAssignmentPart)"
    ("cannot use left indexing on variable " +:+ var' +:+ rest)
  ≠ readOnlyViolation loc var.
Proof. unfold readOnlyViolation. simpl. intros H. discriminate H. Qed.

Lemma applyLeftIndexing_not_readOnly (ax_ : axis) (loc loc' : location)
    (arg ins : value) (ax : axSpec) (allowLabel : bool) (var : string) :
  applyLeftIndexing ax_ loc' arg ins ax allowLabel ≠ Err (readOnlyViolation loc var).
Proof.
  unfold applyLeftIndexing, readOnlyViolation.
  destruct ax as [axVal|lo hi|]; [|done|congruence].
  destruct (hasObjType axVal); [congruence|].
  destruct (isStringType _); [|done].
  destruct allowLabel; congruence.
Qed.

Lemma applyRightIndexing_not_readOnly (retValWithInferredType : value → value)
    (ax_ : axis) (loc loc' : location) (arg : value) (ax : axSpec)
    (allowLabel : bool) (var : string) :
  applyRightIndexing retValWithInferredType ax_ loc' arg ax allowLabel
  ≠ Err (readOnlyViolation loc var).
Proof.
  unfold applyRightIndexing, readOnlyViolation.
  destruct ax as [axVal|lo hi|]; [|done|congruence].
  destruct (hasObjType axVal); [done|].
  destruct (isStringType _); [|done].
  destruct allowLabel; [done|congruence].
Qed.

Lemma handleAssignmentPart_writable (retValWithInferredType : value → value)
    (loc : location) (var : string) (idxCtx : option indexing)
    (symbolTable : ScopedSymbolTable) (val : value) (info : SymbolInfo) :
  st_get symbolTable var = Some info → isReadOnly info = false →
  handleAssignmentPart retValWithInferredType loc var idxCtx symbolTable val
  ≠ Err (readOnlyViolation loc var)
  ∧ (idxCtx = None →
     handleAssignmentPart retValWithInferredType loc var idxCtx symbolTable val =
       Ok (st_put var (mkSymbolInfo (renameIf symbolTable val) false) symbolTable)).
Proof.
  intros Hget Hro. unfold handleAssignmentPart.
  rewrite Hget. cbn. rewrite Hro, andb_false_r.
  split; [|by intros ->].
  destruct idxCtx as [idx|]; [|done].
  apply bind_not_err; [|done].
  destruct (idx_rows idx) as [[] rows], (idx_cols idx) as [[] cols]; cbn [fst snd andb];
    try apply applyLeftIndexing_not_readOnly; [|done].
  apply bind_not_err; [apply applyRightIndexing_not_readOnly|intros rowSeg].
  apply bind_not_err; [apply applyLeftIndexing_not_readOnly|intros rowSeg'].
  apply applyLeftIndexing_not_readOnly.
Qed.

(** C10: the parallel for-loop binds its variable with the read-only flag
    [false], the counted for-loop with the flag [true]; so an assignment to
    the variable in the body of a parallel for-loop (also inside nested
    blocks and after assignments to other names) does not throw the
    read-only exception, and a plain assignment rebinds the variable. *)
Theorem parfor_variable_writable (retValWithInferredType : value → value)
    (loc : location) (var : string) (idxCtx : option indexing) (val : value)
    (symbolTable : ScopedSymbolTable) (parforOp : ParForOp) (forOp : ForOp) :
  st_get (visitParForStatement_bodyScope var parforOp symbolTable) var =
    Some {| si_value := parfor_var parforOp; isReadOnly := false |}
  ∧ st_get (visitForStatement_bodyScope var forOp symbolTable) var =
    Some {| si_value := for_var forOp; isReadOnly := true |}
  ∧ (∀ st,
       withinBody var (visitParForStatement_bodyScope var parforOp symbolTable) st →
       handleAssignmentPart retValWithInferredType loc var idxCtx st val
       ≠ Err (CompilerError loc "DSLVisitor (handleAssignmentPart)"
                ("trying to assign read-only variable " +:+ var))
       ∧ handleAssignmentPart retValWithInferredType loc var None st val =
           Ok (st_put var (mkSymbolInfo (renameIf st val) false) st)).
Proof.
  split; [apply st_get_put|]. split; [apply st_get_put|].
  intros st Hst.
  assert (Hget : st_get st var =
            Some {| si_value := parfor_var parforOp; isReadOnly := false |}).
  { rewrite (withinBody_get _ _ _ Hst). apply st_get_put. }
  split.
  - by apply (handleAssignmentPart_writable _ _ _ _ _ _ _ Hget).
  - by apply (handleAssignmentPart_writable _ _ _ None _ _ _ Hget).
Qed.

(** An assignment [i = 7] in the body of [parfor (i in 1:3)]. *)
Lemma parfor_variable_writable_witness :
  let body :=
    visitParForStatement_bodyScope "i"
      (visitParForStatement_bounds (intLiteral 1) (intLiteral 3) None) newSymbolTable in
  let st := visitBlockStatement_enter body in
  handleAssignmentPart id 42%nat "i" None st (intLiteral 7) =
    Ok (st_put "i" (mkSymbolInfo (renameIf st (intLiteral 7)) false) st).
Proof.
  cbv zeta.
  eapply (proj2 (proj2 (parfor_variable_writable id 42%nat "i" None (intLiteral 7)
           newSymbolTable
           (visitParForStatement_bounds (intLiteral 1) (intLiteral 3) None)
           (visitForStatement_bounds (intLiteral 1) (intLiteral 3) None)))).
  apply withinBody_block, withinBody_start.
Defined.

(** ** Overload resolution *)

Lemma argAndUDFParamCompatible_spec (argTy paramTy : type) :
  argAndUDFParamCompatible argTy paramTy = true ↔
    paramTy = argTy ∨ argTy = Unknown ∨ paramTy = Unknown
    ∨ ∃ argElem paramElem,
        argTy = Matrix argElem ∧ paramTy = Matrix paramElem
        ∧ (argElem = Unknown ∨ paramElem = Unknown).
Proof.
  unfold argAndUDFParamCompatible, unknownType.
  rewrite !orb_true_iff, !bool_decide_eq_true. split.
  - intros [[[?|?]|?]|H]; try by auto.
    destruct argTy as [| argElem | | |], paramTy as [| paramElem | | |]; try done.
    apply orb_true_iff in H. rewrite !bool_decide_eq_true in H.
    right; right; right. by exists argElem, paramElem.
  - intros [?|[?|[?|(argElem & paramElem & -> & -> & H)]]]; try by auto.
    right. apply orb_true_iff. by rewrite !bool_decide_eq_true.
Qed.

Lemma allCompatible_spec (inputs : list type) (args : list value) :
  length inputs = length args →
  allCompatible inputs args = true ↔
    Forall2 (λ paramTy argVal, argAndUDFParamCompatible (getType argVal) paramTy = true)
            inputs args.
Proof.
  revert args. induction inputs as [|p inputs IH]; intros [|a args] Hlen; try done.
  cbn in *. destruct (argAndUDFParamCompatible (getType a) p) eqn:E.
  - rewrite IH by lia. split; [by constructor|by inversion 1].
  - split; [done|]. inversion 1; congruence.
Qed.

Lemma candidateMatches_spec (args : list value) (f : FuncOp) :
  candidateMatches args f = true ↔
    length (func_inputs f) = length args
    ∧ Forall2 (λ paramTy argVal, argAndUDFParamCompatible (getType argVal) paramTy = true)
              (func_inputs f) args.
Proof.
  unfold candidateMatches. case_decide as Hlen.
  - split; [done|]. intros [??]. done.
  - rewrite allCompatible_spec by done. split; [by intros ?|by intros [_ ?]].
Qed.

Lemma candidateMatches_unknown (args : list value) (f : FuncOp) :
  Forall (λ a, getType a = Unknown) args →
  length (func_inputs f) = length args →
  candidateMatches args f = true.
Proof.
  intros Hunk Hlen. apply candidateMatches_spec. split; [done|].
  revert Hlen Hunk. generalize (func_inputs f). intros inputs. revert args.
  induction inputs as [|p inputs IH]; intros [|a args] Hlen Hunk; try done.
  inversion Hunk as [|?? Ha Hargs]; subst. constructor.
  - apply argAndUDFParamCompatible_spec. auto.
  - apply IH; [by injection Hlen|done].
Qed.

Lemma find_first {A : Type} (p : A → bool) (pre : list A) (x : A) (post : list A) :
  Forall (λ y, p y = false) pre → p x = true →
  find p (pre ++ x :: post) = Some x.
Proof.
  intros Hpre Hx. induction Hpre as [|y pre Hy _ IH]; cbn.
  - by rewrite Hx.
  - by rewrite Hy.
Qed.

Lemma find_none_all {A : Type} (p : A → bool) (l : list A) :
  Forall (λ y, p y = false) l → find p l = None.
Proof. induction 1 as [|y l Hy _ IH]; cbn; [done|]. by rewrite Hy. Qed.

(** C5: a candidate with another number of parameters than arguments is
    rejected; a parameter matches an argument iff the types are equal, one
    of them is unknown, or both are matrices one of which has an unknown
    element type; the first registered candidate all of whose positions
    match is selected, so a call whose arguments all have the unknown type
    succeeds with the first candidate of the right arity; when the name is
    registered and no candidate matches, the exception lists the argument
    types and every registered signature; an unregistered name gives no
    function and no exception. *)
Theorem udf_overload_resolution (printType : type → string)
    (m : functionsSymbolMap) (functionName : string) (args : list value)
    (loc : location) :
  let range := equal_range m functionName in
  (∀ f, length (func_inputs f) ≠ length args → candidateMatches args f = false)
  ∧ (∀ argTy paramTy,
       argAndUDFParamCompatible argTy paramTy = true ↔
         paramTy = argTy ∨ argTy = Unknown ∨ paramTy = Unknown
         ∨ ∃ argElem paramElem,
             argTy = Matrix argElem ∧ paramTy = Matrix paramElem
             ∧ (argElem = Unknown ∨ paramElem = Unknown))
  ∧ (∀ f, candidateMatches args f = true ↔
         length (func_inputs f) = length args
         ∧ Forall2 (λ paramTy argVal,
                      argAndUDFParamCompatible (getType argVal) paramTy = true)
                   (func_inputs f) args)
  ∧ (∀ pre f post,
       range = pre ++ f :: post →
       Forall (λ g, candidateMatches args g = false) pre →
       candidateMatches args f = true →
       findMatchingUDF printType m functionName args loc = Ok (Some f))
  ∧ (∀ pre f post,
       Forall (λ a, getType a = Unknown) args →
       range = pre ++ f :: post →
       Forall (λ g, length (func_inputs g) ≠ length args) pre →
       length (func_inputs f) = length args →
       findMatchingUDF printType m functionName args loc = Ok (Some f))
  ∧ (range ≠ [] →
     Forall (λ g, candidateMatches args g = false) range →
     findMatchingUDF printType m functionName args loc =
       Err (CompilerError loc "DSLVisitor"
              ("no definition of function `" +:+ functionName +:+
               "` for argument types (" +:+
               joinWith ", " (printType ∘ getType <$> args) +:+
               "), available options: " +:+
               joinWith ", "
                 ((λ f, functionName +:+ "(" +:+
                        joinWith ", " (printType <$> func_inputs f) +:+ ")")
                  <$> range))))
  ∧ (range = [] → findMatchingUDF printType m functionName args loc = Ok None).
Proof.
  cbv zeta.
  assert (Harity : ∀ f, length (func_inputs f) ≠ length args →
                        candidateMatches args f = false).
  { intros f H. unfold candidateMatches. by rewrite decide_True. }
  split; [done|]. split; [apply argAndUDFParamCompatible_spec|].
  split; [apply candidateMatches_spec|].
  assert (Hfirst : ∀ pre f post,
            equal_range m functionName = pre ++ f :: post →
            Forall (λ g, candidateMatches args g = false) pre →
            candidateMatches args f = true →
            findMatchingUDF printType m functionName args loc = Ok (Some f)).
  { intros pre f post Hr Hpre Hf. unfold findMatchingUDF.
    rewrite Hr. by rewrite find_first. }
  split; [done|]. split; [|split].
  - intros pre f post Hunk Hr Hpre Hf. apply (Hfirst pre f post); [done|..].
    + eapply Forall_impl; [exact Hpre|]. intros g. apply Harity.
    + by apply candidateMatches_unknown.
  - intros Hne Hall. unfold findMatchingUDF. rewrite find_none_all by done.
    destruct (equal_range m functionName); done.
  - intros Hr. unfold findMatchingUDF. by rewrite Hr.
Qed.

(** The functions [g(si64) -> si64] and [g(f64) -> f64], registered in this
    order. *)
Definition g_si64 : FuncOp := mkFuncOp "g-1" [Scalar SI64] [Scalar SI64].
Definition g_f64 : FuncOp := mkFuncOp "g-2" [Scalar F64] [Scalar F64].
Definition g_registered : functionsSymbolMap := [("g", g_si64); ("g", g_f64)].

(** A printer of types for the examples. *)
Definition printScalarOrName (t : type) : string :=
  match t with
  | Scalar SI64 => "si64"
  | Scalar F64 => "f64"
  | Scalar _ => "scalar"
  | Matrix _ => "matrix"
  | Frame _ => "frame"
  | StringType => "str"
  | Unknown => "unknown"
  end.

(** Calling [g(x)] with [x] of unknown type selects the first signature;
    calling [g] with a string lists both signatures; calling [h] finds
    nothing. *)
Lemma udf_overload_resolution_witness :
  let printType := printScalarOrName in
  findMatchingUDF printType g_registered "g" [Leaf 0 Unknown] 1%nat = Ok (Some g_si64)
  ∧ findMatchingUDF printType g_registered "g" [Leaf 0 StringType] 1%nat =
      Err (CompilerError 1%nat "DSLVisitor"
             ("no definition of function `g` for argument types (" +:+
              printType StringType +:+ "), available options: g(" +:+
              printType (Scalar SI64) +:+ "), g(" +:+ printType (Scalar F64) +:+ ")"))
  ∧ findMatchingUDF printType g_registered "h" [Leaf 0 StringType] 1%nat = Ok None.
Proof.
  intros printType.
  pose proof (udf_overload_resolution printType g_registered "g" [Leaf 0 Unknown] 1%nat)
    as (_ & _ & _ & _ & Hunk & _).
  pose proof (udf_overload_resolution printType g_registered "g" [Leaf 0 StringType] 1%nat)
    as (_ & _ & _ & _ & _ & Hnone & _).
  pose proof (udf_overload_resolution printType g_registered "h" [Leaf 0 StringType] 1%nat)
    as (_ & _ & _ & _ & _ & _ & Hunreg).
  split; [|split].
  - apply (Hunk [] g_si64 [g_f64]); by repeat constructor.
  - rewrite Hnone; [vm_compute; reflexivity|done|by repeat constructor].
  - by apply Hunreg.
Defined.

(** ** The merge after an if-statement *)

Lemma equalUnknownAware_spec (t1 t2 : type) :
  equalUnknownAware t1 t2 = true ↔ t1 = t2 ∨ t1 = Unknown ∨ t2 = Unknown.
Proof.
  unfold equalUnknownAware. rewrite !orb_true_iff, !bool_decide_eq_true. tauto.
Qed.

Lemma mergeSymbols_Permutation (lhs rhs : SymbolTable) :
  mergeSymbols lhs rhs ≡ₚ elements (dom lhs ∪ dom rhs).
Proof. apply merge_sort_Permutation. Qed.

Lemma elem_of_mergeSymbols (lhs rhs : SymbolTable) (x : string) :
  x ∈ mergeSymbols lhs rhs ↔ x ∈ dom lhs ∨ x ∈ dom rhs.
Proof.
  rewrite mergeSymbols_Permutation, elem_of_elements. apply elem_of_union.
Qed.

Lemma NoDup_mergeSymbols (lhs rhs : SymbolTable) : NoDup (mergeSymbols lhs rhs).
Proof. rewrite mergeSymbols_Permutation. apply NoDup_elements. Qed.

Lemma mergeSymbols_nonempty (lhs rhs : SymbolTable) :
  mergeSymbols lhs rhs ≠ [] ↔ ∃ x, x ∈ dom lhs ∨ x ∈ dom rhs.
Proof.
  split.
  - destruct (mergeSymbols lhs rhs) as [|x l] eqn:E; [done|]. intros _.
    exists x. apply elem_of_mergeSymbols. rewrite E. left.
  - intros [x Hx%elem_of_mergeSymbols] E. rewrite E in Hx. by apply elem_of_nil in Hx.
Qed.

Section IfStatementFacts.
Variable printType : type → string.
Variable loc : location.
Variable symbolTable : ScopedSymbolTable.
Variables owThen owElse : SymbolTable.

Lemma ifYieldOperands_mergeable (owUnion : list string) :
  Forall (mergeable symbolTable owThen owElse) owUnion →
  ∃ resultsThen resultsElse,
    ifYieldOperands printType loc symbolTable owThen owElse owUnion =
      Ok (resultsThen, resultsElse)
    ∧ Forall2 (λ sym v, branchValue symbolTable owThen sym = Some v)
              owUnion resultsThen
    ∧ Forall2 (λ sym v, branchValue symbolTable owElse sym = Some v)
              owUnion resultsElse.
Proof.
  induction 1 as [|sym owUnion (valThen & valElse & HT & HE & Hty) _ IH].
  { exists [], []. by repeat split; constructor. }
  destruct IH as (resultsThen & resultsElse & Hrec & HFT & HFE).
  exists (valThen :: resultsThen), (valElse :: resultsElse).
  split; [|by split; constructor].
  unfold branchValue in HT, HE. cbn.
  destruct (st_get_in symbolTable sym owThen) as [infoThen|]; [|done].
  destruct (st_get_in symbolTable sym owElse) as [infoElse|]; [|done].
  cbn in HT, HE. injection HT as ->. injection HE as ->.
  apply equalUnknownAware_spec in Hty. rewrite Hty. cbn.
  by rewrite Hrec.
Qed.

Lemma symbolOf_unique (v : value) (tab : SymbolTable) (x n : string) :
  (∀ n info, tab !! n = Some info → si_value info = v → n = x) →
  symbolOf v tab = Some n → n = x.
Proof.
  intros Huniq. unfold symbolOf.
  destruct (find _ _) as [[n' info]|] eqn:E; [|done].
  intros [= <-]. apply find_some in E as [Hin Hv].
  apply bool_decide_eq_true in Hv. apply list_elem_of_In in Hin.
  apply elem_of_map_to_list in Hin. by eapply Huniq.
Qed.

Lemma symbolOf_None (v : value) (tab : SymbolTable) (n : string) (info : SymbolInfo) :
  symbolOf v tab = None → tab !! n = Some info → si_value info ≠ v.
Proof.
  unfold symbolOf. destruct (find _ _) as [?|] eqn:E; [done|]. intros _ Hn Hv.
  apply elem_of_map_to_list, list_elem_of_In in Hn.
  pose proof (find_none _ _ E _ Hn) as Hf. cbn in Hf.
  by apply bool_decide_eq_false in Hf.
Qed.

Lemma symbolInScopes_unique (v : value) (scs : list SymbolTable) (x : string) :
  (∀ tab n info, tab ∈ scs → tab !! n = Some info → si_value info = v → n = x) →
  (∃ tab info, tab ∈ scs ∧ tab !! x = Some info ∧ si_value info = v) →
  symbolInScopes v scs = Some x.
Proof.
  induction scs as [|sc scs IH]; intros Huniq (tab & info & Hin & Hx & Hv).
  { by apply elem_of_nil in Hin. }
  cbn. destruct (symbolOf v sc) as [n|] eqn:E.
  - f_equal. eapply symbolOf_unique; [|exact E].
    intros n' info'. apply Huniq. left.
  - apply IH.
    + intros tab' n' info' Hin'. apply Huniq. by right.
    + apply elem_of_cons in Hin as [->|Hin].
      * by destruct (symbolOf_None _ _ _ _ E Hx).
      * by exists tab, info.
Qed.

Lemma lookupScopes_Some (scs : list SymbolTable) (sym : string) (info : SymbolInfo) :
  lookupScopes scs sym = Some info → ∃ tab, tab ∈ scs ∧ tab !! sym = Some info.
Proof.
  induction scs as [|sc scs IH]; cbn; [done|].
  destruct (sc !! sym) as [info'|] eqn:E.
  - intros [= ->]. exists sc. split; [left|done].
  - intros (tab & Hin & Htab)%IH. exists tab. split; [by right|done].
Qed.

(** When no other name is bound to the value, the table names the
    variable. *)
Lemma getSymbol_names (x : string) (valThen : value) :
  branchValue symbolTable owThen x = Some valThen →
  (∀ tab n info, tab ∈ owThen :: scopes symbolTable →
     tab !! n = Some info → si_value info = valThen → n = x) →
  getSymbol symbolTable valThen owThen = Some x.
Proof.
  intros Hv Huniq. unfold getSymbol. apply symbolInScopes_unique; [done|].
  unfold branchValue, st_get_in in Hv.
  destruct (owThen !! x) as [info|] eqn:E.
  - injection Hv as Hv. exists owThen, info. split; [left|done].
  - destruct (st_get symbolTable x) as [info|] eqn:E'; [|done].
    injection Hv as Hv. apply lookupScopes_Some in E' as (tab & Hin & Htab).
    exists tab, info. split; [by right|done].
Qed.

Lemma ifYieldOperands_ambiguous (pre : list string) (x : string)
    (post : list string) (valThen valElse : value) :
  Forall (mergeable symbolTable owThen owElse) pre →
  ambiguous symbolTable owThen owElse x valThen valElse →
  getSymbol symbolTable valThen owThen = Some x →
  ifYieldOperands printType loc symbolTable owThen owElse (pre ++ x :: post) =
    Err (CompilerError loc "DSLVisitor"
           (ambiguousTypeMessage printType x (getType valThen) (getType valElse))).
Proof.
  intros Hpre (HT & HE & Hne & HuT & HuE) Hsym.
  induction Hpre as [|sym pre (vT & vE & HvT & HvE & Hty) _ IH]; cbn -[getSymbol].
  - unfold branchValue in HT, HE.
    destruct (st_get_in symbolTable x owThen) as [infoThen|]; [|done].
    destruct (st_get_in symbolTable x owElse) as [infoElse|]; [|done].
    cbn in HT, HE. injection HT as ->. injection HE as ->.
    destruct (equalUnknownAware _ _) eqn:E.
    { apply equalUnknownAware_spec in E. by destruct E as [?|[?|?]]. }
    cbn -[getSymbol]. by rewrite Hsym.
  - unfold branchValue in HvT, HvE.
    destruct (st_get_in symbolTable sym owThen) as [infoThen|]; [|done].
    destruct (st_get_in symbolTable sym owElse) as [infoElse|]; [|done].
    cbn in HvT, HvE. injection HvT as ->. injection HvE as ->.
    apply equalUnknownAware_spec in Hty. rewrite Hty. cbn -[getSymbol].
    by rewrite IH.
Qed.

Lemma ifYieldOperands_fails (owUnion : list string) (x : string)
    (valThen valElse : value) :
  x ∈ owUnion →
  ambiguous symbolTable owThen owElse x valThen valElse →
  isErr (ifYieldOperands printType loc symbolTable owThen owElse owUnion) = true.
Proof.
  intros Hin (HT & HE & Hne & HuT & HuE).
  induction owUnion as [|sym owUnion IH]; [by apply elem_of_nil in Hin|].
  cbn -[getSymbol].
  destruct (st_get_in symbolTable sym owThen) as [infoThen|] eqn:ET; [|done].
  destruct (st_get_in symbolTable sym owElse) as [infoElse|] eqn:EE; [|done].
  destruct (equalUnknownAware _ _) eqn:E; cbn -[getSymbol].
  - apply elem_of_cons in Hin as [->|Hin].
    + unfold branchValue in HT, HE. rewrite ET in HT. rewrite EE in HE.
      cbn in HT, HE. injection HT as <-. injection HE as <-.
      apply equalUnknownAware_spec in E. by destruct E as [?|[?|?]].
    + specialize (IH Hin).
      by destruct (ifYieldOperands _ _ _ _ _ owUnion) as [[??]|?].
  - by destruct (getSymbol _ _ _).
Qed.

Lemma rewireResults_cons (n : string) (names : list string) (r : value)
    (results : list value) (st : ScopedSymbolTable) :
  rewireResults (n :: names) (r :: results) st =
    rewireResults names results (st_put n (mkSymbolInfo r false) st).
Proof. reflexivity. Qed.

Lemma rewireResults_other (names : list string) (results : list value)
    (st : ScopedSymbolTable) (x : string) :
  x ∉ names → st_get (rewireResults names results st) x = st_get st x.
Proof.
  revert results st.
  induction names as [|n names IH]; intros [|r results] st Hx; try done.
  rewrite rewireResults_cons, IH by (by intros ?; apply Hx; right).
  apply st_get_put_ne. intros ->. apply Hx. left.
Qed.

Lemma rewireResults_lookup (names : list string) (results : list value)
    (st : ScopedSymbolTable) (i : nat) (x : string) (r : value) :
  NoDup names → names !! i = Some x → results !! i = Some r →
  st_get (rewireResults names results st) x = Some (mkSymbolInfo r false).
Proof.
  revert results st i.
  induction names as [|n names IH]; intros [|r' results] st i Hnd Hx Hr; try done.
  apply NoDup_cons in Hnd as [Hn Hnd].
  destruct i as [|i]; cbn in Hx, Hr.
  - injection Hx as ->. injection Hr as ->.
    rewrite rewireResults_cons, rewireResults_other by done. apply st_get_put.
  - rewrite rewireResults_cons. by eapply IH.
Qed.
End IfStatementFacts.

Lemma ifYieldOperands_length (printType : type → string) (loc : location)
    (symbolTable : ScopedSymbolTable) (owThen owElse : SymbolTable)
    (owUnion : list string) (resultsThen resultsElse : list value) :
  ifYieldOperands printType loc symbolTable owThen owElse owUnion =
    Ok (resultsThen, resultsElse) →
  length resultsThen = length owUnion ∧ length resultsElse = length owUnion.
Proof.
  revert resultsThen resultsElse.
  induction owUnion as [|sym l IH]; intros resultsThen resultsElse E;
    cbn -[getSymbol] in E.
  - by injection E as <- <-.
  - destruct (st_get_in _ _ owThen); [|done].
    destruct (st_get_in _ _ _); [|done].
    destruct (negb _); [by destruct (getSymbol _ _ _)|].
    destruct (ifYieldOperands _ _ _ _ _ l) as [[rt re]|?] eqn:E'; [|done].
    cbn in E. injection E as <- <-. cbn.
    destruct (IH _ _ eq_refl) as [-> ->]. done.
Qed.

Lemma visitIfStatement_unfold (printType : type → string) (loc : location)
    (cond : value) (owThen : SymbolTable) (elseStmt : option SymbolTable)
    (symbolTable : ScopedSymbolTable) :
  visitIfStatement printType loc cond owThen elseStmt symbolTable =
    match ifYieldOperands printType loc symbolTable owThen (default ∅ elseStmt)
            (mergeSymbols owThen (default ∅ elseStmt)) with
    | Ok (resultsThen, resultsElse) =>
        let ifOp :=
          {| if_loc := loc; if_cond := cond; if_thenYield := resultsThen;
             if_elseYield :=
               if bool_decide (is_Some elseStmt)
                  || negb (bool_decide (mergeSymbols owThen (default ∅ elseStmt) = []))
               then Some resultsElse else None |} in
        Ok (ifOp, rewireResults (mergeSymbols owThen (default ∅ elseStmt))
                    (getResults ifOp) symbolTable)
    | Err e => Err e
    end.
Proof.
  unfold visitIfStatement. cbv zeta.
  by destruct (ifYieldOperands _ _ _ _ _ _) as [[??]|?].
Qed.

(** C3: the names the merge goes through are those rebound in a branch.
    When the values of such a name after the two branches have different
    types, none of them unknown, lowering fails; the exception is thrown
    for the first such name, and it gives that name (when no other name is
    bound to the same value) and the two types.  When for every name the
    types are equal or one of them is unknown, the merge succeeds, the
    values after the branches are yielded, and every name is rebound,
    writable, to the result of the if-operation at its position. *)
Theorem if_merge_types (printType : type → string) (loc : location) (cond : value)
    (owThen : SymbolTable) (elseStmt : option SymbolTable)
    (symbolTable : ScopedSymbolTable) :
  let owElse := default ∅ elseStmt in
  let owUnion := mergeSymbols owThen owElse in
  (∀ x, x ∈ owUnion ↔ x ∈ dom owThen ∨ x ∈ dom owElse)
  ∧ (∀ x valThen valElse,
       x ∈ owUnion →
       ambiguous symbolTable owThen owElse x valThen valElse →
       ∃ e, visitIfStatement printType loc cond owThen elseStmt symbolTable = Err e)
  ∧ (∀ pre x post valThen valElse,
       owUnion = pre ++ x :: post →
       Forall (mergeable symbolTable owThen owElse) pre →
       ambiguous symbolTable owThen owElse x valThen valElse →
       (∀ tab n info, tab ∈ owThen :: scopes symbolTable →
          tab !! n = Some info → si_value info = valThen → n = x) →
       visitIfStatement printType loc cond owThen elseStmt symbolTable =
         Err (CompilerError loc "DSLVisitor"
                ("type of variable `" +:+ x +:+
                 "` after if-statement is ambiguous, could be either " +:+
                 printType (getType valThen) +:+ " (then-branch) or " +:+
                 printType (getType valElse) +:+ " (else-branch)")))
  ∧ (Forall (mergeable symbolTable owThen owElse) owUnion →
     ∃ ifOp st',
       visitIfStatement printType loc cond owThen elseStmt symbolTable = Ok (ifOp, st')
       ∧ ∀ i x, owUnion !! i = Some x →
           ∃ valThen valElse,
             branchValue symbolTable owThen x = Some valThen
             ∧ branchValue symbolTable owElse x = Some valElse
             ∧ if_thenYield ifOp !! i = Some valThen
             ∧ (∀ resultsElse, if_elseYield ifOp = Some resultsElse →
                  resultsElse !! i = Some valElse)
             ∧ getResults ifOp !! i = Some (OpResult loc i (getType valThen))
             ∧ st_get st' x =
                 Some {| si_value := OpResult loc i (getType valThen);
                         isReadOnly := false |}).
Proof.
  cbv zeta. split; [apply elem_of_mergeSymbols|]. split; [|split].
  - intros x valThen valElse Hin Hamb.
    pose proof (ifYieldOperands_fails printType loc _ _ _ _ _ _ _ Hin Hamb) as H.
    rewrite visitIfStatement_unfold.
    destruct (ifYieldOperands _ _ _ _ _ _) as [[??]|e]; [done|by exists e].
  - intros pre x post valThen valElse Hu Hpre Hamb Huniq.
    rewrite visitIfStatement_unfold, Hu.
    rewrite (ifYieldOperands_ambiguous printType loc _ _ _ pre x post valThen valElse);
      try done.
    apply getSymbol_names; [apply Hamb|done].
  - intros Hall.
    destruct (ifYieldOperands_mergeable printType loc _ _ _ _ Hall)
      as (resultsThen & resultsElse & Hyield & HT & HE).
    rewrite visitIfStatement_unfold, Hyield. cbv zeta.
    eexists _, _. split; [reflexivity|].
    intros i x Hx.
    destruct (Forall2_lookup_l _ _ _ _ _ HT Hx) as (valThen & HiT & HvT).
    destruct (Forall2_lookup_l _ _ _ _ _ HE Hx) as (valElse & HiE & HvE).
    exists valThen, valElse.
    assert (Hres : getResults
              {| if_loc := loc; if_cond := cond; if_thenYield := resultsThen;
                 if_elseYield :=
                   if bool_decide (is_Some elseStmt)
                      || negb (bool_decide (mergeSymbols owThen (default ∅ elseStmt) = []))
                   then Some resultsElse else None |} !! i
            = Some (OpResult loc i (getType valThen))).
    { unfold getResults. cbn. by rewrite list_lookup_imap, HiT. }
    repeat split; try done.
    + cbn. destruct (_ || _); [|done]. by intros ? [= <-].
    + eapply rewireResults_lookup; [apply NoDup_mergeSymbols|done..].
Qed.

(** [x] is a signed integer before [if (c) x = 1.5;], which rebinds it to a
    floating-point value: the merge fails and names [x]. *)
Lemma if_merge_types_witness :
  let x0 := Leaf 0 (Scalar SI64) in
  let x1 := Leaf 1 (Scalar F64) in
  let symbolTable := st_put "x" (mkSymbolInfo x0 false) newSymbolTable in
  let owThen : SymbolTable := {[ "x" := mkSymbolInfo x1 false ]} in
  visitIfStatement printScalarOrName 7%nat (Leaf 2 (Scalar Bool)) owThen None symbolTable =
    Err (CompilerError 7%nat "DSLVisitor"
           "type of variable `x` after if-statement is ambiguous, could be either f64 (then-branch) or si64 (else-branch)").
Proof.
  cbv zeta.
  pose proof (if_merge_types printScalarOrName 7%nat (Leaf 2 (Scalar Bool))
                {[ "x" := mkSymbolInfo (Leaf 1 (Scalar F64)) false ]} None
                (st_put "x" (mkSymbolInfo (Leaf 0 (Scalar SI64)) false) newSymbolTable))
    as (_ & _ & Hfail & _).
  rewrite (Hfail [] "x" [] (Leaf 1 (Scalar F64)) (Leaf 0 (Scalar SI64))).
  - reflexivity.
  - vm_compute. reflexivity.
  - constructor.
  - repeat split; done.
  - intros tab n info Htab Hn _.
    apply elem_of_cons in Htab as [->|Htab].
    + by apply lookup_singleton_Some in Hn as [-> _].
    + apply list_elem_of_singleton in Htab as ->. cbn in Hn.
      apply lookup_insert_Some in Hn as [[-> _]|[_ Hn]]; [done|].
      by rewrite lookup_empty in Hn.
Defined.

(** ** The else-region of the if-operation *)

(** C7: the if-operation gets an else-region exactly when the statement has
    an else-branch or some name is rebound in a branch; the operation has
    one result for each such name. *)
Theorem if_else_region (printType : type → string) (loc : location) (cond : value)
    (owThen : SymbolTable) (elseStmt : option SymbolTable)
    (symbolTable : ScopedSymbolTable) (ifOp : IfOp) (st' : ScopedSymbolTable) :
  visitIfStatement printType loc cond owThen elseStmt symbolTable = Ok (ifOp, st') →
  let owUnion := mergeSymbols owThen (default ∅ elseStmt) in
  (is_Some (if_elseYield ifOp) ↔ is_Some elseStmt ∨ owUnion ≠ [])
  ∧ (if_elseYield ifOp = None ↔ elseStmt = None ∧ owUnion = [])
  ∧ (owUnion ≠ [] ↔ ∃ x, x ∈ dom owThen ∨ x ∈ dom (default ∅ elseStmt))
  ∧ length (getResults ifOp) = length owUnion.
Proof.
  rewrite visitIfStatement_unfold.
  destruct (ifYieldOperands _ _ _ _ _ _) as [[resultsThen resultsElse]|e] eqn:E; [|done].
  cbv zeta. intros [= <- <-]. cbn [if_elseYield].
  split; [|split; [|split]].
  - destruct elseStmt as [owElse|]; cbn.
    + split; [intros _; left|]; eauto.
    + case_bool_decide as Hnil; cbn.
      * split; [by intros [??]|]. intros [[??]|?]; done.
      * split; [by right|]; eauto.
  - destruct elseStmt as [owElse|]; cbn.
    + split; [done|by intros [??]].
    + case_bool_decide as Hnil; cbn; [done|]. split; [done|by intros [??]].
  - apply mergeSymbols_nonempty.
  - unfold getResults. cbn. rewrite length_imap.
    by apply ifYieldOperands_length in E as [? _].
Qed.

(** [if (c) print(1);] rebinds nothing and has no else-branch: the
    operation has no else-region; [if (c) x = 2;] rebinds [x]: the operation
    has one. *)
Lemma if_else_region_witness :
  let symbolTable := st_put "x" (mkSymbolInfo (Leaf 0 (Scalar SI64)) false) newSymbolTable in
  let cond := Leaf 2 (Scalar Bool) in
  match visitIfStatement printScalarOrName 7%nat cond ∅ None symbolTable with
  | Ok (ifOp, _) => if_elseYield ifOp = None
  | Err _ => False
  end
  ∧ match visitIfStatement printScalarOrName 7%nat cond
            {[ "x" := mkSymbolInfo (Leaf 1 (Scalar SI64)) false ]} None symbolTable with
    | Ok (ifOp, _) => is_Some (if_elseYield ifOp)
    | Err _ => False
    end.
Proof.
  cbv zeta. split.
  - destruct (visitIfStatement _ _ _ ∅ _ _) as [[ifOp st']|e] eqn:E.
    + apply (if_else_region _ _ _ _ _ _ _ _ E). split; [done|].
      vm_compute. reflexivity.
    + vm_compute in E. discriminate E.
  - destruct (visitIfStatement _ _ _ {[ _ := _ ]} _ _) as [[ifOp st']|e] eqn:E.
    + apply (if_else_region _ _ _ _ _ _ _ _ E). right.
      vm_compute. discriminate.
    + vm_compute in E. discriminate E.
Defined.

(** ** Rectification of early returns *)

Local Open Scope nat_scope.

Lemma rectifyLoop_break (fuel : nat) (funcBlock funcBlock' : list op) :
  rectifyLoop fuel funcBlock = Finished funcBlock' → nextRound funcBlock' = RoundBreak.
Proof.
  revert funcBlock. induction fuel as [|fuel IH]; intros funcBlock; cbn; [done|].
  destruct (nextRound funcBlock) as [|p|e|] eqn:E; try done.
  - by intros [= <-].
  - destruct (rectifyEarlyReturnAt p [] funcBlock) as [b| | |]; cbn; try done.
    apply IH.
Qed.

Lemma rectifyLoop_at_break (fuel : nat) (funcBlock : list op) :
  nextRound funcBlock = RoundBreak → rectifyLoop (S fuel) funcBlock = Finished funcBlock.
Proof. intros H. cbn. by rewrite H. Qed.

Lemma rectifyEarlyReturns_idempotent (fuel fuel' : nat) (funcBlock funcBlock' : list op) :
  rectifyEarlyReturns fuel funcBlock = Finished funcBlock' →
  rectifyEarlyReturns (S fuel') funcBlock' = Finished funcBlock'.
Proof.
  unfold rectifyEarlyReturns. case_bool_decide as Hnil.
  - intros [= <-]. by rewrite bool_decide_true.
  - intros H%rectifyLoop_break. case_bool_decide; [done|].
    by apply rectifyLoop_at_break.
Qed.

(** The round in which the most nested return sits directly in a
    [ParForOp]: the loop is left and the block stays as it is. *)
Lemma rectify_return_in_parfor (fuel : nat) (funcBlock : list op)
    (pos : position) (parentOp : op) :
  mostNestedReturn funcBlock = Some pos →
  getParentOp pos.1 funcBlock = Some parentOp →
  op_kind parentOp = daphne_parfor →
  rectifyEarlyReturns (S fuel) funcBlock = Finished funcBlock.
Proof.
  intros Hpos Hparent Hkind. unfold rectifyEarlyReturns.
  case_bool_decide; [done|]. apply rectifyLoop_at_break.
  unfold nextRound. rewrite Hpos. destruct (isBack pos funcBlock); [done|].
  by rewrite Hparent, Hkind.
Qed.

(** The round in which the most nested return sits directly in an
    operation that is neither an [scf.if] nor a [ParForOp]: an exception
    at the location of that operation. *)
Lemma rectify_return_in_other_op (fuel : nat) (funcBlock : list op)
    (pos : position) (parentOp : op) :
  mostNestedReturn funcBlock = Some pos →
  getParentOp pos.1 funcBlock = Some parentOp →
  op_kind parentOp ≠ scf_if → op_kind parentOp ≠ daphne_parfor →
  rectifyEarlyReturns (S fuel) funcBlock =
    Thrown (CompilerError (op_loc parentOp) "DSLVisitor"
              ("Early return in `" +:+ getName (op_kind parentOp) +:+
               "` is not supported.")).
Proof.
  intros Hpos Hparent Hif Hparfor. unfold rectifyEarlyReturns.
  assert (Hne : funcBlock ≠ []).
  { intros ->. discriminate Hpos. }
  rewrite bool_decide_false by done. cbn. unfold nextRound. rewrite Hpos.
  assert (isBack pos funcBlock = false) as ->.
  { apply bool_decide_eq_false. intros [Hp _]. by rewrite Hp in Hparent. }
  rewrite Hparent. unfold earlyReturnNotSupported.
  destruct (op_kind parentOp) eqn:K; congruence.
Qed.

(** The block of [def f(c) { parfor (i in 1:2) { } while (c) { return 1; }
    return 2; }]: the parallel loop with the return that ends its body, the
    while-loop with its condition block and with the early return in its
    body, and the final return. *)
Definition parforThenWhile : list op :=
  [ Op daphne_parfor 1 [ [Op daphne_return 1 []] ];
    Op (other_op "scf.while") 2
       [ [Op (other_op "scf.condition") 2 []];
         [Op daphne_return 3 []; Op scf_yield 2 []] ];
    Op daphne_return 4 [] ].

(** C6, at the failing input: with a parallel for-loop in front, the return
    inside the while-loop is not reported: the walk meets the return that
    ends the body of the parallel loop first, at the same nesting level,
    and the loop of [rectifyEarlyReturns] is left with the block unchanged.
    The same while-loop without the parallel loop in front throws. *)
Theorem return_in_while_after_parfor (fuel : nat) :
  walk parforThenWhile = [([(0, 0)], 0); ([(1, 1)], 0); ([], 2)]%nat
  ∧ mostNestedReturn parforThenWhile = Some ([(0, 0)], 0)%nat
  ∧ rectifyEarlyReturns (S fuel) parforThenWhile = Finished parforThenWhile
  ∧ rectifyEarlyReturns (S fuel) (drop 1 parforThenWhile) =
      Thrown (CompilerError 2%nat "DSLVisitor"
                "Early return in `scf.while` is not supported.").
Proof. repeat split. Qed.

(** *** The weight of operations and blocks *)

Lemma op_ind' (P : op → Prop) :
  (∀ k l rs, Forall (Forall P) rs → P (Op k l rs)) → ∀ o, P o.
Proof.
  intros H. fix IH 1. intros [k l rs]. apply H.
  induction rs as [|b rs IHrs]; constructor; [|done].
  induction b as [|o b IHb]; constructor; [apply IH|done].
Qed.

Lemma weight_unfold (k : opkind) (l : location) (rs : list (list op)) (c : nat) :
  weight (Op k l rs) c =
    match k with
    | daphne_return => 1
    | scf_yield => 0
    | scf_if =>
        if existsb (existsb hasReturn) rs then
          match rs with
          | [t] => 1 + (tot c t + c) + c
          | [t; e] => 1 + (tot c t + c) + (tot c e + c)
          | _ => 0
          end
        else 0
    | _ => regionsWeight rs
    end.
Proof. by destruct k. Qed.

Lemma potential_nil (c : nat) : potential c [] = (0, 0).
Proof. done. Qed.

Lemma potential_cons (c : nat) (o : op) (b : list op) :
  potential c (o :: b) =
    if isYieldOp o then (tot c b, c)
    else (weight o (chain c b) + tot c b, weight o (chain c b) + chain c b).
Proof. done. Qed.

(** Monotonicity in the potential behind. *)
Lemma weight_mono (o : op) : ∀ c1 c2, c1 ≤ c2 → weight o c1 ≤ weight o c2.
Proof.
  induction o as [k l rs IH] using op_ind'. intros c1 c2 Hc.
  rewrite !weight_unfold. destruct k; try done.
  destruct (existsb _ rs); [|done].
  assert (Hb : ∀ b, Forall (λ o, ∀ c1 c2, c1 ≤ c2 → weight o c1 ≤ weight o c2) b →
            tot c1 b ≤ tot c2 b ∧ chain c1 b ≤ chain c2 b).
  { intros b Hb. unfold tot, chain. induction Hb as [|o b Ho _ IHb]; [done|].
    rewrite !potential_cons. fold (tot c1 b) (tot c2 b) (chain c1 b) (chain c2 b) in *.
    destruct IHb as [IH1 IH2]. destruct (isYieldOp o); cbn; [lia|].
    specialize (Ho _ _ IH2). lia. }
  destruct rs as [|t [|e [|??]]]; try done.
  - inversion IH as [|?? Ht _]; subst. destruct (Hb _ Ht). lia.
  - inversion IH as [|?? Ht IH']; subst. inversion IH' as [|?? He _]; subst.
    destruct (Hb _ Ht), (Hb _ He). lia.
Qed.

Lemma potential_mono (b : list op) (c1 c2 : nat) :
  c1 ≤ c2 → tot c1 b ≤ tot c2 b ∧ chain c1 b ≤ chain c2 b.
Proof.
  intros Hc. unfold tot, chain. induction b as [|o b [IH1 IH2]]; [done|].
  rewrite !potential_cons. fold (tot c1 b) (tot c2 b) (chain c1 b) (chain c2 b) in *.
  destruct (isYieldOp o); cbn; [lia|].
  pose proof (weight_mono o _ _ IH2). lia.
Qed.

(** *** Well-formed blocks *)

Lemma wfOp_unfold (k : opkind) (l : location) (rs : list (list op)) :
  wfOp (Op k l rs) = kindAllows k rs && forallb wfBlock rs.
Proof. done. Qed.

Lemma hasReturn_unfold (k : opkind) (l : location) (rs : list (list op)) :
  hasReturn (Op k l rs) =
    bool_decide (k = daphne_return) || existsb (existsb hasReturn) rs.
Proof. done. Qed.

Lemma isReturnOp_hasReturn (o : op) : isReturnOp o = true → hasReturn o = true.
Proof. destruct o as [k l rs]. unfold isReturnOp. cbn. by intros ->. Qed.

Lemma weight_return (o : op) (c : nat) : isReturnOp o = true → weight o c = 1.
Proof.
  destruct o as [k l rs]. unfold isReturnOp. cbn [op_kind].
  intros ->%bool_decide_eq_true. by rewrite weight_unfold.
Qed.

Lemma weight_yield (o : op) (c : nat) : isYieldOp o = true → weight o c = 0.
Proof.
  destruct o as [k l rs]. unfold isYieldOp. cbn [op_kind].
  intros ->%bool_decide_eq_true. by rewrite weight_unfold.
Qed.

(** An operation without a return has no weight. *)
Lemma weight_returnFree (o : op) : ∀ c, hasReturn o = false → weight o c = 0.
Proof.
  induction o as [k l rs IH] using op_ind'. intros c.
  rewrite hasReturn_unfold, weight_unfold. intros [Hk Hrs]%orb_false_iff.
  destruct k; try done.
  - by rewrite Hrs.
  - clear Hk. induction IH as [|b rs Hb _ IHrs]; [done|]. cbn in Hrs |- *.
    apply orb_false_iff in Hrs as [Hb' Hrs]. rewrite IHrs by done.
    enough (tot 0 b = 0) by lia. clear IHrs Hrs. unfold tot.
    generalize 0 at 1. induction Hb as [|o b Ho _ IHb]; intros c'; [done|].
    cbn in Hb'. apply orb_false_iff in Hb' as [Ho' Hb'].
    rewrite potential_cons. destruct (isYieldOp o); cbn; [by apply IHb|].
    unfold tot. rewrite IHb, Ho by done. done.
  - clear Hk. induction IH as [|b rs Hb _ IHrs]; [done|]. cbn in Hrs |- *.
    apply orb_false_iff in Hrs as [Hb' Hrs]. rewrite IHrs by done.
    enough (tot 0 b = 0) by lia. clear IHrs Hrs. unfold tot.
    generalize 0 at 1. induction Hb as [|o b Ho _ IHb]; intros c'; [done|].
    cbn in Hb'. apply orb_false_iff in Hb' as [Ho' Hb'].
    rewrite potential_cons. destruct (isYieldOp o); cbn; [by apply IHb|].
    unfold tot. rewrite IHb, Ho by done. done.
Qed.

Lemma tot_returnFree (b : list op) (c : nat) : returnFree b = true → tot c b = 0.
Proof.
  unfold tot, returnFree. induction b as [|o b IH]; [done|]. cbn [forallb].
  intros [Ho Hb]%andb_true_iff. rewrite potential_cons.
  destruct (isYieldOp o); cbn; [by apply IH|].
  rewrite weight_returnFree by by apply negb_true_iff. unfold tot. by rewrite IH.
Qed.

(** Operations without returns and yields in front of a block do not change
    its potential. *)
Lemma potential_skip (z b : list op) (c : nat) :
  returnFree z = true → yieldFree z = true → potential c (z ++ b) = potential c b.
Proof.
  unfold returnFree, yieldFree. induction z as [|o z IH]; [done|]. cbn [forallb].
  intros [Ho Hz]%andb_true_iff [Hy Hz']%andb_true_iff.
  cbn [app]. rewrite potential_cons.
  apply negb_true_iff in Hy. rewrite Hy.
  rewrite weight_returnFree by by apply negb_true_iff.
  unfold tot, chain. rewrite IH by done. by destruct (potential c b).
Qed.

(** A well-formed operation with a return has a weight. *)
Lemma weight_hasReturn (o : op) : ∀ c, wfOp o = true → hasReturn o = true → 1 ≤ weight o c.
Proof.
  induction o as [k l rs IH] using op_ind'. intros c.
  rewrite wfOp_unfold, hasReturn_unfold, weight_unfold.
  intros [Hk Hwf]%andb_true_iff Hret.
  assert (Hb : ∀ b c', Forall (λ o, ∀ c, wfOp o = true → hasReturn o = true → 1 ≤ weight o c) b →
            wfBlock b = true → existsb hasReturn b = true → 1 ≤ tot c' b).
  { intros b c' Hb. unfold wfBlock. intros [Hwfb _]%andb_true_iff.
    unfold tot. induction Hb as [|o b Ho _ IHb]; [done|].
    cbn in Hwfb. apply andb_true_iff in Hwfb as [Hwfo Hwfb].
    cbn [existsb]. intros [Hro|Hrb]%orb_true_iff; rewrite potential_cons.
    - destruct (isYieldOp o) eqn:Hy.
      + destruct o as [k' l' rs']. unfold isYieldOp in Hy. cbn in Hy.
        apply bool_decide_eq_true in Hy as ->.
        rewrite wfOp_unfold in Hwfo. apply andb_true_iff in Hwfo as [Hk' _].
        cbn in Hk'. apply bool_decide_eq_true in Hk'.
        destruct rs'; [|done]. done.
      + cbn. specialize (Ho (chain c' b) Hwfo Hro). lia.
    - specialize (IHb Hwfb Hrb). destruct (isYieldOp o); cbn; [done|]. unfold tot. lia. }
  destruct k; try done.
  - cbn in Hk. apply bool_decide_eq_true in Hk. by destruct rs.
  - rewrite bool_decide_false in Hret by done. cbn [orb] in Hret. rewrite Hret.
    cbn in Hk. apply bool_decide_eq_true in Hk.
    destruct rs as [|t [|e [|??]]]; cbn in Hk; try lia.
  - rewrite bool_decide_false in Hret by done. cbn [orb] in Hret. clear Hk.
    induction IH as [|b rs Hfb _ IHrs]; [done|].
    cbn in Hwf, Hret |- *. apply andb_true_iff in Hwf as [Hwfb Hwf].
    apply orb_true_iff in Hret as [Hrb|Hrs].
    + pose proof (Hb b 0 Hfb Hwfb Hrb). lia.
    + specialize (IHrs Hwf Hrs). lia.
  - rewrite bool_decide_false in Hret by done. cbn [orb] in Hret. clear Hk.
    induction IH as [|b rs Hfb _ IHrs]; [done|].
    cbn in Hwf, Hret |- *. apply andb_true_iff in Hwf as [Hwfb Hwf].
    apply orb_true_iff in Hret as [Hrb|Hrs].
    + pose proof (Hb b 0 Hfb Hwfb Hrb). lia.
    + specialize (IHrs Hwf Hrs). lia.
Qed.

(** *** The potential of what follows an if *)

Lemma dropYields_app (b1 b2 : list op) :
  dropYields (b1 ++ b2) = dropYields b1 ++ dropYields b2.
Proof.
  induction b1 as [|o b1 IH]; [done|]. cbn. rewrite IH. by destruct (isYieldOp o).
Qed.

Lemma dropYields_yieldFree (b : list op) : yieldFree (dropYields b) = true.
Proof.
  induction b as [|o b IH]; [done|]. cbn. destruct (isYieldOp o) eqn:E; [done|].
  cbn. by rewrite E.
Qed.

Lemma eraseYields_dropYields (n : nat) (b b' : list op) :
  eraseYields n b = Finished b' → b' = dropYields b.
Proof.
  revert n b'. induction b as [|o b IH]; intros n b'; cbn.
  - by intros [= <-].
  - destruct (isYieldOp o).
    + destruct n as [|n]; [done|]. apply IH.
    + destruct (eraseYields n b) as [b''| | |] eqn:E; try done.
      cbn. intros [= <-]. f_equal. by eapply IH.
Qed.

Lemma opsAfterIf_nil (anc : ancestors) : opsAfterIf anc [] = Finished ([], []).
Proof. by destruct anc. Qed.

Lemma opsAfterIf_cons (anc : ancestors) (o : op) (next : list op) :
  opsAfterIf anc (o :: next) =
    if isYieldOp o then
      match anc with
      | [] => Undefined
      | (parentKind, afterParent) :: anc' =>
          if isIfKind parentKind then
            '(visited, _) ← opsAfterIf anc' afterParent;
            Finished (o :: visited, next)
          else Thrown (notNestedInIfs (op_loc o))
      end
    else
      '(visited, rest) ← opsAfterIf anc next;
      Finished (o :: visited, rest).
Proof. by destruct anc as [|[??]?]. Qed.

Lemma potential_yieldFree (b : list op) (c c' : nat) :
  yieldFree b = true → potential c b = potential c' b.
Proof.
  unfold yieldFree. induction b as [|o b IH]; [done|]. cbn [forallb].
  intros [Hy Hb]%andb_true_iff. rewrite !potential_cons.
  apply negb_true_iff in Hy. rewrite Hy. unfold tot, chain. by rewrite (IH Hb).
Qed.

(** The potential of the operations behind an if is that of the operations
    the first loop of [rectifyIfCaseWithoutReturnOp] visits. *)
Lemma opsAfterIf_chain (anc : ancestors) :
  ∀ next visited rest,
    opsAfterIf anc next = Finished (visited, rest) →
    chain (cont anc) next = chain 0 (dropYields visited).
Proof.
  induction anc as [|[k after] anc IHanc];
    (induction next as [|o next IHnext]; intros visited rest;
     [rewrite opsAfterIf_nil; by intros [= <- <-]|]);
    rewrite opsAfterIf_cons; unfold chain; rewrite potential_cons;
    destruct (isYieldOp o) eqn:Hy; try done.
  - destruct (opsAfterIf [] next) as [[vis' rest']| | |] eqn:E; try done.
    cbn [mbind outcome_bind]. intros [= <- <-]. cbn [dropYields snd].
    rewrite Hy, potential_cons, Hy. cbn [snd].
    unfold chain in IHnext |- *. by rewrite (IHnext _ _ eq_refl).
  - cbn [cont snd]. destruct (isIfKind k); [|done].
    destruct (opsAfterIf anc after) as [[vis' rest']| | |] eqn:E; try done.
    cbn [mbind outcome_bind]. intros [= <- <-]. cbn [dropYields]. rewrite Hy.
    by apply (IHanc _ _ _ E).
  - destruct (opsAfterIf _ next) as [[vis' rest']| | |] eqn:E; try done.
    cbn [mbind outcome_bind]. intros [= <- <-]. cbn [dropYields snd].
    rewrite Hy, potential_cons, Hy. cbn [snd].
    unfold chain in IHnext |- *. by rewrite (IHnext _ _ eq_refl).
Qed.

Lemma yieldOnlyLast_cons (o : op) (b : list op) :
  yieldOnlyLast (o :: b) = true → yieldOnlyLast b = true ∧ (isYieldOp o = true → b = []).
Proof.
  cbn. destruct b as [|o' b']; [done|].
  intros [Hy Hb]%andb_true_iff. split; [done|]. apply negb_true_iff in Hy. congruence.
Qed.

Lemma yieldOnlyLast_app_yieldFree (z b : list op) :
  yieldFree z = true → yieldOnlyLast b = true → yieldOnlyLast (z ++ b) = true.
Proof.
  unfold yieldFree. induction z as [|o z IH]; [done|]. cbn [forallb app].
  intros [Hy Hz]%andb_true_iff Hb. specialize (IH Hz Hb).
  cbn. destruct (z ++ b); [done|]. by rewrite Hy.
Qed.

Lemma yieldOnlyLast_app_inv (z : list op) (o : op) (b : list op) :
  yieldOnlyLast (z ++ o :: b) = true → yieldFree z = true ∧ yieldOnlyLast (o :: b) = true.
Proof.
  induction z as [|o' z IH]; [done|]. cbn [app]. intros H.
  apply yieldOnlyLast_cons in H as H'. destruct H' as [Hz Hnil].
  destruct (IH Hz) as [Hz' Hb]. split; [|done].
  unfold yieldFree in *. cbn. rewrite Hz', andb_true_r.
  destruct (isYieldOp o') eqn:E; [|done]. specialize (Hnil eq_refl). by destruct z.
Qed.

Lemma opsAfterIf_rest (anc : ancestors) (next visited rest : list op) :
  yieldOnlyLast next = true →
  opsAfterIf anc next = Finished (visited, rest) → rest = [].
Proof.
  revert visited rest. induction next as [|o next IH]; intros visited rest Hy.
  - rewrite opsAfterIf_nil. by intros [= <- <-].
  - rewrite opsAfterIf_cons. apply yieldOnlyLast_cons in Hy as [Hy Hnil].
    destruct (isYieldOp o).
    + destruct anc as [|[k after] anc]; [done|]. destruct (isIfKind k); [|done].
      destruct (opsAfterIf anc after) as [[vis' rest']| | |]; try done.
      cbn. intros [= <- <-]. by apply Hnil.
    + destruct (opsAfterIf anc next) as [[vis' rest']| | |] eqn:E; try done.
      cbn. intros [= <- <-]. by eapply IH.
Qed.

Lemma wfBlock_forallb (b : list op) : wfBlock b = true → forallb wfOp b = true.
Proof. unfold wfBlock. by intros [? _]%andb_true_iff. Qed.

Lemma opsAfterIf_wf (anc : ancestors) :
  ∀ next visited rest,
    wfAncestors anc = true → forallb wfOp next = true →
    opsAfterIf anc next = Finished (visited, rest) →
    forallb wfOp visited = true.
Proof.
  induction anc as [|[k after] anc IHanc];
    (induction next as [|o next IHnext]; intros visited rest Hanc Hnext;
     [rewrite opsAfterIf_nil; by intros [= <- <-]|]);
    rewrite opsAfterIf_cons; cbn in Hnext;
    apply andb_true_iff in Hnext as [Ho Hnext];
    destruct (isYieldOp o) eqn:Hy; try done.
  - destruct (opsAfterIf [] next) as [[vis' rest']| | |] eqn:E; try done.
    cbn [mbind outcome_bind]. intros [= <- <-]. cbn. rewrite Ho. by eapply IHnext.
  - destruct (isIfKind k); [|done].
    destruct (opsAfterIf anc after) as [[vis' rest']| | |] eqn:E; try done.
    cbn [mbind outcome_bind]. intros [= <- <-]. cbn. rewrite Ho. cbn.
    cbn in Hanc. apply andb_true_iff in Hanc as [Hafter Hanc].
    eapply IHanc; [done| |done]. by apply wfBlock_forallb.
  - destruct (opsAfterIf _ next) as [[vis' rest']| | |] eqn:E; try done.
    cbn [mbind outcome_bind]. intros [= <- <-]. cbn. rewrite Ho. by eapply IHnext.
Qed.

(** A block that ends in a return, against the same block ending in a yield
    that leads on to a return. *)
Lemma potential_last (l : list op) (R Y : op) (c : nat) :
  yieldFree l = true → isReturnOp R = true → isYieldOp Y = true →
  potential c (l ++ [R]) = (tot 1 (l ++ [Y]) + 1, tot 1 (l ++ [Y]) + 1)
  ∧ chain 1 (l ++ [Y]) = tot 1 (l ++ [Y]) + 1.
Proof.
  intros Hl HR HY. unfold yieldFree in Hl.
  assert (HRy : isYieldOp R = false).
  { destruct R as [k ??]. unfold isReturnOp, isYieldOp in *. cbn in *.
    apply bool_decide_eq_true in HR as ->. done. }
  induction l as [|o l IH].
  - cbn [app]. unfold tot, chain. rewrite !potential_cons, HRy, HY.
    unfold tot, chain. rewrite !potential_nil. cbn [fst snd].
    rewrite weight_return by done. done.
  - cbn [forallb] in Hl. apply andb_true_iff in Hl as [Ho Hl].
    destruct (IH Hl) as [IH1 IH2]. apply negb_true_iff in Ho.
    cbn [app]. unfold tot, chain in *. rewrite !potential_cons, Ho.
    unfold tot, chain. rewrite IH1. cbn [fst snd]. rewrite IH2. split; [f_equal; lia|lia].
Qed.

Lemma firstReturn_Some (b : list op) (i : nat) :
  firstReturn b = Some i →
  ∃ R, b !! i = Some R ∧ isReturnOp R = true
       ∧ take (S i) b = take i b ++ [R]
       ∧ forallb (λ o, negb (isReturnOp o)) (take i b) = true.
Proof.
  revert i. induction b as [|o b IH]; intros i; [done|]. cbn.
  destruct (isReturnOp o) eqn:E.
  - intros [= <-]. by exists o.
  - destruct (firstReturn b) as [j|]; [|done]. cbn. intros [= <-].
    destruct (IH j eq_refl) as (R & HR & HisR & Htake & Hpre).
    exists R. cbn. rewrite E, Htake. done.
Qed.

Lemma firstReturn_None (b : list op) :
  firstReturn b = None → forallb (λ o, negb (isReturnOp o)) b = true.
Proof.
  induction b as [|o b IH]; [done|]. cbn. destruct (isReturnOp o); [done|].
  destruct (firstReturn b); [done|]. intros _. by apply IH.
Qed.

Lemma returnsDirect_returnFree (b : list op) :
  returnsDirect b = true → forallb (λ o, negb (isReturnOp o)) b = true →
  returnFree b = true.
Proof.
  unfold returnsDirect, returnFree. induction b as [|o b IH]; [done|]. cbn.
  intros [Ho Hb]%andb_true_iff [Hn Hb']%andb_true_iff.
  rewrite IH by done. apply negb_true_iff in Hn. rewrite Hn in Ho. cbn in Ho.
  by rewrite Ho.
Qed.

Lemma returnsDirect_take (b : list op) (i : nat) :
  returnsDirect b = true → returnsDirect (take i b) = true.
Proof.
  unfold returnsDirect. revert i. induction b as [|o b IH]; intros [|i]; try done.
  cbn. intros [Ho Hb]%andb_true_iff. by rewrite Ho, IH.
Qed.

Lemma wfOp_take (b : list op) (i : nat) :
  forallb wfOp b = true → forallb wfOp (take i b) = true.
Proof.
  revert i. induction b as [|o b IH]; intros [|i]; try done.
  cbn. intros [Ho Hb]%andb_true_iff. by rewrite Ho, IH.
Qed.

Lemma yieldFree_take_lt (b : list op) (i : nat) :
  yieldOnlyLast b = true → i < length b → yieldFree (take i b) = true.
Proof.
  revert i. induction b as [|o b IH]; intros [|i]; try done. cbn [length take].
  intros Hy Hi. apply yieldOnlyLast_cons in Hy as H. destruct H as [Hb Hnil].
  cbn. rewrite IH by (done || lia). rewrite andb_true_r.
  destruct (isYieldOp o); [|done]. rewrite Hnil in Hi by done. cbn in Hi. lia.
Qed.

(** *** The two ways of [rectifyCase] *)

Lemma rectifyCase_return (case : string) (loc : location) (anc : ancestors)
    (b next : list op) (i : nat) :
  firstReturn b = Some i →
  ∃ R, b !! i = Some R ∧ isReturnOp R = true ∧
    rectifyCase case loc anc b next =
      Finished (take i b ++ [Op scf_yield (op_loc R) []], next).
Proof.
  intros Hi. destruct (firstReturn_Some _ _ Hi) as (R & HR & HisR & Htake & _).
  exists R. split; [done|]. split; [done|].
  unfold rectifyCase. rewrite Hi. cbn [mbind outcome_bind].
  unfold removeOperationsBeforeReturnOp. rewrite Htake, last_snoc, HisR.
  by rewrite removelast_last.
Qed.

Lemma rectifyCase_noReturn (case : string) (loc : location) (anc : ancestors)
    (b next b' next' : list op) :
  firstReturn b = None →
  rectifyCase case loc anc b next = Finished (b', next') →
  ∃ visited l R,
    opsAfterIf anc next = Finished (visited, next')
    ∧ dropYields b ++ dropYields visited = l ++ [R]
    ∧ isReturnOp R = true
    ∧ b' = l ++ [Op scf_yield (op_loc R) []].
Proof.
  intros Hnone. unfold rectifyCase, rectifyIfCaseWithoutReturnOp. rewrite Hnone.
  destruct (opsAfterIf anc next) as [[visited rest]| | |] eqn:E; try done.
  cbn [mbind outcome_bind].
  set (caseBlock := if from_option isYieldOp false (last b) then b
                    else b ++ [Op scf_yield unknownLoc []]).
  destruct (eraseYields _ (caseBlock ++ visited)) as [blk| | |] eqn:Eerase; try done.
  cbn [mbind outcome_bind].
  apply eraseYields_dropYields in Eerase.
  assert (Hcase : dropYields caseBlock = dropYields b).
  { unfold caseBlock. destruct (from_option _ _ _); [done|].
    rewrite dropYields_app. cbn. by rewrite app_nil_r. }
  rewrite dropYields_app, Hcase in Eerase.
  destruct (last blk) as [o|] eqn:Elast; [|done].
  destruct (isReturnOp o) eqn:Eo; [|done].
  intros [= <- <-]. apply last_Some in Elast as [l Hl].
  exists visited, l, o. rewrite <- Eerase, Hl. by rewrite removelast_last.
Qed.

Lemma tot_hasReturn (b : list op) (c : nat) :
  forallb wfOp b = true → existsb hasReturn b = true → 1 ≤ tot c b.
Proof.
  unfold tot. induction b as [|o b IH]; [done|]. cbn [forallb existsb].
  intros [Ho Hb]%andb_true_iff Hret. rewrite potential_cons.
  destruct (isYieldOp o) eqn:Hy; cbn [fst].
  - apply IH; [done|]. apply orb_true_iff in Hret as [Hro|?]; [|done].
    destruct o as [k l rs]. unfold isYieldOp in Hy. cbn in Hy.
    apply bool_decide_eq_true in Hy as ->. rewrite wfOp_unfold in Ho.
    apply andb_true_iff in Ho as [Hk _]. cbn in Hk. apply bool_decide_eq_true in Hk.
    by destruct rs.
  - apply orb_true_iff in Hret as [Hro|Hrb].
    + pose proof (weight_hasReturn o (chain c b) Ho Hro). lia.
    + specialize (IH Hb Hrb). unfold tot. lia.
Qed.

Lemma forallb_app_inv {A : Type} (p : A → bool) (l1 l2 : list A) :
  forallb p (l1 ++ l2) = true → forallb p l1 = true ∧ forallb p l2 = true.
Proof. rewrite forallb_app. apply andb_true_iff. Qed.

Lemma forallb_dropYields (p : op → bool) (b : list op) :
  forallb p b = true → forallb p (dropYields b) = true.
Proof.
  induction b as [|o b IH]; [done|]. cbn. intros [Ho Hb]%andb_true_iff.
  destruct (isYieldOp o); cbn; [by apply IH|]. by rewrite Ho, IH.
Qed.

Lemma potential_yieldAt (loc : location) (c : nat) : potential c [yieldAt loc] = (0, c).
Proof. done. Qed.

Lemma existsb_hasReturn_returnFree (b : list op) :
  returnFree b = true → existsb hasReturn b = false.
Proof.
  unfold returnFree. induction b as [|o b IH]; [done|]. cbn.
  intros [Ho Hb]%andb_true_iff. apply negb_true_iff in Ho. by rewrite Ho, IH.
Qed.

(** The branch with a return: cut behind its first return. *)
Lemma branch_with_return (t : list op) (i : nat) (R : op) (loc : location) :
  wfBlock t = true → returnsDirect t = true →
  firstReturn t = Some i → t !! i = Some R →
  wfBlock (take i t ++ [yieldAt loc]) = true
  ∧ existsb hasReturn (take i t ++ [yieldAt loc]) = false
  ∧ (∀ x, tot x (take i t ++ [yieldAt loc]) = 0)
  ∧ (∀ x, 1 ≤ tot x t).
Proof.
  intros Hwf Hdir Hi HR. apply andb_true_iff in Hwf as [Hops Hyl].
  destruct (firstReturn_Some _ _ Hi) as (R' & HR' & HisR & Htake & Hpre).
  assert (Hfree : returnFree (take i t) = true).
  { apply returnsDirect_returnFree; [by apply returnsDirect_take|done]. }
  assert (Hyf : yieldFree (take i t) = true).
  { apply yieldFree_take_lt; [done|]. by eapply lookup_lt_Some. }
  repeat split.
  - unfold wfBlock. rewrite forallb_app, wfOp_take by done. cbn.
    by apply yieldOnlyLast_app_yieldFree.
  - rewrite existsb_app, existsb_hasReturn_returnFree by done. done.
  - intros x. unfold tot. rewrite potential_skip by done. done.
  - intros x. apply tot_hasReturn; [done|].
    apply existsb_exists. exists R'. split.
    + apply list_elem_of_In. by eapply list_elem_of_lookup_2.
    + by apply isReturnOp_hasReturn.
Qed.

Lemma returnFree_dropYields (b : list op) :
  returnFree b = true → returnFree (dropYields b) = true.
Proof. apply forallb_dropYields. Qed.

Lemma app_snoc_returnFree (z v l : list op) (R : op) :
  returnFree z = true → isReturnOp R = true → z ++ v = l ++ [R] →
  ∃ l2, v = l2 ++ [R] ∧ l = z ++ l2.
Proof.
  intros Hz HR Heq. destruct v as [|o v _] using rev_ind.
  - rewrite app_nil_r in Heq. subst z. unfold returnFree in Hz.
    rewrite forallb_app in Hz. apply andb_true_iff in Hz as [_ Hz]. cbn in Hz.
    by rewrite (isReturnOp_hasReturn _ HR) in Hz.
  - rewrite app_assoc in Heq. apply app_inj_tail in Heq as [<- <-]. by exists v.
Qed.

(** The branch without a return: the operations behind the if are put
    behind it. *)
Lemma branch_without_return (case : string) (loc : location) (anc : ancestors)
    (e next e' next' : list op) :
  wfBlock e = true → returnsDirect e = true → firstReturn e = None →
  wfAncestors anc = true → wfBlock next = true →
  rectifyCase case loc anc e next = Finished (e', next') →
  next' = []
  ∧ wfBlock e' = true
  ∧ tot 1 e' + 1 = chain (cont anc) next
  ∧ (existsb hasReturn e' = true → 1 ≤ tot 1 e')
  ∧ (∀ x, tot x e = 0).
Proof.
  intros Hwf Hdir Hnone Hanc Hnext Hcase.
  apply andb_true_iff in Hwf as [Hops Hyl].
  apply andb_true_iff in Hnext as [Hnops Hnyl].
  destruct (rectifyCase_noReturn _ _ _ _ _ _ _ Hnone Hcase)
    as (visited & l & R & Hvis & Hl & HR & ->).
  assert (Hfree : returnFree e = true).
  { apply returnsDirect_returnFree; [done|by apply firstReturn_None]. }
  destruct (app_snoc_returnFree _ _ _ _ (returnFree_dropYields _ Hfree) HR Hl)
    as (l2 & Hl2 & ->).
  pose proof (opsAfterIf_wf _ _ _ _ Hanc Hnops Hvis) as Hwfvis.
  pose proof (forallb_dropYields _ _ Hwfvis) as Hwfvis'. rewrite Hl2 in Hwfvis'.
  apply forallb_app_inv in Hwfvis' as [Hwfl2 _].
  pose proof (dropYields_yieldFree visited) as Hyfvis. rewrite Hl2 in Hyfvis.
  unfold yieldFree in Hyfvis. apply forallb_app_inv in Hyfvis as [Hyfl2 _].
  pose proof (dropYields_yieldFree e) as Hyfe.
  destruct (potential_last l2 R (yieldAt (op_loc R)) 0 Hyfl2 HR eq_refl) as [Hpot Hch].
  assert (Hskip : ∀ x, potential x ((dropYields e ++ l2) ++ [yieldAt (op_loc R)])
                     = potential x (l2 ++ [yieldAt (op_loc R)])).
  { intros x. rewrite <- app_assoc.
    apply potential_skip; [by apply returnFree_dropYields|done]. }
  split; [by eapply opsAfterIf_rest|]. split; [|split; [|split]].
  - unfold wfBlock. rewrite !forallb_app, forallb_dropYields, Hwfl2 by done. cbn.
    apply yieldOnlyLast_app_yieldFree; [|done].
    unfold yieldFree in *. by rewrite forallb_app, Hyfl2, Hyfe.
  - unfold tot. rewrite Hskip. fold (tot 1 (l2 ++ [yieldAt (op_loc R)])).
    rewrite (opsAfterIf_chain _ _ _ _ Hvis), Hl2. unfold chain. by rewrite Hpot.
  - unfold tot. rewrite Hskip. fold (tot 1 (l2 ++ [yieldAt (op_loc R)])).
    rewrite <- app_assoc, existsb_app.
    rewrite (existsb_hasReturn_returnFree _ (returnFree_dropYields _ Hfree)).
    cbn [orb]. intros Hret. apply tot_hasReturn; [|done].
    rewrite forallb_app, Hwfl2. done.
  - intros x. by apply tot_returnFree.
Qed.

Lemma firstReturn_hasReturn (b : list op) :
  firstReturn b ≠ None → existsb hasReturn b = true.
Proof.
  induction b as [|o b IH]; [done|]. cbn. destruct (isReturnOp o) eqn:E.
  - intros _. by rewrite (isReturnOp_hasReturn _ E).
  - destruct (firstReturn b); [|done]. intros _. rewrite IH by done. apply orb_true_r.
Qed.

Lemma tot_cons (c : nat) (o : op) (b : list op) :
  isYieldOp o = false → tot c (o :: b) = weight o (chain c b) + tot c b.
Proof. intros H. unfold tot at 1. by rewrite potential_cons, H. Qed.

Lemma chain_cons (c : nat) (o : op) (b : list op) :
  isYieldOp o = false → chain c (o :: b) = weight o (chain c b) + chain c b.
Proof. intros H. unfold chain at 1. by rewrite potential_cons, H. Qed.

Lemma tot_return_cons (c : nat) (l : location) (b : list op) :
  tot c (Op daphne_return l [] :: b) = 1 + tot c b.
Proof. by rewrite tot_cons. Qed.

Lemma chain_return_cons (c : nat) (l : location) (b : list op) :
  chain c (Op daphne_return l [] :: b) = 1 + chain c b.
Proof. by rewrite chain_cons. Qed.

Lemma weight_if2 (loc : location) (t e : list op) (c : nat) :
  weight (Op scf_if loc [t; e]) c =
    if existsb hasReturn t || existsb hasReturn e
    then 1 + (tot c t + c) + (tot c e + c) else 0.
Proof. rewrite weight_unfold. cbn [existsb]. by rewrite orb_false_r. Qed.

Lemma existsb_hasReturn_second (o : op) (l : location) (b : list op) :
  existsb hasReturn (o :: Op daphne_return l [] :: b) = true.
Proof.
  cbn [existsb]. rewrite (hasReturn_unfold daphne_return).
  rewrite bool_decide_true by done. cbn [orb]. apply orb_true_r.
Qed.

Lemma wfBlock_rectified (loc lP : location) (t e b : list op) :
  wfBlock t = true → wfBlock e = true → wfBlock b = true →
  wfBlock (Op scf_if loc [t; e] :: Op daphne_return lP [] :: b) = true.
Proof.
  intros Ht He Hb. apply andb_true_iff in Hb as [Hops Hyl].
  unfold wfBlock. cbn [forallb]. rewrite wfOp_unfold.
  cbn [kindAllows length forallb]. fold (wfBlock t) (wfBlock e).
  rewrite Ht, He, Hops. cbn. by destruct b.
Qed.

(** One application of [rectifyEarlyReturn] to an if whose returns all sit
    directly in its branches. *)
Lemma rectifyEarlyReturn_decreases (lP : location) (rs : list (list op))
    (post : list op) (anc : ancestors) (new : list op) :
  wfOp (Op scf_if lP rs) = true → wfBlock post = true → wfAncestors anc = true →
  returnsDirect (default [] (rs !! 0)) = true →
  returnsDirect (default [] (rs !! 1)) = true →
  (firstReturn (default [] (rs !! 0)) ≠ None ∨ firstReturn (default [] (rs !! 1)) ≠ None) →
  rectifyEarlyReturn (Op scf_if lP rs) post anc = Finished new →
  wfBlock new = true
  ∧ existsb hasReturn new = true
  ∧ tot (cont anc) new < tot (cont anc) (Op scf_if lP rs :: post)
  ∧ chain (cont anc) new ≤ chain (cont anc) (Op scf_if lP rs :: post).
Proof.
  intros HwfP Hwfpost Hanc HdirT HdirE Hhas.
  set (c := cont anc).
  assert (∃ t e, default [] (rs !! 0) = t ∧ default [] (rs !! 1) = e
                 ∧ wfBlock t = true ∧ wfBlock e = true
                 ∧ weight (Op scf_if lP rs) (chain c post)
                   = if existsb hasReturn t || existsb hasReturn e
                     then 1 + (tot (chain c post) t + chain c post)
                            + (tot (chain c post) e + chain c post)
                     else 0)
    as (t & e & Ht & He & Hwft & Hwfe & HwP).
  { rewrite wfOp_unfold in HwfP. apply andb_true_iff in HwfP as [Hk Hrs].
    cbn in Hk. apply bool_decide_eq_true in Hk.
    destruct rs as [|t [|e [|??]]]; cbn in Hk; try lia.
    - exists t, []. cbn [forallb] in Hrs. rewrite andb_true_r in Hrs.
      split; [done|]. split; [done|]. split; [done|]. split; [done|].
      rewrite weight_unfold. cbn [existsb].
      rewrite !orb_false_r. destruct (existsb hasReturn t); [|done].
      change (tot (chain c post) []) with 0. lia.
    - exists t, e. cbn [forallb] in Hrs. rewrite andb_true_r in Hrs.
      apply andb_true_iff in Hrs as [??].
      split; [done|]. split; [done|]. split; [done|]. split; [done|].
      apply weight_if2. }
  rewrite Ht, He in *.
  assert (Hret : existsb hasReturn t || existsb hasReturn e = true).
  { apply orb_true_iff.
    destruct Hhas as [H|H]; [left|right]; by apply firstReturn_hasReturn. }
  rewrite Hret in HwP.
  unfold rectifyEarlyReturn. cbn [op_regions op_loc]. rewrite Ht, He.
  rewrite (tot_cons c (Op scf_if lP rs)), (chain_cons c (Op scf_if lP rs)) by done.
  rewrite HwP. clear HwP.
  set (cp := chain c post) in *.
  destruct (firstReturn t) as [i|] eqn:Ei; destruct (firstReturn e) as [j|] eqn:Ej.
  - (* both branches return *)
    destruct (rectifyCase_return "then" lP anc t post i Ei) as (R1 & HR1 & _ & ->).
    cbn [mbind outcome_bind].
    destruct (rectifyCase_return "else" lP anc e post j Ej) as (R2 & HR2 & _ & ->).
    cbn [mbind outcome_bind]. intros [= <-].
    destruct (branch_with_return t i R1 (op_loc R1) Hwft HdirT Ei HR1)
      as (Hwft' & Hrt' & Htot' & Htot).
    destruct (branch_with_return e j R2 (op_loc R2) Hwfe HdirE Ej HR2)
      as (Hwfe' & Hre' & Hetot' & Hetot).
    fold (yieldAt (op_loc R1)) (yieldAt (op_loc R2)).
    split; [by apply wfBlock_rectified|].
    split; [apply existsb_hasReturn_second|].
    rewrite !tot_cons, !chain_cons by done.
    rewrite !(weight_return (Op daphne_return lP [])) by done.
    rewrite weight_if2, Hrt', Hre'. cbn [orb]. fold cp.
    pose proof (Htot cp). pose proof (Hetot cp). lia.
  - (* the then-branch returns, the else-branch goes on *)
    destruct (rectifyCase_return "then" lP anc t post i Ei) as (R1 & HR1 & _ & ->).
    cbn [mbind outcome_bind].
    destruct (rectifyCase "else" lP anc e post) as [[e' next2]| | |] eqn:Eelse; try done.
    cbn [mbind outcome_bind]. intros [= <-].
    destruct (branch_with_return t i R1 (op_loc R1) Hwft HdirT Ei HR1)
      as (Hwft' & Hrt' & Htot' & Htot).
    destruct (branch_without_return _ _ _ _ _ _ _ Hwfe HdirE Ej Hanc Hwfpost Eelse)
      as (-> & Hwfe' & Hch & Hge & Hetot).
    fold (yieldAt (op_loc R1)). fold c cp in Hch.
    split; [by apply wfBlock_rectified|].
    split; [apply existsb_hasReturn_second|].
    rewrite !tot_cons, !chain_cons by done.
    rewrite !(weight_return (Op daphne_return lP [])) by done.
    change (tot c []) with 0. change (chain c []) with 0.
    rewrite weight_if2, Hrt'. cbn [orb]. rewrite Htot'.
    pose proof (Htot cp). rewrite Hetot.
    change (1 + 0) with 1.
    destruct (existsb hasReturn e'); [specialize (Hge eq_refl)|]; lia.
  - (* the then-branch goes on, the else-branch returns *)
    destruct (rectifyCase "then" lP anc t post) as [[t' next1]| | |] eqn:Ethen; try done.
    cbn [mbind outcome_bind].
    destruct (branch_without_return _ _ _ _ _ _ _ Hwft HdirT Ei Hanc Hwfpost Ethen)
      as (-> & Hwft' & Hch & Hge & Htot).
    destruct (rectifyCase_return "else" lP anc e [] j Ej) as (R2 & HR2 & _ & ->).
    cbn [mbind outcome_bind]. intros [= <-].
    destruct (branch_with_return e j R2 (op_loc R2) Hwfe HdirE Ej HR2)
      as (Hwfe' & Hre' & Hetot' & Hetot).
    fold (yieldAt (op_loc R2)). fold c cp in Hch.
    split; [by apply wfBlock_rectified|].
    split; [apply existsb_hasReturn_second|].
    rewrite !tot_cons, !chain_cons by done.
    rewrite !(weight_return (Op daphne_return lP [])) by done.
    change (tot c []) with 0. change (chain c []) with 0.
    rewrite weight_if2, Hre', orb_false_r. rewrite Hetot'.
    pose proof (Hetot cp). rewrite Htot.
    change (1 + 0) with 1.
    destruct (existsb hasReturn t'); [specialize (Hge eq_refl)|]; lia.
  - by destruct Hhas.
Qed.

(** *** Descending to the if *)

Lemma potential_prefix (pre x x' : list op) (c : nat) :
  tot c x' < tot c x → chain c x' ≤ chain c x →
  tot c (pre ++ x') < tot c (pre ++ x) ∧ chain c (pre ++ x') ≤ chain c (pre ++ x).
Proof.
  intros Ht Hc. induction pre as [|o pre [IHt IHc]]; [done|].
  cbn [app]. unfold tot, chain. rewrite !potential_cons.
  destruct (isYieldOp o); cbn [fst snd]; [by split|].
  pose proof (weight_mono o _ _ IHc). split; lia.
Qed.

Lemma existsb_hasReturn_app (b1 b2 : list op) :
  existsb hasReturn b2 = true → existsb hasReturn (b1 ++ b2) = true.
Proof. intros H. rewrite existsb_app, H. apply orb_true_r. Qed.

Lemma wfBlock_middle (pre : list op) (o : op) (post : list op) :
  wfBlock (pre ++ o :: post) = true →
  forallb wfOp pre = true ∧ yieldFree pre = true ∧ wfOp o = true ∧ wfBlock post = true.
Proof.
  intros H. apply andb_true_iff in H as [Hops Hyl].
  apply forallb_app_inv in Hops as [Hpre Hrest]. cbn [forallb] in Hrest.
  apply andb_true_iff in Hrest as [Ho Hpost].
  apply yieldOnlyLast_app_inv in Hyl as [Hyf Hyl].
  apply yieldOnlyLast_cons in Hyl as [Hyl _].
  repeat split; try done. by apply andb_true_iff.
Qed.

Lemma wfBlock_app (pre new : list op) :
  forallb wfOp pre = true → yieldFree pre = true → wfBlock new = true →
  wfBlock (pre ++ new) = true.
Proof.
  intros Hpre Hyf Hnew. apply andb_true_iff in Hnew as [Hops Hyl].
  apply andb_true_iff. split.
  - by rewrite forallb_app, Hpre, Hops.
  - by apply yieldOnlyLast_app_yieldFree.
Qed.

Lemma wfBlock_cons_same (o o' : op) (post : list op) :
  wfBlock (o :: post) = true → wfOp o' = true → isYieldOp o' = isYieldOp o →
  wfBlock (o' :: post) = true.
Proof.
  intros H Ho' Hy. apply andb_true_iff in H as [Hops Hyl].
  cbn [forallb] in Hops. apply andb_true_iff in Hops as [_ Hpost].
  apply andb_true_iff. split.
  - cbn [forallb]. by rewrite Ho', Hpost.
  - destruct post; [done|]. cbn [yieldOnlyLast] in *. by rewrite Hy.
Qed.

Lemma existsb_hasReturn_tot (b : list op) (c : nat) :
  0 < tot c b → existsb hasReturn b = true.
Proof.
  intros H. destruct (existsb hasReturn b) eqn:E; [done|].
  assert (returnFree b = true) as Hrf.
  { unfold returnFree. apply forallb_forall. intros o Ho.
    destruct (hasReturn o) eqn:Eo; [|done].
    assert (existsb hasReturn b = true) by (apply existsb_exists; eauto). congruence. }
  rewrite (tot_returnFree _ _ Hrf) in H. lia.
Qed.

Lemma regionsWeight_insert (rs : list (list op)) (r : nat) (inner inner' : list op) :
  rs !! r = Some inner → tot 0 inner' < tot 0 inner →
  regionsWeight (<[r := inner']> rs) < regionsWeight rs.
Proof.
  revert r. induction rs as [|b rs IH]; intros [|r] Hr Hlt; try done.
  - injection Hr as ->. change (<[0:=inner']> (inner :: rs)) with (inner' :: rs).
    cbn [regionsWeight]. lia.
  - change (<[S r:=inner']> (b :: rs)) with (b :: <[r:=inner']> rs).
    cbn [regionsWeight]. specialize (IH r Hr Hlt). lia.
Qed.

Lemma forallb_insert {A : Type} (p : A → bool) (l : list A) (i : nat) (x : A) :
  forallb p l = true → p x = true → forallb p (<[i := x]> l) = true.
Proof.
  revert i. induction l as [|y l IH]; intros [|i] Hl Hx; try done.
  - change (<[0:=x]> (y :: l)) with (x :: l). cbn [forallb] in *.
    apply andb_true_iff in Hl as [_ ->]. by rewrite Hx.
  - change (<[S i:=x]> (y :: l)) with (y :: <[i:=x]> l). cbn [forallb] in *.
    apply andb_true_iff in Hl as [-> Hl]. by rewrite IH.
Qed.

Lemma existsb_insert {A : Type} (p : A → bool) (l : list A) (i : nat) (x y : A) :
  l !! i = Some y → p x = true → existsb p (<[i := x]> l) = true.
Proof.
  revert i. induction l as [|z l IH]; intros [|i] Hl Hx; try done.
  - change (<[0:=x]> (z :: l)) with (x :: l). cbn [existsb]. by rewrite Hx.
  - change (<[S i:=x]> (z :: l)) with (z :: <[i:=x]> l). cbn [existsb].
    rewrite (IH i) by done. apply orb_true_r.
Qed.

(** Replacing a region of an operation by a lighter one makes the operation
    lighter. *)
Lemma weight_insert (k : opkind) (l : location) (rs : list (list op)) (r : nat)
    (inner inner' : list op) (c : nat) :
  let cin := if isIfKind k then c else 0 in
  wfOp (Op k l rs) = true → rs !! r = Some inner →
  wfBlock inner' = true → existsb hasReturn inner' = true →
  tot cin inner' < tot cin inner →
  wfOp (Op k l (<[r := inner']> rs)) = true
  ∧ hasReturn (Op k l (<[r := inner']> rs)) = true
  ∧ isYieldOp (Op k l rs) = false
  ∧ weight (Op k l (<[r := inner']> rs)) c < weight (Op k l rs) c.
Proof.
  intros cin Hwf Hr Hwf' Hret Hlt.
  rewrite wfOp_unfold in Hwf. apply andb_true_iff in Hwf as [Hk Hrs].
  assert (Hold : existsb hasReturn inner = true).
  { apply (existsb_hasReturn_tot _ cin). lia. }
  split; [|split; [|split]].
  - rewrite wfOp_unfold. apply andb_true_iff. split.
    + destruct k; cbn in Hk |- *; try done; by rewrite length_insert.
    + by apply forallb_insert.
  - rewrite hasReturn_unfold. rewrite (existsb_insert _ _ _ _ _ Hr Hret).
    apply orb_true_r.
  - destruct k; try done. cbn in Hk. apply bool_decide_eq_true in Hk.
    by destruct rs.
  - rewrite !weight_unfold.
    destruct k; cbn in Hk; try apply bool_decide_eq_true in Hk.
    + by destruct rs.
    + by destruct rs.
    + subst cin. change (isIfKind scf_if) with true in Hlt. cbn match in Hlt.
      rewrite (existsb_insert _ _ _ _ _ Hr Hret).
      assert (existsb (existsb hasReturn) rs = true) as ->.
      { apply existsb_exists. exists inner. split; [|done].
        apply list_elem_of_In. by eapply list_elem_of_lookup_2. }
      destruct rs as [|t [|e [|??]]]; cbn in Hk; try lia.
      * destruct r as [|r]; [|done]. injection Hr as ->. cbn. lia.
      * destruct r as [|[|r]]; [| |done]; injection Hr as ->; cbn; lia.
    + subst cin. by apply (regionsWeight_insert _ _ inner).
    + subst cin. by apply (regionsWeight_insert _ _ inner).
Qed.

Lemma wfBlock_drop (b : list op) (n : nat) : wfBlock b = true → wfBlock (drop n b) = true.
Proof.
  revert b. induction n as [|n IH]; intros b H; [by rewrite drop_0|].
  destruct b as [|o b]; [done|]. cbn [drop]. apply IH.
  apply andb_true_iff in H as [Hops Hyl]. cbn [forallb] in Hops.
  apply andb_true_iff in Hops as [_ Hops].
  apply yieldOnlyLast_cons in Hyl as [Hyl _]. by apply andb_true_iff.
Qed.

(** The rewrite step at an if whose returns all sit directly in its branches
    keeps the block well formed and makes it lighter. *)
Lemma rectifyEarlyReturnAt_decreases (p : path) :
  ∀ (anc : ancestors) (b b' : list op),
    wfBlock b = true → wfAncestors anc = true → leadsTo directReturns p b →
    rectifyEarlyReturnAt p anc b = Finished b' →
    wfBlock b' = true
    ∧ existsb hasReturn b' = true
    ∧ tot (cont anc) b' < tot (cont anc) b
    ∧ chain (cont anc) b' ≤ chain (cont anc) b.
Proof.
  induction p as [|[i r] p' IH]; intros anc b b' Hwf Hanc Hlead Hrun; [done|].
  cbn [leadsTo rectifyEarlyReturnAt] in Hlead, Hrun.
  destruct (b !! i) as [o|] eqn:Hi; [|done].
  assert (Hb : take i b ++ o :: drop (S i) b = b) by (by apply take_drop_middle).
  assert (Hparts := Hwf). rewrite <- Hb in Hparts.
  apply wfBlock_middle in Hparts as (Hpre & Hyf & Ho & Hpost).
  destruct p' as [|q p''].
  - destruct Hlead as (Hk & HdT & HdE & Hfirst).
    destruct (rectifyEarlyReturn o (drop (S i) b) anc) as [new| | |] eqn:E; try done.
    cbn [mbind outcome_bind] in Hrun. injection Hrun as <-.
    destruct o as [k l rs]. cbn [op_kind op_regions] in *. subst k.
    destruct (rectifyEarlyReturn_decreases _ _ _ _ _ Ho Hpost Hanc HdT HdE Hfirst E)
      as (Hwfnew & Hretnew & Htot & Hchain).
    split; [by apply wfBlock_app|]. split; [by apply existsb_hasReturn_app|].
    pose proof (potential_prefix (take i b) (Op scf_if l rs :: drop (S i) b)
                  new (cont anc)) as Hlift.
    rewrite Hb in Hlift. by apply Hlift.
  - destruct (op_regions o !! r) as [inner|] eqn:Hr; [|done].
    destruct (rectifyEarlyReturnAt (q :: p'') ((op_kind o, drop (S i) b) :: anc) inner)
      as [inner'| | |] eqn:E; try done.
    cbn [mbind outcome_bind] in Hrun. injection Hrun as <-.
    destruct o as [k l rs]. cbn [op_kind op_regions op_loc] in *.
    assert (Hwfinner : wfBlock inner = true).
    { rewrite wfOp_unfold in Ho. apply andb_true_iff in Ho as [_ Hrs].
      rewrite forallb_forall in Hrs. apply Hrs.
      apply list_elem_of_In. by eapply list_elem_of_lookup_2. }
    assert (Hanc' : wfAncestors ((k, drop (S i) b) :: anc) = true).
    { unfold wfAncestors. cbn [forallb snd]. fold (wfAncestors anc).
      by rewrite Hpost, Hanc. }
    destruct (IH _ _ _ Hwfinner Hanc' Hlead E) as (Hwf' & Hret' & Htot' & _).
    cbn [cont] in Htot'.
    destruct (weight_insert k l rs r inner inner' (chain (cont anc) (drop (S i) b))
                Ho Hr Hwf' Hret' Htot') as (Hwfo' & Hreto' & Hny & Hw).
    set (o' := Op k l (<[r:=inner']> rs)) in *.
    assert (Hlen : i < length b) by (by eapply lookup_lt_Some).
    rewrite insert_take_drop by done.
    assert (Hny' : isYieldOp o' = false) by done.
    split; [|split].
    + apply wfBlock_app; [done..|].
      apply (wfBlock_cons_same (Op k l rs)); [|done|done].
      apply (wfBlock_drop b i) in Hwf. by rewrite (drop_S _ _ _ Hi) in Hwf.
    + apply existsb_hasReturn_app. cbn [existsb]. by rewrite Hreto'.
    + pose proof (potential_prefix (take i b) (Op k l rs :: drop (S i) b)
                    (o' :: drop (S i) b) (cont anc)) as Hlift.
      rewrite Hb in Hlift. apply Hlift.
      * rewrite !tot_cons by done. lia.
      * rewrite !chain_cons by done. lia.
Qed.

(** *** The walk *)

Lemma walkOp_unfold (k : opkind) (l : location) (rs : list (list op)) :
  walkOp (Op k l rs) = walkRegions 0 rs.
Proof. done. Qed.

Lemma walkOps_spec (b : list op) : Forall walkOpSpec b → walkOpsSpec b.
Proof.
  induction 1 as [|o b Ho _ IH]; intros i0 p j.
  - cbn [walkOps]. split; [by intros ?%elem_of_nil|].
    destruct p as [|[i r] p']; [intros (n & o & _ & H & _)|intros (n & o & inner & _ & H & _)];
      by rewrite lookup_nil in H.
  - cbn [walkOps]. rewrite !elem_of_app, list_elem_of_fmap. split.
    + intros [([r pos] & Heq & Hin)|[Hret|Hin]].
      * cbn in Heq. injection Heq as -> ->.
        apply Ho in Hin as (inner & Hr & Hat).
        exists 0, o, inner. rewrite Nat.add_0_r. by repeat split.
      * destruct (isReturnOp o) eqn:E; [|by apply elem_of_nil in Hret].
        apply list_elem_of_singleton in Hret. injection Hret as -> ->.
        exists 0, o. rewrite Nat.add_0_r. by repeat split.
      * apply IH in Hin. destruct p as [|[i r] p'].
        -- destruct Hin as (n & o' & -> & Hn & Hret). exists (S n), o'.
           split; [lia|done].
        -- destruct Hin as (n & o' & inner & -> & Hn & Hr & Hat).
           exists (S n), o', inner. split; [lia|done].
    + destruct p as [|[i r] p'].
      * intros ([|n] & o' & -> & Hn & Hret).
        -- injection Hn as <-. right; left. rewrite Hret, Nat.add_0_r.
           by apply list_elem_of_singleton.
        -- right; right. apply IH. exists n, o'. split; [lia|done].
      * intros ([|n] & o' & inner & -> & Hn & Hr & Hat).
        -- injection Hn as <-. left. exists (r, (p', j)). rewrite Nat.add_0_r.
           split; [done|]. apply Ho. by exists inner.
        -- right; right. apply IH. exists n, o', inner. split; [lia|done].
Qed.

Lemma walkRegions_spec (rs : list (list op)) :
  ∀ r0 r pos, (r, pos) ∈ walkRegions r0 rs ↔
    ∃ n inner, r = r0 + n ∧ rs !! n = Some inner ∧ pos ∈ walkOps 0 inner.
Proof.
  induction rs as [|b rs IH]; intros r0 r pos.
  - cbn [walkRegions]. split; [by intros ?%elem_of_nil|].
    intros (n & inner & _ & H & _). by rewrite lookup_nil in H.
  - cbn [walkRegions]. rewrite elem_of_app, list_elem_of_fmap. split.
    + intros [(pos' & Heq & Hin)|Hin].
      * injection Heq as -> ->. exists 0, b. rewrite Nat.add_0_r. by repeat split.
      * apply IH in Hin as (n & inner & -> & Hn & Hin).
        exists (S n), inner. split; [lia|done].
    + intros ([|n] & inner & -> & Hn & Hin).
      * injection Hn as <-. left. exists pos. by rewrite Nat.add_0_r.
      * right. apply IH. exists n, inner. split; [lia|done].
Qed.

Lemma walkOps_returnAt (b : list op) (pos : position) :
  walkOpsSpec b → (pos ∈ walkOps 0 b ↔ returnAt pos.1 pos.2 b).
Proof.
  intros H. destruct pos as [p j]. rewrite (H 0 p j). cbn [fst snd].
  destruct p as [|[i r] p']; cbn [returnAt].
  - split; [intros (n & o & -> & ?); by exists o|intros (o & ?); by exists j, o].
  - split; [intros (n & o & inner & -> & ?); by exists o, inner
           |intros (o & inner & ?); by exists i, o, inner].
Qed.

Lemma walkOp_spec (o : op) : walkOpSpec o.
Proof.
  induction o as [k l rs IH] using op_ind'. intros r pos.
  rewrite walkOp_unfold, walkRegions_spec. cbn [op_regions]. split.
  - intros (n & inner & -> & Hn & Hin). exists inner. split; [done|].
    apply walkOps_returnAt; [|done]. apply walkOps_spec.
    rewrite Forall_forall in IH. apply IH. by eapply list_elem_of_lookup_2.
  - intros (inner & Hr & Hat). exists r, inner. split; [done|]. split; [done|].
    apply walkOps_returnAt; [|done]. apply walkOps_spec.
    rewrite Forall_forall in IH. apply IH. by eapply list_elem_of_lookup_2.
Qed.

Lemma walk_spec (b : list op) (pos : position) :
  pos ∈ walk b ↔ returnAt pos.1 pos.2 b.
Proof.
  apply walkOps_returnAt, walkOps_spec, Forall_forall. intros o _. apply walkOp_spec.
Qed.

Lemma foldl_deeper (l : list position) :
  ∀ best pos, foldl deeper best l = Some pos →
    (pos ∈ l ∨ best = Some pos)
    ∧ (∀ pos', pos' ∈ l → nested pos' ≤ nested pos)
    ∧ (∀ b0, best = Some b0 → nested b0 ≤ nested pos).
Proof.
  induction l as [|x l IH]; intros best pos Hfold; cbn [foldl] in Hfold.
  - subst best. split; [by right|]. split; [by intros ? ?%elem_of_nil|].
    by intros ? [= ->].
  - destruct (IH _ _ Hfold) as (Hin & Hmax & Hbest).
    assert (nested x ≤ nested pos ∧ ∀ b0, best = Some b0 → nested b0 ≤ nested pos)
      as [Hx Hb0].
    { destruct best as [b0|]; cbn [deeper] in Hbest.
      - destruct (decide (nested b0 < nested x)).
        + specialize (Hbest x eq_refl). split; [done|]. intros ? [= <-]. lia.
        + specialize (Hbest b0 eq_refl). split; [lia|]. by intros ? [= <-].
      - specialize (Hbest x eq_refl). by split. }
    split; [|split; [|done]].
    + destruct Hin as [Hin|Hin]; [left; by apply elem_of_cons; right|].
      destruct best as [b0|]; cbn [deeper] in Hin.
      * destruct (decide (nested b0 < nested x)).
        -- injection Hin as ->. left. by apply elem_of_cons; left.
        -- by right.
      * injection Hin as ->. left. by apply elem_of_cons; left.
    + intros pos' [->|Hin']%elem_of_cons; [done|]. by apply Hmax.
Qed.

Lemma mostNestedReturn_spec (b : list op) (pos : position) :
  mostNestedReturn b = Some pos →
  returnAt pos.1 pos.2 b
  ∧ ∀ p j, returnAt p j b → length p ≤ length pos.1.
Proof.
  intros H. apply foldl_deeper in H as (Hin & Hmax & _).
  destruct Hin as [Hin|?]; [|done]. split; [by apply walk_spec|].
  intros p j Hat. apply (walk_spec b (p, j)) in Hat.
  apply Hmax in Hat. unfold nested in Hat. cbn [fst] in Hat. lia.
Qed.

(** An operation that holds a return and is none has a return in a region. *)
Lemma hasReturn_returnAt (o : op) :
  hasReturn o = true → isReturnOp o = false →
  ∃ r inner p j, op_regions o !! r = Some inner ∧ returnAt p j inner.
Proof.
  induction o as [k l rs IH] using op_ind'. intros Hhas Hnot.
  rewrite hasReturn_unfold in Hhas. unfold isReturnOp in Hnot. cbn [op_kind] in Hnot.
  rewrite Hnot in Hhas. cbn [orb] in Hhas.
  apply existsb_exists in Hhas as (inner & Hinner & Hhas).
  apply existsb_exists in Hhas as (o' & Ho' & Hhas).
  apply list_elem_of_In, list_elem_of_lookup in Hinner as [r Hr].
  apply list_elem_of_In, list_elem_of_lookup in Ho' as [i Hi].
  exists r, inner. cbn [op_regions].
  destruct (isReturnOp o') eqn:Eret.
  - exists [], i. split; [done|]. by exists o'.
  - rewrite Forall_forall in IH.
    assert (Forall (λ o, hasReturn o = true → isReturnOp o = false →
              ∃ r inner p j, op_regions o !! r = Some inner ∧ returnAt p j inner) inner)
      as IHinner by (apply IH; by eapply list_elem_of_lookup_2).
    rewrite Forall_forall in IHinner.
    destruct (IHinner o' ltac:(by eapply list_elem_of_lookup_2) Hhas Eret)
      as (r' & inner' & p & j & Hr' & Hat).
    exists ((i, r') :: p), j. split; [done|]. by exists o', inner'.
Qed.

Lemma firstReturn_lookup (b : list op) (j : nat) (o : op) :
  b !! j = Some o → isReturnOp o = true → firstReturn b ≠ None.
Proof.
  revert j. induction b as [|x b IH]; intros [|j] Hj Hret; try done; cbn in *.
  - injection Hj as ->. by rewrite Hret.
  - destruct (isReturnOp x); [done|]. specialize (IH _ Hj Hret).
    by destruct (firstReturn b).
Qed.

Lemma wfBlock_lookup (b : list op) (i : nat) (o : op) :
  wfBlock b = true → b !! i = Some o → wfOp o = true.
Proof.
  intros H Hi. apply wfBlock_forallb in H. rewrite forallb_forall in H.
  apply H, list_elem_of_In. by eapply list_elem_of_lookup_2.
Qed.

Lemma wfOp_region (k : opkind) (l : location) (rs : list (list op)) (r : nat)
    (inner : list op) :
  wfOp (Op k l rs) = true → rs !! r = Some inner → wfBlock inner = true.
Proof.
  rewrite wfOp_unfold. intros [_ Hrs]%andb_true_iff Hr.
  rewrite forallb_forall in Hrs. apply Hrs, list_elem_of_In.
  by eapply list_elem_of_lookup_2.
Qed.

(** The region of the if of a deepest return holds its returns directly. *)
Lemma returnsDirect_deepest (b : list op) (i r : nat) (o : op) (t : list op) :
  b !! i = Some o → op_regions o !! r = Some t →
  (∀ p j, returnAt p j b → length p ≤ 1) →
  returnsDirect t = true.
Proof.
  intros Hi Hr Hmax. unfold returnsDirect. apply forallb_forall. intros o' Ho'.
  destruct (isReturnOp o') eqn:Eret; [done|]. cbn [orb].
  destruct (hasReturn o') eqn:Ehas; [|done]. exfalso.
  apply list_elem_of_In, list_elem_of_lookup in Ho' as [i' Hi'].
  destruct (hasReturn_returnAt o' Ehas Eret) as (r' & inner & p & j & Hr' & Hat).
  specialize (Hmax ((i, r) :: (i', r') :: p) j). cbn [length] in Hmax.
  enough (S (S (length p)) ≤ 1) by lia. apply Hmax.
  exists o, t. split; [done|]. split; [done|]. by exists o', inner.
Qed.

Lemma deepest_leadsTo (p : path) :
  ∀ (b : list op) (j : nat) (P : op),
    wfBlock b = true → returnAt p j b →
    (∀ p' j', returnAt p' j' b → length p' ≤ length p) →
    getParentOp p b = Some P → op_kind P = scf_if →
    leadsTo directReturns p b.
Proof.
  induction p as [|[i r] p' IH]; intros b j P Hwf Hat Hmax Hpar Hkind; [done|].
  destruct Hat as (o & inner & Hi & Hr & Hat).
  cbn [leadsTo getParentOp] in Hpar |- *. rewrite Hi in Hpar |- *.
  pose proof (wfBlock_lookup _ _ _ Hwf Hi) as Hwfo.
  destruct p' as [|q p''].
  - injection Hpar as <-. destruct Hat as (R & Hj & Hret).
    destruct o as [k l rs]. unfold directReturns. cbn [op_kind op_regions] in *.
    subst k. split; [done|]. split; [|split].
    + destruct (rs !! 0) as [t|] eqn:E0; [|done].
      by apply (returnsDirect_deepest b i 0 (Op scf_if l rs) t).
    + destruct (rs !! 1) as [t|] eqn:E1; [|done].
      by apply (returnsDirect_deepest b i 1 (Op scf_if l rs) t).
    + pose proof (firstReturn_lookup _ _ _ Hj Hret) as Hfirst.
      rewrite wfOp_unfold in Hwfo. apply andb_true_iff in Hwfo as [Hk _].
      cbn in Hk. apply bool_decide_eq_true in Hk.
      apply lookup_lt_Some in Hr as Hlt.
      destruct r as [|[|r]]; [left|right|lia]; by rewrite Hr.
  - rewrite Hr in Hpar |- *. cbn [mbind option_bind] in Hpar.
    destruct o as [k l rs]. cbn [op_regions] in *.
    apply (IH inner j P); try done.
    + by apply (wfOp_region k l rs r).
    + intros p0 j0 Hat0. specialize (Hmax ((i, r) :: p0) j0). cbn [length] in Hmax.
      enough (S (length p0) ≤ S (length (q :: p''))) by lia. apply Hmax.
      by exists (Op k l rs), inner.
Qed.

Lemma nextRound_leadsTo (b : list op) (p : path) :
  wfBlock b = true → nextRound b = RoundRectify p → leadsTo directReturns p b.
Proof.
  intros Hwf. unfold nextRound.
  destruct (mostNestedReturn b) as [pos|] eqn:Epos; [|done].
  destruct (isBack pos b); [done|].
  destruct (getParentOp pos.1 b) as [P|] eqn:Epar; [|done].
  destruct (op_kind P) eqn:Ek; try done. intros [= <-].
  destruct (mostNestedReturn_spec _ _ Epos) as [Hat Hmax].
  by apply (deepest_leadsTo pos.1 b pos.2 P).
Qed.

(** *** The loop comes to an end *)

Lemma bind_answers {A B : Type} (m : outcome A) (f : A → outcome B) :
  m ≠ OutOfFuel → (∀ a, f a ≠ OutOfFuel) → m ≫= f ≠ OutOfFuel.
Proof. intros Hm Hf. destruct m; try done. apply Hf. Qed.

Lemma eraseYields_answers (b : list op) : ∀ n, eraseYields n b ≠ OutOfFuel.
Proof.
  induction b as [|o b IH]; intros n; [done|]. cbn [eraseYields].
  destruct (isYieldOp o).
  - destruct n; [done|apply IH].
  - specialize (IH n). by destruct (eraseYields n b).
Qed.

Lemma opsAfterIf_answers (anc : ancestors) : ∀ next, opsAfterIf anc next ≠ OutOfFuel.
Proof.
  induction anc as [|[k after] anc IH]; intros next.
  - induction next as [|o next IHn]; [done|]. rewrite opsAfterIf_cons.
    destruct (isYieldOp o); [done|]. apply bind_answers; [done|]. by intros [??].
  - induction next as [|o next IHn]; [done|]. rewrite opsAfterIf_cons.
    destruct (isYieldOp o).
    + destruct (isIfKind k); [|done]. apply bind_answers; [apply IH|]. by intros [??].
    + apply bind_answers; [done|]. by intros [??].
Qed.

Lemma rectifyCase_answers (case : string) (loc : location) (anc : ancestors)
    (b next : list op) :
  rectifyCase case loc anc b next ≠ OutOfFuel.
Proof.
  unfold rectifyCase. apply bind_answers.
  - destruct (firstReturn b); [done|]. unfold rectifyIfCaseWithoutReturnOp.
    apply bind_answers; [apply opsAfterIf_answers|]. intros [??].
    apply bind_answers; [apply eraseYields_answers|done].
  - intros [b' next']. destruct (last b'); [|done]. by destruct (isReturnOp _).
Qed.

Lemma rectifyEarlyReturn_answers (o : op) (next : list op) (anc : ancestors) :
  rectifyEarlyReturn o next anc ≠ OutOfFuel.
Proof.
  unfold rectifyEarlyReturn. apply bind_answers; [apply rectifyCase_answers|].
  intros [??]. apply bind_answers; [apply rectifyCase_answers|]. by intros [??].
Qed.

Lemma rectifyEarlyReturnAt_answers (p : path) :
  ∀ anc b, rectifyEarlyReturnAt p anc b ≠ OutOfFuel.
Proof.
  induction p as [|[i r] p' IH]; intros anc b; [done|].
  cbn [rectifyEarlyReturnAt]. destruct (b !! i) as [o|]; [|done].
  destruct p' as [|q p''].
  - apply bind_answers; [apply rectifyEarlyReturn_answers|done].
  - destruct (op_regions o !! r); [|done]. apply bind_answers; [apply IH|done].
Qed.

Lemma rectifyLoop_answers (fuel : nat) :
  ∀ b, wfBlock b = true → tot 0 b < fuel → rectifyLoop fuel b ≠ OutOfFuel.
Proof.
  induction fuel as [|fuel IH]; intros b Hwf Hlt; [lia|].
  cbn [rectifyLoop]. destruct (nextRound b) as [|p| |] eqn:Eround; try done.
  pose proof (nextRound_leadsTo _ _ Hwf Eround) as Hlead.
  destruct (rectifyEarlyReturnAt p [] b) as [b'| | |] eqn:Estep; try done.
  - cbn [mbind outcome_bind].
    destruct (rectifyEarlyReturnAt_decreases p [] b b' Hwf eq_refl Hlead Estep)
      as (Hwf' & _ & Htot & _).
    cbn [cont] in Htot. apply IH; [done|lia].
  - by apply rectifyEarlyReturnAt_answers in Estep.
Qed.

Lemma rectifyEarlyReturns_answers (b : list op) :
  wfBlock b = true → rectifyEarlyReturns (S (tot 0 b)) b ≠ OutOfFuel.
Proof.
  intros Hwf. unfold rectifyEarlyReturns. destruct (bool_decide (b = [])); [done|].
  apply rectifyLoop_answers; [done|lia].
Qed.

(** The block of [def f(a, b) { if (a) { return 1; } if (b) { return 2; }
    return 3; }]. *)
Definition twoEarlyReturns : list op :=
  [ Op scf_if 1 [ [Op daphne_return 2 []; Op scf_yield 1 []] ];
    Op scf_if 3 [ [Op daphne_return 4 []; Op scf_yield 3 []] ];
    Op daphne_return 5 [] ].

(** C2, as stated, fails: the first rewrite step on [twoEarlyReturns] moves
    the second conditional with its return into the else-branch of the
    first, which raises the greatest nesting level of a return from 2
    to 3. *)
Lemma rewrite_step_raises_depth :
  levelOfMostNested twoEarlyReturns = 2%nat
  ∧ nextRound twoEarlyReturns = RoundRectify [(0, 0)]%nat
  ∧ ∃ funcBlock',
      rectifyEarlyReturnAt [(0, 0)]%nat [] twoEarlyReturns = Finished funcBlock'
      ∧ levelOfMostNested funcBlock' = 3%nat
      ∧ ¬ (levelOfMostNested funcBlock' < levelOfMostNested twoEarlyReturns)%nat.
Proof.
  split; [reflexivity|]. split; [reflexivity|].
  eexists. split; [reflexivity|]. split; [reflexivity|].
  vm_compute. lia.
Qed.

(** C2, amended: rectifying a block that [rectifyEarlyReturns] has returned
    changes nothing, the loop being left in its first round.  On a
    well-formed block the loop comes to an end within [tot 0 funcBlock + 1]
    rounds: a rewrite step, which can raise the greatest nesting level of a
    return, keeps the block well formed and makes it lighter. *)
Theorem rectify_twice (funcBlock : list op) :
  (∀ fuel fuel' funcBlock',
      rectifyEarlyReturns fuel funcBlock = Finished funcBlock' →
      rectifyEarlyReturns (S fuel') funcBlock' = Finished funcBlock'
      ∧ nextRound funcBlock' = RoundBreak)
  ∧ (wfBlock funcBlock = true →
     rectifyEarlyReturns (S (tot 0 funcBlock)) funcBlock ≠ OutOfFuel
     ∧ ∀ p funcBlock',
         nextRound funcBlock = RoundRectify p →
         rectifyEarlyReturnAt p [] funcBlock = Finished funcBlock' →
         wfBlock funcBlock' = true ∧ tot 0 funcBlock' < tot 0 funcBlock).
Proof.
  split.
  - intros fuel fuel' funcBlock' H.
    split; [by eapply rectifyEarlyReturns_idempotent|].
    unfold rectifyEarlyReturns in H. case_bool_decide as Hnil.
    + by injection H as <-; subst.
    + by eapply rectifyLoop_break.
  - intros Hwf. split; [by apply rectifyEarlyReturns_answers|].
    intros p funcBlock' Hround Hstep.
    pose proof (nextRound_leadsTo _ _ Hwf Hround) as Hlead.
    destruct (rectifyEarlyReturnAt_decreases p [] funcBlock funcBlock'
                Hwf eq_refl Hlead Hstep) as (Hwf' & _ & Htot & _).
    by split.
Qed.

(** [twoEarlyReturns] after three rewrite steps. *)
Definition twoEarlyReturns_rectified : list op :=
  [ Op scf_if 0
      [ [Op scf_yield 1 []];
        [ Op scf_if 0 [ [Op scf_yield 4 []]; [Op scf_yield 1 []] ];
          Op scf_yield 3 [] ] ];
    Op daphne_return 0 [] ].

Lemma rectify_twice_witness :
  (rectifyEarlyReturns 4 twoEarlyReturns = Finished twoEarlyReturns_rectified
   ∧ rectifyEarlyReturns 1 twoEarlyReturns_rectified = Finished twoEarlyReturns_rectified)
  ∧ wfBlock twoEarlyReturns = true
  ∧ tot 0 twoEarlyReturns = 17
  ∧ rectifyEarlyReturns 18 twoEarlyReturns ≠ OutOfFuel
  ∧ ∃ funcBlock',
      rectifyEarlyReturnAt [(0, 0)] [] twoEarlyReturns = Finished funcBlock'
      ∧ tot 0 funcBlock' = 8
      ∧ wfBlock funcBlock' = true ∧ tot 0 funcBlock' < tot 0 twoEarlyReturns.
Proof.
  destruct (rectify_twice twoEarlyReturns) as [Hidem Hterm].
  assert (Hwf : wfBlock twoEarlyReturns = true) by (vm_compute; reflexivity).
  destruct (Hterm Hwf) as [Hends Hstep].
  split.
  { split; [vm_compute; reflexivity|].
    eapply (Hidem 4 0). vm_compute. reflexivity. }
  split; [exact Hwf|]. split; [vm_compute; reflexivity|]. split; [exact Hends|].
  eexists. split; [vm_compute; reflexivity|]. split; [vm_compute; reflexivity|].
  apply (Hstep [(0, 0)]); vm_compute; reflexivity.
Defined.

(** ** More of the visitor *)

Local Open Scope Z_scope.

(** *** The counted for-loop with a step *)

Lemma visitForStatement_bounds_step (from to step : value) :
  let f := castIf si64 from in
  let t := castIf si64 to in
  let s := castIf si64 step in
  let direction := EwSignOp si64 s in
  visitForStatement_bounds from to (Some step) =
    {| for_direction := direction;
       for_lowerBound := CastOp idxType (EwMulOp si64 f direction);
       for_upperBound := CastOp idxType (EwMulOp si64 (EwAddOp si64 t direction) direction);
       for_step := CastOp idxType (EwMulOp si64 s direction);
       for_var := EwMulOp si64 (CastOp si64 forInductionVar) direction |}.
Proof. reflexivity. Qed.

Lemma scfFor_ivs_trips (lb ub step : Z) :
  scfFor_ivs lb ub step =
    (λ k : nat, lb + Z.of_nat k * step) <$> seq 0 (scfFor_trips lb ub step).
Proof. reflexivity. Qed.

(** The number of rounds of a loop from [x] to [y] in steps of [z]. *)
Lemma trips_spec (x y z : Z) (k : nat) :
  z ≠ 0 →
  (k < Z.to_nat ((y - x + z) `div` z))%nat ↔
    if decide (0 < z) then x + Z.of_nat k * z ≤ y else y ≤ x + Z.of_nat k * z.
Proof.
  intros Hz. case_decide as Hpos.
  - split.
    + intros Hk.
      assert (Z.of_nat k + 1 ≤ (y - x + z) `div` z) as H by lia.
      pose proof (Z.mul_div_le (y - x + z) z Hpos). nia.
    + intros Hk.
      assert (Z.of_nat k + 1 ≤ (y - x + z) `div` z); [|lia].
      apply Z.div_le_lower_bound; [done|]. nia.
  - assert (0 < - z) as Hneg by lia.
    replace ((y - x + z) `div` z) with ((x - y - z) `div` (- z)).
    2:{ rewrite <- (Z.div_opp_opp (y - x + z) z) by done. f_equal. lia. }
    split.
    + intros Hk.
      assert (Z.of_nat k + 1 ≤ (x - y - z) `div` (- z)) as H by lia.
      pose proof (Z.mul_div_le (x - y - z) (- z) Hneg). nia.
    + intros Hk.
      assert (Z.of_nat k + 1 ≤ (x - y - z) `div` (- z)); [|lia].
      apply Z.div_le_lower_bound; [done|]. nia.
Qed.

(** With a step that is given and is not zero, the loop variable takes the
    values [from + k * step], for k = 0, 1, ..., as long as they have not
    passed [to], which is included when it is hit; the bounds are such that
    the arithmetic does not overflow. *)
Theorem for_loop_with_step (rho : nat → Z) (from to step : value) (x y z : Z) :
  (∀ beta, eval rho beta (castIf si64 from) = Some x) →
  (∀ beta, eval rho beta (castIf si64 to) = Some y) →
  (∀ beta, eval rho beta (castIf si64 step) = Some z) →
  z ≠ 0 → - 2 ^ 61 ≤ x ≤ 2 ^ 61 → - 2 ^ 61 ≤ y ≤ 2 ^ 61 → - 2 ^ 61 ≤ z ≤ 2 ^ 61 →
  ∃ n : nat,
    forIterations rho (visitForStatement_bounds from to (Some step)) =
      Some ((λ k : nat, x + Z.of_nat k * z) <$> seq 0 n)
    ∧ ∀ k : nat, (k < n)%nat ↔
        if decide (0 < z) then x + Z.of_nat k * z ≤ y else y ≤ x + Z.of_nat k * z.
Proof.
  intros Hx Hy Hz Hz0 Bx By Bz.
  exists (Z.to_nat ((y - x + z) `div` z)). split; [|intros k; by apply trips_spec].
  rewrite visitForStatement_bounds_step. cbv zeta.
  unfold forIterations. cbn [for_lowerBound for_upperBound for_step for_var eval].
  rewrite !Hx, !Hy, !Hz.
  cbn [fmap option_fmap option_map mbind option_bind wrapTo idxType si64].
  destruct (decide (0 < z)) as [Hpos|Hneg].
  - rewrite (Z.sgn_pos z) by lia. rewrite !Z.mul_1_r. unwrap.
    rewrite scfFor_ivs_trips. unfold scfFor_trips. rewrite decide_True by done.
    replace (y + 1 - x + z - 1) with (y - x + z) by lia.
    apply mapM_Some. apply Forall2_fmap_r, Forall2_fmap_l, Forall_Forall2_diag.
    apply Forall_forall. intros k Hk%elem_of_seq.
    assert (k < Z.to_nat ((y - x + z) `div` z))%nat as Hlt by lia.
    apply trips_spec in Hlt; [|done]. rewrite decide_True in Hlt by done.
    cbn -[wrap_s64]. rewrite Hz. cbn -[wrap_s64].
    rewrite (Z.sgn_pos z) by lia. rewrite Z.mul_1_r.
    assert (0 ≤ Z.of_nat k * z) by nia. by unwrap.
  - rewrite (Z.sgn_neg z) by lia.
    replace (x * -1) with (- x) by lia. replace (z * -1) with (- z) by lia. unwrap.
    replace ((y + -1) * -1) with (1 - y) by lia. unwrap.
    rewrite scfFor_ivs_trips. unfold scfFor_trips. rewrite decide_True by lia.
    replace (1 - y - - x + - z - 1) with (- (y - x + z)) by lia.
    rewrite Z.div_opp_opp by done.
    apply mapM_Some. apply Forall2_fmap_r, Forall2_fmap_l, Forall_Forall2_diag.
    apply Forall_forall. intros k Hk%elem_of_seq.
    assert (k < Z.to_nat ((y - x + z) `div` z))%nat as Hlt by lia.
    apply trips_spec in Hlt; [|done]. rewrite decide_False in Hlt by done.
    cbn -[wrap_s64]. rewrite Hz. cbn -[wrap_s64].
    rewrite (Z.sgn_neg z) by lia.
    assert (Z.of_nat k * z ≤ 0) by nia. unwrap.
    replace ((- x + Z.of_nat k * - z) * -1) with (x + Z.of_nat k * z) by lia.
    by unwrap.
Qed.

Lemma for_loop_with_step_witness :
  ∃ n : nat,
    forIterations (λ _, 0)
      (visitForStatement_bounds (intLiteral 10) (intLiteral 1) (Some (intLiteral (-4)))) =
      Some ((λ k : nat, 10 + Z.of_nat k * -4) <$> seq 0 n)
    ∧ ∀ k : nat, (k < n)%nat ↔
        if decide (0 < -4) then 10 + Z.of_nat k * -4 ≤ 1 else 1 ≤ 10 + Z.of_nat k * -4.
Proof.
  apply (for_loop_with_step (λ _, 0) (intLiteral 10) (intLiteral 1) (intLiteral (-4)));
    try done; lia.
Defined.

(** With a step that evaluates to zero the direction is zero, and so are
    the lower bound, the upper bound and the step handed to the [scf::ForOp],
    whatever [from] and [to] are. *)
Theorem for_loop_step_zero (rho beta : nat → Z) (from to step : value) (x y : Z) :
  eval rho beta (castIf si64 from) = Some x →
  eval rho beta (castIf si64 to) = Some y →
  eval rho beta (castIf si64 step) = Some 0 →
  let op := visitForStatement_bounds from to (Some step) in
  eval rho beta (for_direction op) = Some 0
  ∧ eval rho beta (for_lowerBound op) = Some 0
  ∧ eval rho beta (for_upperBound op) = Some 0
  ∧ eval rho beta (for_step op) = Some 0
  ∧ eval rho beta (for_var op) = Some 0.
Proof.
  intros Hx Hy Hz. rewrite visitForStatement_bounds_step. cbv zeta.
  cbn [for_direction for_lowerBound for_upperBound for_step for_var eval].
  rewrite !Hx, !Hy, !Hz.
  cbn [fmap option_fmap option_map mbind option_bind wrapTo idxType si64 Z.sgn].
  rewrite !Z.mul_0_r. unwrap. repeat split.
  cbn -[wrap_s64]. rewrite Z.mul_0_r. by unwrap.
Qed.

Lemma for_loop_step_zero_witness :
  let op := visitForStatement_bounds (intLiteral 1) (intLiteral 5) (Some (intLiteral 0)) in
  eval (λ _, 0) (λ _, 0) (for_direction op) = Some 0
  ∧ eval (λ _, 0) (λ _, 0) (for_lowerBound op) = Some 0
  ∧ eval (λ _, 0) (λ _, 0) (for_upperBound op) = Some 0
  ∧ eval (λ _, 0) (λ _, 0) (for_step op) = Some 0
  ∧ eval (λ _, 0) (λ _, 0) (for_var op) = Some 0.
Proof.
  by apply (for_loop_step_zero (λ _, 0) (λ _, 0) (intLiteral 1) (intLiteral 5)
              (intLiteral 0) 1 5).
Defined.

(** *** Index expressions *)

Lemma visitRange_unspecified (ctx : option RangeContext) :
  unspecified ctx → (from_option visitRange (false, AxOther) ctx).1 = false.
Proof. by intros [->| ->]. Qed.

(** An index whose axes are left out or are bare colons selects nothing:
    [X[, ]], [X[:, ]] and [X[:, :]] give [X] itself, with no operation
    created. *)
Theorem right_indexing_without_bounds (retValWithInferredType : value → value)
    (loc : location) (obj : value) (rows cols : option RangeContext) :
  unspecified rows → unspecified cols →
  visitRightIdxExtractExpr retValWithInferredType obj (visitIndexing loc rows cols)
  = Ok obj.
Proof.
  intros Hr Hc. unfold visitRightIdxExtractExpr, visitIndexing.
  cbn [idx_rows idx_cols idx_loc].
  rewrite (visitRange_unspecified rows Hr). cbn [mbind result_bind].
  by rewrite (visitRange_unspecified cols Hc).
Qed.

Lemma right_indexing_without_bounds_witness :
  visitRightIdxExtractExpr (λ v, v) (Leaf 0 (Matrix (Scalar F64)))
    (visitIndexing 1%nat (Some (RangeBounds None None)) None)
  = Ok (Leaf 0 (Matrix (Scalar F64))).
Proof.
  apply (right_indexing_without_bounds (λ v, v) 1%nat); [by right|by left].
Defined.

(** A string as a position: as the row position it is refused; as the
    column position, with the rows left out, it is a label, which is
    accepted exactly when the indexed value is a frame. *)
Theorem right_indexing_by_label (retValWithInferredType : value → value)
    (loc : location) (obj label : value) (other : option RangeContext) :
  getType label = StringType →
  visitRightIdxExtractExpr retValWithInferredType obj
    (visitIndexing loc (Some (RangePos label)) other)
  = Err (CompilerError loc "DSLVisitor (applyRightIndexing)"
           "cannot use right indexing with label in this case")
  ∧ (unspecified other →
     visitRightIdxExtractExpr retValWithInferredType obj
       (visitIndexing loc other (Some (RangePos label)))
     = if isFrameType (getType obj)
       then Ok (retValWithInferredType (ExtractAxOp Col unknownType obj label))
       else Err (CompilerError loc "DSLVisitor (applyRightIndexing)"
                   "cannot use right indexing with label in this case")).
Proof.
  intros Hty.
  assert (hasObjType label = false) as Hobj by (unfold hasObjType; by rewrite Hty).
  split.
  - unfold visitRightIdxExtractExpr, visitIndexing.
    cbn [idx_rows idx_cols idx_loc from_option visitRange fst snd applyRightIndexing].
    by rewrite Hobj, Hty.
  - intros Hother. unfold visitRightIdxExtractExpr, visitIndexing.
    cbn [idx_rows idx_cols idx_loc].
    rewrite (visitRange_unspecified other Hother).
    cbn [mbind result_bind from_option visitRange fst snd applyRightIndexing].
    rewrite Hobj, Hty. cbn [isStringType]. by destruct (isFrameType (getType obj)).
Qed.

Lemma right_indexing_by_label_witness :
  visitRightIdxExtractExpr (λ v, v) (Leaf 0 (Frame [Scalar F64]))
    (visitIndexing 1%nat None (Some (RangePos (Leaf 1 StringType))))
  = Ok (ExtractAxOp Col unknownType (Leaf 0 (Frame [Scalar F64])) (Leaf 1 StringType)).
Proof.
  by apply (right_indexing_by_label (λ v, v) 1%nat (Leaf 0 (Frame [Scalar F64]))
              (Leaf 1 StringType) None eq_refl); left.
Defined.

(** *** Left indexing *)

Lemma applyLeftIndexing_nonScalar (ax_ : axis) (loc : location) (arg ins axVal : value)
    (allowLabel : bool) :
  hasObjType axVal = true ∨ getType axVal = StringType →
  isErr (applyLeftIndexing ax_ loc arg ins (AxValue axVal) allowLabel) = true.
Proof.
  intros [H|H]; cbn [applyLeftIndexing]; [by rewrite H|].
  destruct (hasObjType axVal); [done|]. rewrite H. by destruct allowLabel.
Qed.

Lemma applyRightIndexing_string (retValWithInferredType : value → value) (ax_ : axis)
    (loc : location) (arg axVal : value) :
  hasObjType axVal = false → getType axVal = StringType →
  isErr (applyRightIndexing retValWithInferredType ax_ loc arg (AxValue axVal) false) = true.
Proof. intros H1 H2. cbn [applyRightIndexing]. by rewrite H1, H2. Qed.

Lemma isErr_bind {A B : Type} (m : result A) (f : A → result B) :
  isErr (m ≫= f) = true ↔ isErr m = true ∨ ∃ a, m = Ok a ∧ isErr (f a) = true.
Proof.
  destruct m as [a|e]; cbn.
  - split; [intros H; right; by exists a|]. by intros [?|(? & [= <-] & ?)].
  - split; [by left|done].
Qed.

(** Left indexing takes scalar positions and ranges only: an assignment
    [x[rows, cols] = v] in which the rows or the columns are given by a
    matrix, a frame or a string fails, whatever else it says. *)
Theorem left_indexing_positions_are_scalars (retValWithInferredType : value → value)
    (loc : location) (var : string) (idx : indexing)
    (symbolTable : ScopedSymbolTable) (val : value) :
  nonScalarPosition (idx_rows idx) ∨ nonScalarPosition (idx_cols idx) →
  isErr (handleAssignmentPart retValWithInferredType loc var (Some idx) symbolTable val)
  = true.
Proof.
  intros Hpos. unfold handleAssignmentPart.
  destruct (st_has symbolTable var && _); [done|].
  destruct (st_get symbolTable var) as [info|]; [|done].
  cbv zeta. apply isErr_bind. left.
  destruct (idx_rows idx) as [rowsGiven rows] eqn:Er.
  destruct (idx_cols idx) as [colsGiven cols] eqn:Ec. cbn [fst snd].
  destruct Hpos as [[Hgiven (axVal & Hspec & Hns)]|[Hgiven (axVal & Hspec & Hns)]];
    cbn [fst snd] in Hgiven, Hspec; subst.
  - cbn [andb]. destruct colsGiven.
    + apply isErr_bind.
      destruct (applyRightIndexing retValWithInferredType Row (idx_loc idx)
                  (si_value info) (AxValue axVal) false) as [rowSeg|e] eqn:Eright;
        [right; exists rowSeg; split; [done|]|by left].
      apply isErr_bind.
      destruct (applyLeftIndexing Col (idx_loc idx) rowSeg val cols
                  (isFrameType (getType (si_value info)))) as [rowSeg'|e];
        [right; exists rowSeg'; split; [done|]|by left].
      by apply applyLeftIndexing_nonScalar.
    + by apply applyLeftIndexing_nonScalar.
  - destruct rowsGiven; cbn [andb].
    + apply isErr_bind.
      destruct (applyRightIndexing retValWithInferredType Row (idx_loc idx)
                  (si_value info) rows false) as [rowSeg|e];
        [right; exists rowSeg; split; [done|]|by left].
      apply isErr_bind. left. by apply applyLeftIndexing_nonScalar.
    + by apply applyLeftIndexing_nonScalar.
Qed.

Lemma left_indexing_positions_are_scalars_witness :
  isErr (handleAssignmentPart (λ v, v) 1%nat "x"
           (Some (visitIndexing 1%nat (Some (RangePos (ConstantOp si64 0)))
                    (Some (RangePos (Leaf 1 StringType)))))
           (st_put "x" (mkSymbolInfo (Leaf 0 (Frame [Scalar F64])) false) newSymbolTable)
           (Leaf 2 (Scalar F64)))
  = true.
Proof.
  apply left_indexing_positions_are_scalars. right.
  split; [done|]. exists (Leaf 1 StringType). split; [done|by right].
Defined.

Lemma getType_applyLeftIndexing (ax_ : axis) (loc : location) (arg ins : value)
    (ax : axSpec) (allowLabel : bool) (res : value) :
  applyLeftIndexing ax_ loc arg ins ax allowLabel = Ok res → getType res = getType arg.
Proof.
  destruct ax as [axVal|lo hi|]; cbn [applyLeftIndexing]; [| |done].
  - destruct (hasObjType axVal); [done|].
    destruct (isStringType (getType axVal)); [by destruct allowLabel|].
    by intros [= <-].
  - by intros [= <-].
Qed.

(** Left indexing keeps the type of the variable: after [x[rows, cols] = v]
    with the rows or the columns given, [x] is bound, writable, to a value
    of the type it had before. *)
Theorem left_indexing_keeps_type (retValWithInferredType : value → value)
    (loc : location) (var : string) (idx : indexing)
    (symbolTable symbolTable' : ScopedSymbolTable) (val : value) :
  (idx_rows idx).1 = true ∨ (idx_cols idx).1 = true →
  handleAssignmentPart retValWithInferredType loc var (Some idx) symbolTable val
    = Ok symbolTable' →
  ∃ old new,
    st_get symbolTable var = Some old
    ∧ st_get symbolTable' var = Some new
    ∧ getType (si_value new) = getType (si_value old)
    ∧ isReadOnly new = false.
Proof.
  intros Hgiven. unfold handleAssignmentPart.
  destruct (st_has symbolTable var && _); [done|].
  destruct (st_get symbolTable var) as [old|]; [|done].
  cbv zeta.
  destruct (idx_rows idx) as [rowsGiven rows]. destruct (idx_cols idx) as [colsGiven cols].
  cbn [fst snd] in *.
  match goal with
  | |- context [?m ≫= _] => destruct m as [obj|e] eqn:Eobj; [|done]
  end.
  cbn [mbind result_bind]. intros [= <-].
  exists old, (mkSymbolInfo obj false). split; [done|]. split; [apply st_get_put|].
  split; [|done]. cbn [si_value].
  destruct rowsGiven, colsGiven; cbn [andb] in Eobj.
  - destruct (applyRightIndexing _ _ _ _ _ _) as [rowSeg|]; [|done].
    cbn [mbind result_bind] in Eobj.
    destruct (applyLeftIndexing Col _ _ _ _ _) as [rowSeg'|]; [|done].
    cbn [mbind result_bind] in Eobj. by apply getType_applyLeftIndexing in Eobj.
  - by apply getType_applyLeftIndexing in Eobj.
  - by apply getType_applyLeftIndexing in Eobj.
  - by destruct Hgiven.
Qed.

Lemma left_indexing_keeps_type_witness :
  ∃ old new,
    st_get (st_put "x" (mkSymbolInfo (Leaf 0 (Matrix (Scalar F64))) false) newSymbolTable)
      "x" = Some old
    ∧ st_get
        (st_put "x"
           (mkSymbolInfo
              (InsertAxOp Row (Matrix (Scalar F64)) (Leaf 0 (Matrix (Scalar F64)))
                 (Leaf 2 (Scalar F64)) (ConstantOp si64 0)
                 (CastOp si64 (EwAddOp (Scalar UI64) (ConstantOp si64 0) (ConstantOp si64 1))))
              false)
           (st_put "x" (mkSymbolInfo (Leaf 0 (Matrix (Scalar F64))) false) newSymbolTable))
        "x" = Some new
    ∧ getType (si_value new) = getType (si_value old)
    ∧ isReadOnly new = false.
Proof.
  apply (left_indexing_keeps_type (λ v, v) 1%nat "x"
           (visitIndexing 1%nat (Some (RangePos (ConstantOp si64 0))) None)
           _ _ (Leaf 2 (Scalar F64))); [by left|].
  vm_compute. reflexivity.
Defined.

(** An index with nothing in it: [x[, ] = v] is [x = v] when [x] is bound,
    and an exception when it is not, where [x = v] binds [x]. *)
Theorem left_indexing_without_bounds (retValWithInferredType : value → value)
    (loc loc' : location) (var : string) (rows cols : option RangeContext)
    (symbolTable : ScopedSymbolTable) (val : value) :
  unspecified rows → unspecified cols →
  let indexed :=
    handleAssignmentPart retValWithInferredType loc var
      (Some (visitIndexing loc' rows cols)) symbolTable val in
  let plain :=
    handleAssignmentPart retValWithInferredType loc var None symbolTable val in
  (st_has symbolTable var = true → indexed = plain)
  ∧ (st_has symbolTable var = false →
     indexed = Err (CompilerError loc "DSLVisitor (handleAssignmentPart)"
                      ("cannot use left indexing on variable " +:+ var +:+
                       " before a value has been assigned to it"))
     ∧ plain = Ok (st_put var (mkSymbolInfo (renameIf symbolTable val) false) symbolTable)).
Proof.
  intros Hr Hc. cbv zeta. unfold handleAssignmentPart, visitIndexing.
  cbn [idx_rows idx_cols idx_loc].
  rewrite (visitRange_unspecified rows Hr), (visitRange_unspecified cols Hc).
  cbn [andb]. split; intros Hhas; rewrite Hhas.
  - apply st_has_get in Hhas as [info Hinfo]. rewrite Hinfo. cbn [from_option andb].
    by destruct (isReadOnly info).
  - cbn [andb]. destruct (st_get symbolTable var) as [info|] eqn:Hinfo; [|done].
    assert (st_has symbolTable var = true) by (apply st_has_get; eauto). congruence.
Qed.

Lemma left_indexing_without_bounds_witness :
  handleAssignmentPart (λ v, v) 1%nat "x"
    (Some (visitIndexing 2%nat None None)) newSymbolTable (Leaf 0 (Scalar F64))
  = Err (CompilerError 1%nat "DSLVisitor (handleAssignmentPart)"
           "cannot use left indexing on variable x before a value has been assigned to it")
  ∧ handleAssignmentPart (λ v, v) 1%nat "x" None newSymbolTable (Leaf 0 (Scalar F64))
    = Ok (st_put "x" (mkSymbolInfo (Leaf 0 (Scalar F64)) false) newSymbolTable).
Proof.
  apply (left_indexing_without_bounds (λ v, v) 1%nat 2%nat "x" None None newSymbolTable
           (Leaf 0 (Scalar F64))); [by left|by left|done].
Defined.

(** *** Functions of one argument *)

Lemma unaryCandidateMatches_candidateMatches (v : value) (f : FuncOp) :
  unaryCandidateMatches (getType v) f = candidateMatches [v] f.
Proof.
  unfold unaryCandidateMatches, candidateMatches. cbn [length].
  destruct (func_inputs f) as [|p [|q inputs]]; cbn [length].
  - by rewrite decide_True by done.
  - rewrite decide_False by (intros H; by apply H). cbn.
    by destruct (argAndUDFParamCompatible (getType v) p).
  - by rewrite decide_True by done.
Qed.

Lemma find_ext {A : Type} (p q : A → bool) (l : list A) :
  (∀ x, p x = q x) → find p l = find q l.
Proof. intros H. induction l as [|x l IH]; [done|]. cbn. by rewrite H, IH. Qed.

(** For one argument, [findMatchingUnaryUDF] and [findMatchingUDF] choose
    the same function, both find none when the name is not registered, and
    both throw when it is registered with nothing that matches; only the
    text of the exception differs. *)
Theorem unary_resolution_agrees (printType : type → string) (m : functionsSymbolMap)
    (loc : location) (functionName : string) (v : value) :
  match findMatchingUnaryUDF m loc functionName (getType v),
        findMatchingUDF printType m functionName [v] loc with
  | Ok unary, Ok general => unary = general
  | Err e, Err e' =>
      e = CompilerError loc "DSLVisitor"
            ("No function definition of `" +:+ functionName +:+
             "` found with matching types")
      ∧ e' = CompilerError loc "DSLVisitor"
               (noDefinitionMessage printType functionName [v]
                  (equal_range m functionName))
  | _, _ => False
  end.
Proof.
  unfold findMatchingUnaryUDF, findMatchingUDF. cbv zeta.
  rewrite (find_ext (unaryCandidateMatches (getType v)) (candidateMatches [v]))
    by apply unaryCandidateMatches_candidateMatches.
  destruct (find (candidateMatches [v]) (equal_range m functionName)); [done|].
  by destruct (equal_range m functionName).
Qed.

Lemma find_Some_first {A : Type} (p : A → bool) (l : list A) (x : A) :
  find p l = Some x →
  ∃ pre post, l = pre ++ x :: post ∧ p x = true ∧ Forall (λ y, p y = false) pre.
Proof.
  induction l as [|y l IH]; [done|]. cbn. destruct (p y) eqn:Ey.
  - intros [= <-]. exists [], l. by repeat split.
  - intros H. destruct (IH H) as (pre & post & -> & Hx & Hpre).
    exists (y :: pre), post. repeat split; [done|]. by constructor.
Qed.

(** [map(X, f)] succeeds only for two arguments of which the first lowers
    to a matrix; the function is looked up under the text of the second
    argument and is the first registered one with a single parameter that is
    compatible with the value type of the matrix. *)
Theorem map_resolves_by_element_type (m : functionsSymbolMap) (loc : location)
    (exprs : list ArgContext) (call : MapCall) :
  handleMapOpCall m loc "map" exprs = Ok call →
  ∃ expr0 expr1 elementType param pre post,
    exprs = [expr0; expr1]
    ∧ arg_lowered expr0 = Ok (map_arg call)
    ∧ getType (map_arg call) = Matrix elementType
    ∧ equal_range m (arg_text expr1) = pre ++ map_udf call :: post
    ∧ func_inputs (map_udf call) = [param]
    ∧ argAndUDFParamCompatible elementType param = true
    ∧ Forall (λ f, unaryCandidateMatches elementType f = false) pre.
Proof.
  unfold handleMapOpCall. rewrite decide_False by (intros H; by apply H).
  destruct exprs as [|expr0 [|expr1 [|??]]]; try done.
  destruct (arg_lowered expr0) as [argVal|] eqn:Earg; [|done].
  cbn [mbind result_bind].
  destruct (getType argVal) as [|elementType| | |] eqn:Ety; try done.
  unfold findMatchingUnaryUDF. cbv zeta.
  destruct (find _ _) as [udf|] eqn:Efind.
  - cbn [mbind result_bind]. intros [= <-]. cbn [map_arg map_udf].
    destruct (find_Some_first _ _ _ Efind) as (pre & post & Hrange & Hudf & Hpre).
    unfold unaryCandidateMatches in Hudf.
    destruct (func_inputs udf) as [|param [|??]] eqn:Einputs; try done.
    exists expr0, expr1, elementType, param, pre, post. by repeat split.
  - by destruct (equal_range m (arg_text expr1)).
Qed.

Definition twice_f64 : FuncOp := mkFuncOp "twice-1" [Scalar F64] [Scalar F64].

Lemma map_resolves_by_element_type_witness :
  ∃ expr0 expr1 elementType param pre post,
    [mkArgContext "X" (Ok (Leaf 0 (Matrix (Scalar F64)))); mkArgContext "twice" (Ok (Leaf 1 Unknown))]
      = [expr0; expr1]
    ∧ arg_lowered expr0 = Ok (Leaf 0 (Matrix (Scalar F64)))
    ∧ getType (Leaf 0 (Matrix (Scalar F64))) = Matrix elementType
    ∧ equal_range [("twice", twice_f64)] (arg_text expr1) = pre ++ twice_f64 :: post
    ∧ func_inputs twice_f64 = [param]
    ∧ argAndUDFParamCompatible elementType param = true
    ∧ Forall (λ f, unaryCandidateMatches elementType f = false) pre.
Proof.
  apply (map_resolves_by_element_type [("twice", twice_f64)] 1%nat
           [mkArgContext "X" (Ok (Leaf 0 (Matrix (Scalar F64))));
            mkArgContext "twice" (Ok (Leaf 1 Unknown))]
           (mkMapCall (Leaf 0 (Matrix (Scalar F64))) twice_f64)).
  vm_compute. reflexivity.
Defined.

(** *** Casts *)

(** The data type named in a cast decides the shape of the result: a cast
    to a matrix gives a matrix, and a cast to a frame gives a frame of one
    column, also for an argument that is a frame of several columns. *)
Theorem cast_result_shape (getValueTypeByName : string → outcome type)
    (loc : location) (DATA_TYPE VALUE_TYPE : option string) (arg res : value) :
  visitCastExpr getValueTypeByName loc DATA_TYPE VALUE_TYPE arg = Finished res →
  (DATA_TYPE = Some "matrix" → ∃ vt, getType res = Matrix vt)
  ∧ (DATA_TYPE = Some "frame" →
     VALUE_TYPE = None
     ∧ ∃ ty, getType res = Frame [ty]
             ∧ match getType arg with
               | Matrix elementType => ty = elementType
               | Frame columnTypes => columnTypes !! 0%nat = Some ty
               | _ => ty = getType arg
               end).
Proof.
  unfold visitCastExpr.
  destruct (castResultType _ _ _ _ _) as [resType| | |] eqn:E; try done.
  cbn [mbind outcome_bind]. intros [= <-]. cbn [getType].
  split; intros ->; unfold castResultType in E.
  - rewrite decide_True in E by done.
    match type of E with
    | ?m ≫= _ = _ => destruct m as [vt| | |]; try done
    end.
    cbn [mbind outcome_bind] in E. injection E as <-. by exists vt.
  - rewrite decide_False in E by done. rewrite decide_True in E by done.
    destruct VALUE_TYPE; [done|]. split; [done|].
    destruct (getType arg) as [k|elementType|[|ty columnTypes]| |];
      cbn in E; try done; injection E as <-; by eexists.
Qed.

Lemma cast_result_shape_witness :
  (Some "frame" = Some "matrix" →
   ∃ vt, getType (CastOp (Frame [Scalar SI64])
                    (Leaf 0 (Frame [Scalar SI64; Scalar F64]))) = Matrix vt)
  ∧ (Some "frame" = Some "frame" →
     (None : option string) = None
     ∧ ∃ ty, getType (CastOp (Frame [Scalar SI64])
                        (Leaf 0 (Frame [Scalar SI64; Scalar F64]))) = Frame [ty]
             ∧ match getType (Leaf 0 (Frame [Scalar SI64; Scalar F64])) with
               | Matrix elementType => ty = elementType
               | Frame columnTypes => columnTypes !! 0%nat = Some ty
               | _ => ty = getType (Leaf 0 (Frame [Scalar SI64; Scalar F64]))
               end).
Proof.
  apply (cast_result_shape (λ _, Undefined) 1%nat (Some "frame") None
           (Leaf 0 (Frame [Scalar SI64; Scalar F64]))).
  vm_compute. reflexivity.
Defined.

(** Casting to a data type twice is casting once: a cast to a matrix or to
    a frame that names no value type leaves a value alone that such a cast
    has given. *)
Theorem cast_data_type_idempotent (getValueTypeByName : string → outcome type)
    (loc loc' : location) (dtStr : string) (argType resType : type) :
  dtStr = "matrix" ∨ dtStr = "frame" →
  castResultType getValueTypeByName loc (Some dtStr) None argType = Finished resType →
  castResultType getValueTypeByName loc' (Some dtStr) None resType = Finished resType.
Proof.
  intros [-> | ->]; unfold castResultType.
  - rewrite !decide_True by done.
    match goal with
    | |- ?m ≫= _ = _ → _ => destruct m as [vt| | |]; try done
    end.
    cbn [mbind outcome_bind]. intros [= <-]. by cbn.
  - rewrite !(decide_False (P := "frame" = "matrix")) by done.
    rewrite !decide_True by done.
    match goal with
    | |- ?m ≫= _ = _ → _ => destruct m as [colTypes| | |] eqn:E; try done
    end.
    cbn [mbind outcome_bind]. intros [= <-].
    destruct argType as [k|elementType|[|ty columnTypes]| |]; cbn in E; try done;
      by injection E as <-.
Qed.

Lemma cast_data_type_idempotent_witness :
  castResultType (λ _, Undefined) 2%nat (Some "frame") None (Frame [Scalar SI64])
  = Finished (Frame [Scalar SI64]).
Proof.
  apply (cast_data_type_idempotent (λ _, Undefined) 1%nat 2%nat "frame"
           (Frame [Scalar SI64; Scalar F64])); [by right|].
  vm_compute. reflexivity.
Defined.

(** *** Integer literals *)

Lemma readDigits_count (s : string) : ∀ acc n, (n ≤ (readDigits acc n s).2)%nat.
Proof.
  induction s as [|c s IH]; intros acc n; cbn; [done|].
  destruct (isDigit c); [|done]. specialize (IH (10 * acc + digitValue c) (S n)). lia.
Qed.

Lemma allDigits_cons (c : ascii) (s : string) :
  allDigits (String c s) ↔ isDigit c = true ∧ allDigits s.
Proof. unfold allDigits. cbn [list_ascii_of_string]. apply (Forall_cons (λ c, isDigit c = true)). Qed.

Lemma isDigit_not_space (c : ascii) : isDigit c = true → isSpace c = false.
Proof.
  unfold isDigit, isSpace. intros [H1 H2]%andb_true_iff.
  apply Nat.leb_le in H1. apply Nat.leb_le in H2.
  apply orb_false_iff. split.
  - apply bool_decide_eq_false. lia.
  - apply andb_false_iff. right. apply Nat.leb_gt. lia.
Qed.

Lemma isDigit_neq (c : ascii) (n : nat) :
  isDigit c = true → (n < 48 ∨ 57 < n)%nat → (n < 256)%nat → c ≠ ascii_of_nat n.
Proof.
  unfold isDigit. intros [H1 H2]%andb_true_iff Hn Hlt ->.
  rewrite nat_ascii_embedding in H1, H2 by done.
  apply Nat.leb_le in H1. apply Nat.leb_le in H2. lia.
Qed.

(** A string of digits is its own subject sequence. *)
Lemma subjectSequence_digits (s : string) :
  allDigits s → s ≠ EmptyString → subjectSequence s = Some (false, decimalValue s).
Proof.
  intros Hall Hne. destruct s as [|c s]; [done|].
  apply allDigits_cons in Hall as [Hc Hs].
  unfold subjectSequence. cbn [skipSpaces]. rewrite (isDigit_not_space c Hc).
  rewrite bool_decide_false by (apply (isDigit_neq c 45); [done|lia|lia]).
  rewrite bool_decide_false by (apply (isDigit_neq c 43); [done|lia|lia]).
  unfold decimalValue.
  destruct (readDigits 0 0 (String c s)) as [magnitude n] eqn:E.
  assert (1 ≤ n)%nat.
  { pose proof (readDigits_count s (10 * 0 + digitValue c) 1) as H.
    cbn [readDigits] in E. rewrite Hc in E. rewrite E in H. done. }
  by rewrite decide_False by lia.
Qed.

Lemma back_cons_digits (s : string) (c : ascii) :
  allDigits s → s ≠ EmptyString → ∃ d, back s = Some d ∧ isDigit d = true.
Proof.
  intros Hall Hne. induction s as [|a s IH]; [done|].
  apply allDigits_cons in Hall as [Ha Hs]. destruct s as [|b s]; [by exists a|].
  destruct (IH Hs ltac:(done)) as (d & Hd & Hdig). by exists d.
Qed.

Lemma back_cons (a : ascii) (s : string) :
  s ≠ EmptyString → back (String a s) = back s.
Proof. by destruct s. Qed.

Lemma back_app_char (s : string) (c : ascii) : back (s +:+ String c EmptyString) = Some c.
Proof.
  induction s as [|a s IH]; [done|].
  change (String a s +:+ String c EmptyString) with (String a (s +:+ String c EmptyString)).
  rewrite back_cons; [done|]. by destruct s.
Qed.

Lemma back_app (a b : string) : b ≠ EmptyString → back (a +:+ b) = back b.
Proof.
  intros Hb. induction a as [|c a IH]; [done|].
  change (String c a +:+ b) with (String c (a +:+ b)).
  rewrite back_cons; [done|]. destruct a; [done|]. discriminate.
Qed.

Lemma back_drop (s : string) :
  ∀ k, (k < String.length s)%nat →
    back (string_of_list_ascii (drop k (list_ascii_of_string s))) = back s.
Proof.
  induction s as [|a s IH]; intros k Hk; [cbn in Hk; lia|].
  destruct k as [|k]; [by rewrite drop_0, string_of_list_ascii_of_string|].
  cbn [list_ascii_of_string drop]. cbn [String.length] in Hk.
  rewrite IH by lia. symmetry. apply back_cons. intros ->. cbn in Hk. lia.
Qed.

Lemma endsWithUll_back (s : string) (d : ascii) :
  back s = Some d → d ≠ "l"%char → endsWithUll s = false.
Proof.
  intros Hback Hd. unfold endsWithUll. apply andb_false_iff.
  destruct (decide (2 < String.length s)%nat) as [Hlen|];
    [right|left; by apply bool_decide_eq_false].
  apply bool_decide_eq_false. intros Heq.
  pose proof (back_drop s (String.length s - 3) ltac:(lia)) as Hb.
  rewrite Heq, Hback in Hb. cbn in Hb. congruence.
Qed.

Lemma length_list_ascii_of_string (s : string) :
  length (list_ascii_of_string s) = String.length s.
Proof. induction s as [|a s IH]; [done|]. cbn. by rewrite IH. Qed.

Lemma list_ascii_of_string_app (a b : string) :
  list_ascii_of_string (a +:+ b) = list_ascii_of_string a ++ list_ascii_of_string b.
Proof.
  induction a as [|c a IH]; [done|].
  change (String c a +:+ b) with (String c (a +:+ b)).
  cbn [list_ascii_of_string]. by rewrite IH.
Qed.

Lemma endsWithUll_app (pre : string) : endsWithUll (pre +:+ "ull") = true.
Proof.
  unfold endsWithUll. rewrite <- length_list_ascii_of_string, list_ascii_of_string_app.
  rewrite length_app. cbn [list_ascii_of_string length].
  apply andb_true_iff. split; [apply bool_decide_eq_true; lia|].
  apply bool_decide_eq_true.
  replace (length (list_ascii_of_string pre) + 3 - 3)%nat
    with (length (list_ascii_of_string pre)) by lia.
  by rewrite drop_app_length.
Qed.

Lemma endsWithUll_digits_l (digits : string) :
  allDigits digits → endsWithUll (digits +:+ "l") = false.
Proof.
  intros Hall. unfold endsWithUll. apply andb_false_iff.
  destruct (decide (2 < String.length (digits +:+ "l"))%nat) as [Hlen|];
    [right|left; by apply bool_decide_eq_false].
  apply bool_decide_eq_false. intros Heq.
  apply (f_equal list_ascii_of_string) in Heq.
  rewrite list_ascii_of_string_of_list_ascii in Heq.
  rewrite <- length_list_ascii_of_string in Heq, Hlen.
  rewrite list_ascii_of_string_app in Heq, Hlen.
  set (ld := list_ascii_of_string digits) in *. cbn [list_ascii_of_string] in Heq, Hlen.
  apply (f_equal reverse) in Heq. rewrite reverse_drop in Heq.
  rewrite length_app in Heq, Hlen. cbn [length] in Heq, Hlen.
  replace (length ld + 1 - (length ld + 1 - 3))%nat with 3%nat in Heq by lia.
  rewrite reverse_app in Heq. cbn in Heq.
  destruct (reverse ld) as [|d rest] eqn:Erev; [done|].
  assert (d ∈ ld) as Hin.
  { apply elem_of_reverse. rewrite Erev. by left. }
  unfold allDigits in Hall. rewrite Forall_forall in Hall. specialize (Hall d Hin).
  cbn in Heq. injection Heq as -> _. done.
Qed.

Lemma digitValue_nonneg (c : ascii) : isDigit c = true → 0 ≤ digitValue c ≤ 9.
Proof.
  unfold isDigit, digitValue. intros [H1 H2]%andb_true_iff.
  apply Nat.leb_le in H1. apply Nat.leb_le in H2. lia.
Qed.

Lemma readDigits_nonneg (s : string) : ∀ acc n, 0 ≤ acc → 0 ≤ (readDigits acc n s).1.
Proof.
  induction s as [|c s IH]; intros acc n Hacc; cbn; [done|].
  destruct (isDigit c) eqn:E; [|done]. apply IH.
  pose proof (digitValue_nonneg c E). lia.
Qed.

Lemma decimalValue_nonneg (s : string) : 0 ≤ decimalValue s.
Proof. by apply readDigits_nonneg. Qed.

Lemma readDigits_app (digits : string) (c : ascii) (rest : string) :
  allDigits digits → isDigit c = false →
  ∀ acc n, readDigits acc n (digits +:+ String c rest) = readDigits acc n digits.
Proof.
  intros Hall Hc. induction digits as [|d digits IH]; intros acc n.
  - change (EmptyString +:+ String c rest) with (String c rest).
    cbn [readDigits]. by rewrite Hc.
  - apply allDigits_cons in Hall as [Hd Hall].
    change (String d digits +:+ String c rest) with (String d (digits +:+ String c rest)).
    cbn [readDigits]. rewrite Hd. by apply IH.
Qed.

(** Digits with something behind them that is no digit: the subject
    sequence is the digits. *)
Lemma subjectSequence_digits_app (digits : string) (c : ascii) (rest : string) :
  allDigits digits → digits ≠ EmptyString → isDigit c = false →
  subjectSequence (digits +:+ String c rest) = Some (false, decimalValue digits).
Proof.
  intros Hall Hne Hc. rewrite <- (subjectSequence_digits digits Hall Hne).
  destruct digits as [|d digits]; [done|].
  apply allDigits_cons in Hall as [Hd Hall].
  unfold subjectSequence.
  change (String d digits +:+ String c rest) with (String d (digits +:+ String c rest)).
  cbn [skipSpaces]. rewrite (isDigit_not_space d Hd).
  rewrite !(bool_decide_false (d = "-"%char))
    by (apply (isDigit_neq d 45); [done|lia|lia]).
  rewrite !(bool_decide_false (d = "+"%char))
    by (apply (isDigit_neq d 43); [done|lia|lia]).
  change (String d (digits +:+ String c rest)) with (String d digits +:+ String c rest).
  rewrite (readDigits_app (String d digits) c rest); [done| |done].
  by apply allDigits_cons.
Qed.

(** An integer literal without a suffix, whose text is digits and digit
    separators with the digits standing for the number [n]: the constant is
    the 64-bit signed [n] when [n] is below 2^63; 2^63 itself gives the
    least 64-bit signed number; anything greater leaves the visitor by the
    [std::out_of_range] of the C++ library. *)
Theorem int_literal_without_suffix (text : string) :
  allDigits (removeSeparators text) → removeSeparators text ≠ EmptyString →
  visitIntLiteral text =
    let n := decimalValue (removeSeparators text) in
    if decide (n < 2 ^ 63) then Converted (mkConstant cpp_int64_t n)
    else if decide (n = 2 ^ 63) then Converted (mkConstant cpp_int64_t (- 2 ^ 63))
    else OutOfRange.
Proof.
  intros Hall Hne. unfold visitIntLiteral. cbv zeta.
  set (litStr := removeSeparators text) in *.
  destruct (back_cons_digits litStr "0"%char Hall Hne) as (d & Hback & Hd).
  rewrite Hback.
  rewrite (bool_decide_false (d = "u"%char))
    by (apply (isDigit_neq d 117); [done|lia|lia]).
  rewrite (endsWithUll_back litStr d Hback)
    by (apply (isDigit_neq d 108); [done|lia|lia]).
  rewrite (bool_decide_false (d = "l"%char))
    by (apply (isDigit_neq d 108); [done|lia|lia]).
  rewrite (bool_decide_false (d = "z"%char))
    by (apply (isDigit_neq d 122); [done|lia|lia]).
  unfold stoull, stoll. rewrite (subjectSequence_digits litStr Hall Hne).
  pose proof (decimalValue_nonneg litStr) as Hn.
  set (n := decimalValue litStr) in *.
  destruct (decide (2 ^ 64 ≤ n)).
  - cbn [mbind converted_bind]. rewrite !decide_False by lia. done.
  - cbn [mbind converted_bind]. destruct (decide (n = 2 ^ 63)) as [->|Hne63].
    + by rewrite decide_False by lia.
    + destruct (decide (n < 2 ^ 63)).
      * by rewrite decide_True by lia.
      * by rewrite decide_False by lia.
Qed.

Lemma int_literal_without_suffix_witness :
  visitIntLiteral "9_223_372_036_854_775_808" =
    let n := decimalValue (removeSeparators "9_223_372_036_854_775_808") in
    if decide (n < 2 ^ 63) then Converted (mkConstant cpp_int64_t n)
    else if decide (n = 2 ^ 63) then Converted (mkConstant cpp_int64_t (- 2 ^ 63))
    else OutOfRange.
Proof.
  apply int_literal_without_suffix.
  - unfold allDigits. vm_compute. repeat constructor.
  - vm_compute. discriminate.
Defined.

(** Integer literals with a suffix, the digit separators taken out: [u]
    and [ull] give unsigned 64-bit constants for numbers below 2^64, [l] a
    signed and [z] a size constant for numbers below 2^63; greater numbers
    leave the visitor by [std::out_of_range].  The suffix [ull] is
    recognised although it ends in [l]. *)
Theorem int_literal_with_suffix (text digits : string) :
  allDigits digits → digits ≠ EmptyString →
  let n := decimalValue digits in
  (removeSeparators text = digits +:+ "u" →
   visitIntLiteral text =
     if decide (n < 2 ^ 64) then Converted (mkConstant cpp_unsigned_long n) else OutOfRange)
  ∧ (removeSeparators text = digits +:+ "ull" →
     visitIntLiteral text =
       if decide (n < 2 ^ 64) then Converted (mkConstant cpp_uint64_t n) else OutOfRange)
  ∧ (removeSeparators text = digits +:+ "l" →
     visitIntLiteral text =
       if decide (n < 2 ^ 63) then Converted (mkConstant cpp_long n) else OutOfRange)
  ∧ (removeSeparators text = digits +:+ "z" →
     visitIntLiteral text =
       if decide (n < 2 ^ 63) then Converted (mkConstant cpp_size_t n) else OutOfRange).
Proof.
  intros Hall Hne n. pose proof (decimalValue_nonneg digits) as Hn. fold n in Hn.
  unfold visitIntLiteral. cbv zeta.
  split; [|split; [|split]]; intros ->.
  - rewrite back_app_char. rewrite bool_decide_true by done.
    unfold stoul, stoull. rewrite subjectSequence_digits_app by done. fold n.
    destruct (decide (2 ^ 64 ≤ n)); cbn [mbind converted_bind].
    + by rewrite decide_False by lia.
    + by rewrite decide_True by lia.
  - change (digits +:+ "ull") with (digits +:+ String "u" (String "l" (String "l" EmptyString))).
    rewrite back_app by done. cbn [back].
    rewrite bool_decide_false by done. rewrite endsWithUll_app.
    unfold stoull. rewrite subjectSequence_digits_app by done. fold n.
    destruct (decide (2 ^ 64 ≤ n)); cbn [mbind converted_bind].
    + by rewrite decide_False by lia.
    + by rewrite decide_True by lia.
  - rewrite back_app_char. rewrite bool_decide_false by done.
    rewrite endsWithUll_digits_l by done. rewrite bool_decide_true by done.
    unfold stol, stoll. rewrite subjectSequence_digits_app by done. fold n.
    destruct (decide (n < 2 ^ 63)).
    + by rewrite decide_True by lia.
    + by rewrite decide_False by lia.
  - rewrite back_app_char. rewrite bool_decide_false by done.
    rewrite (endsWithUll_back _ "z"%char) by (done || apply back_app_char).
    rewrite bool_decide_false by done. rewrite bool_decide_true by done.
    unfold stoll. rewrite subjectSequence_digits_app by done. fold n.
    destruct (decide (n < 2 ^ 63)).
    + rewrite decide_True by lia. cbn [mbind converted_bind].
      unfold wrap_u64. by rewrite Z.mod_small by lia.
    + by rewrite decide_False by lia.
Qed.

Lemma int_literal_with_suffix_witness :
  visitIntLiteral "18_446_744_073_709_551_615ull" =
    Converted (mkConstant cpp_uint64_t (2 ^ 64 - 1)).
Proof.
  pose proof (int_literal_with_suffix "18_446_744_073_709_551_615ull"
                "18446744073709551615") as H.
  destruct H as (_ & H & _).
  - unfold allDigits. vm_compute. repeat constructor.
  - discriminate.
  - rewrite H by (vm_compute; reflexivity). vm_compute. reflexivity.
Defined.

(** *** String literals *)

Lemma noBackslash_cons (c : ascii) (s : string) :
  noBackslash (String c s) ↔ c ≠ backslash ∧ noBackslash s.
Proof.
  unfold noBackslash. cbn [list_ascii_of_string]. rewrite not_elem_of_cons.
  split; intros [??]; split; congruence.
Qed.

Lemma replaceEscape_unfold (x r c d : ascii) (rest : string) :
  replaceEscape x r (String c (String d rest)) =
    if bool_decide (c = backslash) && bool_decide (d = x)
    then String r (replaceEscape x r rest)
    else String c (replaceEscape x r (String d rest)).
Proof. done. Qed.

Lemma replaceEscape_cons_ne (x r c : ascii) (rest : string) :
  c ≠ backslash →
  replaceEscape x r (String c rest) = String c (replaceEscape x r rest).
Proof.
  intros Hc. destruct rest as [|d rest']; [done|]. rewrite replaceEscape_unfold.
  by rewrite (bool_decide_false (c = backslash)).
Qed.

Lemma replaceEscape_backslash_other (x r d : ascii) (rest : string) :
  d ≠ x →
  replaceEscape x r (String backslash (String d rest)) =
    String backslash (replaceEscape x r (String d rest)).
Proof.
  intros Hd. rewrite replaceEscape_unfold. rewrite (bool_decide_false (d = x)) by done.
  by rewrite andb_false_r.
Qed.

Lemma replaceEscape_hit (x r : ascii) (rest : string) :
  replaceEscape x r (String backslash (String x rest)) = String r (replaceEscape x r rest).
Proof. rewrite replaceEscape_unfold. by rewrite !bool_decide_true. Qed.

Lemma replaceEscape_app (x r : ascii) (a s : string) :
  noBackslash a → replaceEscape x r (a +:+ s) = a +:+ replaceEscape x r s.
Proof.
  intros Ha. induction a as [|c a IH]; [done|].
  apply noBackslash_cons in Ha as [Hc Ha].
  change (String c a +:+ s) with (String c (a +:+ s)).
  rewrite replaceEscape_cons_ne by done. by rewrite IH.
Qed.

Lemma replaceEscape_noBackslash (x r : ascii) (s : string) :
  noBackslash s → replaceEscape x r s = s.
Proof.
  intros Hs. induction s as [|c s IH]; [done|].
  apply noBackslash_cons in Hs as [Hc Hs].
  rewrite replaceEscape_cons_ne by done. by rewrite IH.
Qed.

Lemma length_append (a b : string) :
  String.length (a +:+ b) = (String.length a + String.length b)%nat.
Proof.
  induction a as [|c a IH]; [done|].
  change (String c a +:+ b) with (String c (a +:+ b)).
  cbn [String.length]. by rewrite IH.
Qed.

(** The text between the quotation marks. *)
Lemma visitStringLiteral_quoted (body : string) :
  visitStringLiteral (quoted body) = Converted (replaceEscapeSequences body).
Proof.
  unfold visitStringLiteral, substr, quoted. cbv zeta.
  cbn [String.length]. rewrite length_append. cbn [String.length].
  rewrite decide_False by lia. rewrite decide_True by lia.
  cbn [mbind converted_bind]. do 2 f_equal.
  cbn [list_ascii_of_string drop]. rewrite drop_0, list_ascii_of_string_app.
  replace (S (String.length body + 1) - 2)%nat with (length (list_ascii_of_string body))
    by (rewrite length_list_ascii_of_string; lia).
  rewrite take_app_length. apply string_of_list_ascii_of_string.
Qed.

(** A string literal without a backslash stands for the text between its
    quotation marks. *)
Theorem string_literal_without_escapes (body : string) :
  noBackslash body → visitStringLiteral (quoted body) = Converted body.
Proof.
  intros Hbody. rewrite visitStringLiteral_quoted. f_equal.
  unfold replaceEscapeSequences. cbv zeta.
  by repeat rewrite (replaceEscape_noBackslash _ _ body) by done.
Qed.

Lemma string_literal_without_escapes_witness :
  visitStringLiteral (quoted "a,b c") = Converted "a,b c"%string.
Proof.
  apply string_literal_without_escapes. unfold noBackslash. vm_compute.
  intros H. repeat (apply elem_of_cons in H as [H|H]; [discriminate H|]).
  by apply elem_of_nil in H.
Defined.

(** The escape sequences are replaced one kind after the other, the
    escaped backslash last: in a text that holds two backslashes and an
    [n], and no other backslash, the second backslash and the [n] have
    become a line feed before the pair of backslashes is looked for, so
    the literal stands for a backslash and a line feed, not for a backslash
    and an [n]. *)
Theorem string_literal_escaped_backslash_before_n (before after : string) :
  noBackslash before → noBackslash after →
  visitStringLiteral
    (quoted (before +:+ String backslash (String backslash (String "n" after))))
  = Converted (before +:+ String backslash (String (ascii_of_nat 10) after)).
Proof.
  intros Hbefore Hafter. rewrite visitStringLiteral_quoted. f_equal.
  unfold replaceEscapeSequences. cbv zeta.
  rewrite (replaceEscape_app "b") by done.
  rewrite (replaceEscape_backslash_other "b") by done.
  rewrite (replaceEscape_backslash_other "b") by done.
  rewrite (replaceEscape_noBackslash "b" _ (String "n" after))
    by (by apply noBackslash_cons).
  rewrite (replaceEscape_app "f") by done.
  rewrite (replaceEscape_backslash_other "f") by done.
  rewrite (replaceEscape_backslash_other "f") by done.
  rewrite (replaceEscape_noBackslash "f" _ (String "n" after))
    by (by apply noBackslash_cons).
  rewrite (replaceEscape_app "n") by done.
  rewrite (replaceEscape_backslash_other "n") by done.
  rewrite (replaceEscape_hit "n").
  rewrite (replaceEscape_noBackslash "n" _ after) by done.
  assert (noBackslash (String (ascii_of_nat 10) after)) as Hlf
    by (by apply noBackslash_cons).
  rewrite (replaceEscape_app "r") by done.
  rewrite (replaceEscape_backslash_other "r") by done.
  rewrite (replaceEscape_noBackslash "r" _ (String _ after)) by done.
  rewrite (replaceEscape_app "t") by done.
  rewrite (replaceEscape_backslash_other "t") by done.
  rewrite (replaceEscape_noBackslash "t" _ (String _ after)) by done.
  rewrite (replaceEscape_app doubleQuote) by done.
  rewrite (replaceEscape_backslash_other doubleQuote) by done.
  rewrite (replaceEscape_noBackslash doubleQuote _ (String _ after)) by done.
  rewrite (replaceEscape_app backslash) by done.
  rewrite (replaceEscape_backslash_other backslash) by done.
  by rewrite (replaceEscape_noBackslash backslash _ (String _ after)) by done.
Qed.

Lemma string_literal_escaped_backslash_before_n_witness :
  visitStringLiteral
    (quoted ("C:" +:+ String backslash (String backslash (String "n" "ew"))))
  = Converted ("C:" +:+ String backslash (String (ascii_of_nat 10) "ew")).
Proof.
  apply (string_literal_escaped_backslash_before_n "C:" "ew");
    unfold noBackslash; vm_compute; intros H;
    repeat (apply elem_of_cons in H as [H|H]; [discriminate H|]);
    by apply elem_of_nil in H.
Defined.

Local Open Scope nat_scope.

(** *** Frame literals *)

Lemma placeRow_from {A : Type} (row : list A) :
  ∀ (rowpre : list A) (pre vec : list (list A)),
    length rowpre = length pre → length vec = length row →
    foldl (λ vec j, from_option (λ v, emplaceBackAt j v vec) vec ((rowpre ++ row) !! j))
          (pre ++ vec) (seq (length pre) (length row))
    = pre ++ zip_with snoc vec row.
Proof.
  induction row as [|v row IH]; intros rowpre pre vec Hpre Hlen.
  - destruct vec; [done|]. done.
  - destruct vec as [|column vec]; [done|]. cbn [length seq foldl zip_with].
    rewrite lookup_app_r by lia. rewrite Hpre, Nat.sub_diag. cbn [lookup list_lookup from_option].
    unfold emplaceBackAt at 2.
    replace (length pre) with (length pre + 0) at 1 by lia.
    rewrite alter_app_r. cbn [alter list_alter].
    replace (rowpre ++ v :: row) with ((rowpre ++ [v]) ++ row)
      by (by rewrite <- app_assoc).
    replace (pre ++ (column ++ [v]) :: vec) with ((pre ++ [column ++ [v]]) ++ vec)
      by (by rewrite <- app_assoc).
    replace (S (length pre)) with (length (pre ++ [column ++ [v]]))
      by (rewrite length_app; cbn; lia).
    rewrite IH.
    + by rewrite <- app_assoc.
    + rewrite !length_app. cbn. lia.
    + cbn in Hlen. lia.
Qed.

Lemma foldl_pair {A B C : Type} (f : A → C → A) (g : B → C → B) (l : list C) :
  ∀ a b, foldl (λ ab c, (f ab.1 c, g ab.2 c)) (a, b) l = (foldl f a l, foldl g b l).
Proof. induction l as [|c l IH]; intros a b; [done|]. cbn. apply IH. Qed.

Lemma placeRow_zip (cols : nat) (row : list value)
    (valuesVec : list (list value)) (valueTypesVec : list (list type)) :
  length row = cols → length valuesVec = cols → length valueTypesVec = cols →
  placeRow cols (visitFrameRow row) (valuesVec, valueTypesVec)
  = (zip_with snoc valuesVec row, zip_with snoc valueTypesVec (getType <$> row)).
Proof.
  intros Hrow Hv Ht. unfold placeRow, visitFrameRow. cbn [fst snd].
  rewrite (foldl_pair
             (λ vec j, from_option (λ v, emplaceBackAt j v vec) vec (row !! j))
             (λ vec j, from_option (λ t, emplaceBackAt j t vec) vec ((getType <$> row) !! j))).
  f_equal.
  - pose proof (placeRow_from row [] [] valuesVec eq_refl) as H.
    cbn [app length] in H. rewrite <- Hrow. apply H. lia.
  - pose proof (placeRow_from (getType <$> row) [] [] valueTypesVec eq_refl) as H.
    cbn [app length] in H. rewrite length_fmap in H. rewrite <- Hrow. apply H. lia.
Qed.

Lemma columnsOf_snoc {A : Type} (cols : nat) (rows : list (list A)) (row : list A) :
  length row = cols →
  zip_with snoc (columnsOf cols rows) row = columnsOf cols (rows ++ [row]).
Proof.
  intros Hrow. apply list_eq. intros j. unfold columnsOf.
  rewrite lookup_zip_with, !list_lookup_fmap.
  destruct (decide (j < cols)) as [Hj|Hj].
  - rewrite lookup_seq_lt by done. cbn.
    destruct (lookup_lt_is_Some_2 row j ltac:(lia)) as [x Hx]. rewrite Hx. cbn.
    rewrite omap_app. cbn. by rewrite Hx.
  - by rewrite lookup_seq_ge by lia.
Qed.

Lemma zip_with_snoc_typesOf (vec : list (list value)) :
  ∀ row : list value,
    zip_with snoc (typesOf vec) (getType <$> row) = typesOf (zip_with snoc vec row).
Proof.
  induction vec as [|column vec IH]; intros [|x row]; try done.
  unfold typesOf in *. cbn. rewrite IH. unfold snoc. by rewrite fmap_app.
Qed.

Lemma length_columnsOf {A : Type} (cols : nat) (rows : list (list A)) :
  length (columnsOf cols rows) = cols.
Proof. unfold columnsOf. by rewrite length_fmap, length_seq. Qed.

Lemma placeRows_columns (loc : location) (cols : nat) (rows : list (list value)) :
  ∀ (placed : list (list value)) (res : list (list value) * list (list type)),
    placeRows loc cols rows
      (columnsOf cols placed, typesOf (columnsOf cols placed)) = Ok res →
    Forall (λ row, length row = cols) rows
    ∧ res = (columnsOf cols (placed ++ rows),
             typesOf (columnsOf cols (placed ++ rows))).
Proof.
  induction rows as [|row rows IH]; intros placed res.
  - cbn. intros [= <-]. by rewrite app_nil_r.
  - cbn [placeRows]. cbv zeta. unfold visitFrameRow at 1. cbn [fst].
    case_decide as Hlen; [done|].
    assert (length row = cols) as Hrow by (destruct (decide (length row = cols)); done).
    rewrite placeRow_zip; [|done|apply length_columnsOf|].
    2:{ unfold typesOf. by rewrite length_fmap, length_columnsOf. }
    rewrite zip_with_snoc_typesOf, columnsOf_snoc by done.
    intros H. destruct (IH _ _ H) as [Hall ->].
    split; [by constructor|]. by rewrite <- app_assoc.
Qed.

Lemma columnsOf_nil {A : Type} (cols : nat) :
  columnsOf cols ([] : list (list A)) = replicate cols [].
Proof.
  unfold columnsOf. cbn. generalize 0. induction cols as [|cols IH]; intros k; [done|].
  cbn. by rewrite IH.
Qed.

Lemma initial_columns (cols : nat) :
  (columnsOf cols ([] : list (list value)), typesOf (columnsOf cols [])) =
  (replicate cols [], replicate cols []).
Proof.
  rewrite columnsOf_nil. f_equal. unfold typesOf.
  induction cols as [|cols IH]; [done|]. cbn. by rewrite IH.
Qed.

(** A frame literal that is written row by row is turned into columns:
    when the visitor gets as far as building the columns, there is a
    label, there is a row, the labels are strings, every row has as many
    elements as there are labels, and column [j] lists the elements at [j]
    of the rows in the order of the rows, the list of the types of a column
    being the types of its values. *)
Theorem row_major_frame_is_transposed (loc : location) (labels : list value)
    (rows : list (list value)) (valuesVec : list (list value))
    (valueTypesVec : list (list type)) :
  rowMajorColumnVectors loc labels rows = Ok (valuesVec, valueTypesVec) →
  labels ≠ [] ∧ rows ≠ []
  ∧ Forall (λ label, getType label = strType) labels
  ∧ Forall (λ row, length row = length labels) rows
  ∧ valuesVec = columnsOf (length labels) rows
  ∧ valueTypesVec = typesOf valuesVec
  ∧ ∀ i j row v, rows !! i = Some row → row !! j = Some v →
      ∃ column, valuesVec !! j = Some column ∧ column !! i = Some v.
Proof.
  unfold rowMajorColumnVectors, visitFrameRow. cbv zeta. cbn [fst snd].
  destruct (bool_decide (length labels = 0) || bool_decide (length rows = 0)) eqn:Eempty;
    [done|].
  apply orb_false_iff in Eempty as [Hl Hr].
  apply bool_decide_eq_false in Hl. apply bool_decide_eq_false in Hr.
  destruct (forallb _ _) eqn:Elabels; [|done]. cbn [negb].
  rewrite <- (initial_columns (length labels)).
  intros H. apply placeRows_columns in H as [Hall [= -> ->]]. cbn [app].
  split; [by destruct labels|]. split; [by destruct rows|].
  split.
  { rewrite forallb_forall in Elabels. apply Forall_forall. intros label Hin.
    specialize (Elabels (getType label)). cbv beta in Elabels.
    rewrite bool_decide_eq_true in Elabels. apply Elabels.
    apply list_elem_of_In, list_elem_of_fmap. by exists label. }
  split; [done|]. split; [done|]. split; [done|].
  intros i j row v Hi Hj. unfold columnsOf. rewrite list_lookup_fmap.
  assert (j < length labels) as Hlt.
  { rewrite Forall_forall in Hall. rewrite <- (Hall row).
    - by eapply lookup_lt_Some.
    - by eapply list_elem_of_lookup_2. }
  rewrite lookup_seq_lt by done. cbn. eexists. split; [done|].
  clear Hr. revert i Hi. induction Hall as [|row' rows Hrow' Hall IH]; intros i Hi; [done|].
  destruct (lookup_lt_is_Some_2 row' j ltac:(lia)) as [x Hx].
  cbn [omap list_omap]. rewrite Hx. destruct i as [|i].
  - injection Hi as ->. cbn. congruence.
  - cbn. by apply IH.
Qed.

Lemma row_major_frame_is_transposed_witness :
  [[Leaf 1 (Scalar SI64); Leaf 3 (Scalar SI64)]; [Leaf 2 (Scalar F64); Leaf 4 (Scalar F64)]]
  = columnsOf 2 [[Leaf 1 (Scalar SI64); Leaf 2 (Scalar F64)];
                 [Leaf 3 (Scalar SI64); Leaf 4 (Scalar F64)]].
Proof.
  destruct (row_major_frame_is_transposed 1 [Leaf 10 StringType; Leaf 11 StringType]
              [[Leaf 1 (Scalar SI64); Leaf 2 (Scalar F64)];
               [Leaf 3 (Scalar SI64); Leaf 4 (Scalar F64)]]
              [[Leaf 1 (Scalar SI64); Leaf 3 (Scalar SI64)];
               [Leaf 2 (Scalar F64); Leaf 4 (Scalar F64)]]
              [[Scalar SI64; Scalar SI64]; [Scalar F64; Scalar F64]])
    as (_ & _ & _ & _ & H & _); [vm_compute; reflexivity|exact H].
Defined.

(** A row with another number of elements than there are labels stops
    the visitor, when the labels are strings and the rows before it fit. *)
Theorem row_major_frame_row_size (loc : location) (labels : list value)
    (before after : list (list value)) (row : list value) :
  labels ≠ [] → Forall (λ label, getType label = strType) labels →
  Forall (λ row, length row = length labels) before →
  length row ≠ length labels →
  rowMajorColumnVectors loc labels (before ++ row :: after)
  = Err (CompilerError loc "DSLVisitor"
           "size of row does not match the amount of labels").
Proof.
  intros Hne Hlabels Hbefore Hrow.
  unfold rowMajorColumnVectors, visitFrameRow. cbv zeta. cbn [fst snd].
  rewrite (bool_decide_false (length labels = 0)) by (by destruct labels).
  rewrite (bool_decide_false (length (before ++ row :: after) = 0))
    by (rewrite length_app; cbn; lia).
  cbn [orb].
  assert (forallb (λ labelType, bool_decide (labelType = strType)) (getType <$> labels)
          = true) as ->.
  { apply forallb_forall. intros ty Hin. apply bool_decide_eq_true.
    apply list_elem_of_In, list_elem_of_fmap in Hin as (label & -> & Hin).
    rewrite Forall_forall in Hlabels. by apply Hlabels. }
  cbn [negb]. rewrite <- (initial_columns (length labels)).
  generalize ([] : list (list value)) as placed.
  induction Hbefore as [|row' before Hrow' _ IH]; intros placed.
  - cbn [app placeRows]. cbv zeta. unfold visitFrameRow at 1. cbn [fst].
    by rewrite decide_True.
  - cbn [app placeRows]. cbv zeta. unfold visitFrameRow at 1. cbn [fst].
    rewrite decide_False by (intros H; by apply H).
    rewrite placeRow_zip; [|done|apply length_columnsOf|].
    2:{ unfold typesOf. by rewrite length_fmap, length_columnsOf. }
    rewrite zip_with_snoc_typesOf, columnsOf_snoc by done. apply IH.
Qed.

Lemma row_major_frame_row_size_witness :
  rowMajorColumnVectors 1 [Leaf 10 StringType; Leaf 11 StringType]
    ([[Leaf 1 (Scalar SI64); Leaf 2 (Scalar F64)]] ++ [Leaf 3 (Scalar SI64)] :: [])
  = Err (CompilerError 1 "DSLVisitor" "size of row does not match the amount of labels").
Proof.
  apply row_major_frame_row_size; try done.
  - by repeat constructor.
  - by repeat constructor.
Defined.

Lemma frameColumns_spec (loc : location) (labels : list value) :
  ∀ (cols parsedLabels columnMatrices : list value) (columnMatElemType : list type),
    length labels = length cols →
    frameColumns loc labels cols = Ok (parsedLabels, columnMatrices, columnMatElemType) →
    parsedLabels = labels ∧ columnMatrices = cols
    ∧ Forall (λ label, getType label = strType) labels
    ∧ Forall2 (λ mat elementType, getType mat = Matrix elementType) cols columnMatElemType.
Proof.
  induction labels as [|label labels IH]; intros [|mat cols] pl cm et Hlen; try done.
  - cbn. intros [= <- <- <-]. by repeat split.
  - cbn [frameColumns]. case_bool_decide as Hlabel; [|done]. cbn [negb].
    destruct (getType mat) as [|elementType| | |] eqn:Emat; try done.
    destruct (frameColumns loc labels cols) as [[[pl' cm'] et']|] eqn:E; [|done].
    cbn [mbind result_bind]. intros [= <- <- <-].
    destruct (IH cols pl' cm' et' ltac:(by injection Hlen) E) as (-> & -> & Hl & Hc).
    repeat split; [by constructor|by constructor].
Qed.

(** A frame literal that is written column by column: when the visitor
    builds the frame, there are as many labels as columns, the labels are
    strings and the columns are matrices, and the frame has one column type
    for each column, the value type of its matrix, in the order of the
    columns. *)
Theorem col_major_frame_type (loc : location) (labels cols : list value)
    (op : CreateFrameOp) :
  visitColMajorFrameLiteralExpr loc labels cols = Ok op →
  length labels = length cols
  ∧ frame_labels op = labels ∧ frame_cols op = cols
  ∧ Forall (λ label, getType label = strType) labels
  ∧ ∃ columnTypes,
      frame_type op = Frame columnTypes
      ∧ Forall2 (λ mat elementType, getType mat = Matrix elementType) cols columnTypes.
Proof.
  unfold visitColMajorFrameLiteralExpr. case_decide as Hlen; [done|].
  assert (length labels = length cols) as Heq
    by (destruct (decide (length labels = length cols)); done).
  destruct (frameColumns loc labels cols) as [[[pl cm] et]|] eqn:E; [|done].
  cbn [mbind result_bind]. intros [= <-]. cbn [frame_type frame_cols frame_labels].
  destruct (frameColumns_spec loc labels cols pl cm et Heq E) as (-> & -> & Hl & Hc).
  repeat split; [done..|]. by exists et.
Qed.

Lemma col_major_frame_type_witness :
  length [Leaf 10 StringType; Leaf 11 StringType]
  = length [Leaf 1 (Matrix (Scalar SI64)); Leaf 2 (Matrix (Scalar F64))]
  ∧ [Leaf 10 StringType; Leaf 11 StringType] = [Leaf 10 StringType; Leaf 11 StringType]
  ∧ [Leaf 1 (Matrix (Scalar SI64)); Leaf 2 (Matrix (Scalar F64))]
    = [Leaf 1 (Matrix (Scalar SI64)); Leaf 2 (Matrix (Scalar F64))]
  ∧ Forall (λ label, getType label = strType) [Leaf 10 StringType; Leaf 11 StringType]
  ∧ ∃ columnTypes,
      Frame [Scalar SI64; Scalar F64] = Frame columnTypes
      ∧ Forall2 (λ mat elementType, getType mat = Matrix elementType)
          [Leaf 1 (Matrix (Scalar SI64)); Leaf 2 (Matrix (Scalar F64))] columnTypes.
Proof.
  apply (col_major_frame_type 1 [Leaf 10 StringType; Leaf 11 StringType]
           [Leaf 1 (Matrix (Scalar SI64)); Leaf 2 (Matrix (Scalar F64))]
           (mkCreateFrameOp (Frame [Scalar SI64; Scalar F64])
              [Leaf 1 (Matrix (Scalar SI64)); Leaf 2 (Matrix (Scalar F64))]
              [Leaf 10 StringType; Leaf 11 StringType])).
  vm_compute. reflexivity.
Defined.

(** *** Function definitions *)

Lemma collectFunctionArguments_spec (loc : location)
    (functionArguments : list (string * type)) :
  ∀ funcArgNames funcArgTypes,
    NoDup funcArgNames →
    match collectFunctionArguments loc functionArguments funcArgNames funcArgTypes with
    | Ok (names, types) =>
        NoDup (funcArgNames ++ functionArguments.*1)
        ∧ names = funcArgNames ++ functionArguments.*1
        ∧ types = funcArgTypes ++ functionArguments.*2
    | Err e =>
        ¬ NoDup (funcArgNames ++ functionArguments.*1)
        ∧ ∃ name, e = CompilerError loc "DSLVisitor"
                        ("Function argument name `" +:+ name +:+ "` is used twice.")
                  ∧ name ∈ functionArguments.*1
    end.
Proof.
  induction functionArguments as [|[name ty] args IH]; intros names types Hnodup.
  - cbn. by rewrite !app_nil_r.
  - cbn [collectFunctionArguments fst snd fmap list_fmap]. case_bool_decide as Hin.
    + split.
      * intros H. apply NoDup_app in H as (_ & H & _). apply (H name Hin). by left.
      * exists name. split; [done|]. by left.
    + specialize (IH (names ++ [name]) (types ++ [ty])).
      assert (NoDup (names ++ [name])) as Hnodup'.
      { apply NoDup_app. split; [done|]. split; [|apply NoDup_singleton].
        intros x Hx ->%list_elem_of_singleton. done. }
      specialize (IH Hnodup').
      destruct (collectFunctionArguments loc args (names ++ [name]) (types ++ [ty]))
        as [[names' types']|e].
      * rewrite <- !app_assoc in IH. done.
      * rewrite <- !app_assoc in IH. destruct IH as [Hdup (n & -> & Hn)].
        split; [done|]. exists n. split; [done|]. by right.
Qed.

(** The arguments of a function are accepted exactly when their names are
    pairwise different, with the names and the types in the order they are
    written in; otherwise the exception names an argument. *)
Theorem function_argument_names_differ (loc : location)
    (functionArguments : list (string * type)) :
  match collectFunctionArguments loc functionArguments [] [] with
  | Ok (funcArgNames, funcArgTypes) =>
      NoDup functionArguments.*1
      ∧ funcArgNames = functionArguments.*1
      ∧ funcArgTypes = functionArguments.*2
  | Err e =>
      ¬ NoDup functionArguments.*1
      ∧ ∃ name, e = CompilerError loc "DSLVisitor"
                      ("Function argument name `" +:+ name +:+ "` is used twice.")
                ∧ name ∈ functionArguments.*1
  end.
Proof.
  pose proof (collectFunctionArguments_spec loc functionArguments [] [] (NoDup_nil_2)) as H.
  by destruct (collectFunctionArguments loc functionArguments [] []) as [[??]|?].
Qed.

Lemma checkReturnTypesFrom_spec (printType : type → string) (terminatorLoc : location)
    (functionName : string) (returnOpTypes : list type) :
  ∀ (returnTypes : list type) (i : nat),
    length returnOpTypes = length returnTypes →
    (checkReturnTypesFrom printType terminatorLoc functionName i returnOpTypes returnTypes
     = Ok ()
     ↔ Forall2 (λ returnOpType returnType,
                  equalUnknownAware returnOpType returnType = true)
               returnOpTypes returnTypes).
Proof.
  induction returnOpTypes as [|a l IH]; intros [|b k] i Hlen; try done.
  cbn [checkReturnTypesFrom]. destruct (equalUnknownAware a b) eqn:E; cbn [negb].
  - rewrite IH by (by injection Hlen). split.
    + by constructor.
    + by intros [_ ?]%Forall2_cons.
  - split; [done|]. intros [? _]%Forall2_cons. congruence.
Qed.

(** A function that declares its return types is accepted exactly when
    the values it returns are as many as declared and the type of each is
    the declared type or one of the two is unknown; the function then has
    the declared types.  A function that declares none has the types of the
    values it returns. *)
Theorem function_return_types (printType : type → string) (terminatorLoc : location)
    (functionName : string) (returnOpTypes : list type) :
  functionResultTypes printType terminatorLoc functionName None returnOpTypes
  = Ok returnOpTypes
  ∧ ∀ returnTypes,
      (Forall2 (λ returnOpType returnType,
                  returnOpType = returnType ∨ returnOpType = Unknown ∨ returnType = Unknown)
               returnOpTypes returnTypes →
       functionResultTypes printType terminatorLoc functionName (Some returnTypes)
         returnOpTypes = Ok returnTypes)
      ∧ (¬ Forall2 (λ returnOpType returnType,
                      returnOpType = returnType ∨ returnOpType = Unknown
                      ∨ returnType = Unknown)
                   returnOpTypes returnTypes →
         isErr (functionResultTypes printType terminatorLoc functionName
                  (Some returnTypes) returnOpTypes) = true).
Proof.
  split; [done|]. intros returnTypes. unfold functionResultTypes.
  assert (∀ l k, Forall2 (λ a b : type, a = b ∨ a = Unknown ∨ b = Unknown) l k ↔
                 Forall2 (λ a b, equalUnknownAware a b = true) l k) as Hequiv.
  { intros l k. split; intros H; (eapply Forall2_impl; [exact H|]); intros a b;
      rewrite equalUnknownAware_spec; done. }
  split.
  - intros Hall. pose proof (Forall2_length _ _ _ Hall) as Hlen.
    rewrite decide_False by (intros H; by apply H).
    apply Hequiv in Hall.
    apply (checkReturnTypesFrom_spec printType terminatorLoc functionName _ _ 0 Hlen)
      in Hall.
    by rewrite Hall.
  - intros Hnot. case_decide as Hlen; [done|].
    assert (length returnOpTypes = length returnTypes) as Heq
      by (destruct (decide (length returnOpTypes = length returnTypes)); done).
    destruct (checkReturnTypesFrom _ _ _ _ _ _) as [[]|e] eqn:E; [|done].
    apply (checkReturnTypesFrom_spec printType terminatorLoc functionName _ _ 0 Heq)
      in E.
    by apply Hequiv in E.
Qed.

(** A parameter that is written without a type takes every argument, and
    a parameter that is a matrix without a value type takes every matrix. *)
Theorem untyped_parameters_take_everything
    (getValueTypeByName : string → outcome type) (loc : location) (var : string)
    (argTy elementType : type) :
  (∀ param, visitFunctionArg var None = Finished param →
            argAndUDFParamCompatible argTy param.2 = true)
  ∧ (∀ paramTy,
       visitFuncTypeDef getValueTypeByName loc (Some "matrix") None None = Finished paramTy →
       argAndUDFParamCompatible (Matrix elementType) paramTy = true).
Proof.
  split.
  - intros param [= <-]. cbn [snd]. apply argAndUDFParamCompatible_spec. auto.
  - intros paramTy [= <-]. apply argAndUDFParamCompatible_spec.
    right. right. right. exists elementType, unknownType. auto.
Qed.

Lemma function_return_types_witness :
  functionResultTypes (λ _, "") 1 "f" (Some [Scalar F64; Unknown])
    [Unknown; Matrix (Scalar SI64)]
  = Ok [Scalar F64; Unknown].
Proof.
  destruct (proj2 (function_return_types (λ _, "") 1 "f" [Unknown; Matrix (Scalar SI64)])
              [Scalar F64; Unknown]) as [H _].
  apply H. constructor; [by right; left|]. constructor; [by right; right|]. constructor.
Defined.

Lemma untyped_parameters_take_everything_witness :
  argAndUDFParamCompatible (Frame [Scalar F64]) ("x", unknownType).2 = true
  ∧ argAndUDFParamCompatible (Matrix (Scalar F64)) (matrixOf unknownType) = true.
Proof.
  destruct (untyped_parameters_take_everything (λ _, Undefined) 1 "x"
              (Frame [Scalar F64]) (Scalar F64)) as [H1 H2].
  split; [by apply H1|by apply H2].
Defined.

(** *** Assignment statements *)

(** The number of results must fit the number of variables: several
    results cannot go to one variable, and several variables need an
    operation that gives as many results, one value or another number of
    results being refused. *)
Theorem assignment_arity (retValWithInferredType : value → value)
    (valueOrError : location → rhsAny → result value) (loc exprLoc : location)
    (identifiers : list string) (indexings : list indexing) (rhs : rhsAny)
    (symbolTable : ScopedSymbolTable) :
  let assign :=
    visitAssignStatement retValWithInferredType valueOrError loc exprLoc identifiers
      indexings rhs symbolTable in
  (length identifiers = 1 → (∃ results, rhs = RhsResultRange results) →
   assign = Err (CompilerError loc "DSLVisitor"
                   "trying to assign multiple results to a single variable"))
  ∧ (1 < length identifiers →
     (∀ results, rhs = RhsResultRange results → length results ≠ length identifiers) →
     assign = Err (CompilerError loc "DSLVisitor"
                     "right-hand side expression of assignment to multiple variables must return multiple values, one for each variable on the left-hand side")).
Proof.
  cbv zeta. unfold visitAssignStatement. split.
  - intros Hone [results ->]. by destruct identifiers as [|var [|??]].
  - intros Hmany Hrhs. destruct identifiers as [|var [|var' identifiers]];
      [cbn in Hmany; lia..|].
    destruct rhs as [v|results|]; [done| |done].
    by rewrite decide_False by (by apply Hrhs).
Qed.

Lemma assignment_arity_witness :
  visitAssignStatement (λ v, v) (λ _ _, Err (RuntimeError "")) 1 2 ["a"; "b"] []
    (RhsResultRange [Leaf 0 Unknown; Leaf 1 Unknown; Leaf 2 Unknown]) newSymbolTable
  = Err (CompilerError 1 "DSLVisitor"
           "right-hand side expression of assignment to multiple variables must return multiple values, one for each variable on the left-hand side").
Proof.
  apply (proj2 (assignment_arity (λ v, v) (λ _ _, Err (RuntimeError "")) 1 2 ["a"; "b"] []
                  (RhsResultRange [Leaf 0 Unknown; Leaf 1 Unknown; Leaf 2 Unknown])
                  newSymbolTable)).
  - cbn. lia.
  - intros results [= <-]. cbn. lia.
Defined.

Lemma plain_assignment (retValWithInferredType : value → value) (loc : location)
    (var : string) (symbolTable : ScopedSymbolTable) (val : value) :
  match handleAssignmentPart retValWithInferredType loc var None symbolTable val with
  | Ok symbolTable' =>
      ¬ boundReadOnly symbolTable var
      ∧ symbolTable' =
          st_put var (mkSymbolInfo (renameIf symbolTable val) false) symbolTable
  | Err e => boundReadOnly symbolTable var ∧ e = readOnlyViolation loc var
  end.
Proof.
  unfold handleAssignmentPart, boundReadOnly.
  destruct (st_has symbolTable var) eqn:Ehas.
  - apply st_has_get in Ehas as [info Hinfo]. rewrite Hinfo. cbn [from_option andb].
    destruct (isReadOnly info) eqn:Ero.
    + split; [by exists info|done].
    + split; [|done]. intros (info' & [= <-] & Hro). congruence.
  - cbn [andb]. split; [|done]. intros (info & Hinfo & _).
    assert (st_has symbolTable var = true) by (apply st_has_get; eauto). congruence.
Qed.

Lemma boundReadOnly_put (symbolTable : ScopedSymbolTable) (var x : string) (v : value) :
  boundReadOnly (st_put var (mkSymbolInfo v false) symbolTable) x
  ↔ x ≠ var ∧ boundReadOnly symbolTable x.
Proof.
  unfold boundReadOnly. destruct (decide (x = var)) as [->|Hne].
  - rewrite st_get_put. split; [by intros (info & [= <-] & Hro)|by intros [??]].
  - rewrite st_get_put_ne by done. split; [by intros ?|by intros [_ ?]].
Qed.

Lemma boundWritable_put (symbolTable : ScopedSymbolTable) (var x : string) (v : value) :
  boundWritable (st_put var (mkSymbolInfo v false) symbolTable) x
  ↔ x = var ∨ boundWritable symbolTable x.
Proof.
  unfold boundWritable. destruct (decide (x = var)) as [->|Hne].
  - rewrite st_get_put. split; [by left|]. intros _. by eexists.
  - rewrite st_get_put_ne by done. split; [by right|by intros [?|?]].
Qed.

Lemma assignParts_plain (retValWithInferredType : value → value) (loc : location)
    (identifiers : list string) :
  ∀ (i : nat) (rhsAsRR : list value) (symbolTable : ScopedSymbolTable),
    length rhsAsRR = length identifiers →
    match assignParts retValWithInferredType loc i identifiers [] rhsAsRR symbolTable with
    | Ok symbolTable' =>
        Forall (λ var, ¬ boundReadOnly symbolTable var) identifiers
        ∧ Forall (boundWritable symbolTable') identifiers
        ∧ ∀ x, x ∉ identifiers → st_get symbolTable' x = st_get symbolTable x
    | Err e =>
        ∃ var, var ∈ identifiers ∧ boundReadOnly symbolTable var
               ∧ e = readOnlyViolation loc var
    end.
Proof.
  induction identifiers as [|var identifiers IH]; intros i [|val rhsAsRR] symbolTable Hlen;
    try done.
  cbn [assignParts]. rewrite lookup_nil.
  pose proof (plain_assignment retValWithInferredType loc var symbolTable val) as Hpart.
  destruct (handleAssignmentPart _ _ _ _ _ _) as [symbolTable1|e]; cbn [mbind result_bind].
  - destruct Hpart as [Hnot ->].
    specialize (IH (S i) rhsAsRR
                  (st_put var (mkSymbolInfo (renameIf symbolTable val) false) symbolTable)
                  ltac:(by injection Hlen)).
    destruct (assignParts _ _ _ _ _ _ _) as [symbolTable'|e].
    + destruct IH as (Hro & Hw & Hother). split; [|split].
      * constructor; [done|]. eapply Forall_impl; [exact Hro|]. intros x Hx Hx'.
        destruct (decide (x = var)) as [->|Hne]; [done|].
        apply Hx. apply boundReadOnly_put. done.
      * constructor; [|done].
        destruct (decide (var ∈ identifiers)) as [Hin|Hout].
        -- rewrite Forall_forall in Hw. by apply Hw.
        -- unfold boundWritable. rewrite Hother by done. rewrite st_get_put. by eexists.
      * intros x Hx. apply not_elem_of_cons in Hx as [Hne Hx].
        rewrite Hother by done. by rewrite st_get_put_ne.
    + destruct IH as (x & Hin & Hro & ->). apply boundReadOnly_put in Hro as [_ Hro].
      exists x. split; [by right|done].
  - destruct Hpart as [Hro ->]. exists var. split; [by left|done].
Qed.

(** An assignment of the results of an operation to as many variables,
    none of them indexed: it goes through exactly when none of the
    variables is bound read-only; then every one of them is bound and may
    be assigned again, and no other name has changed. *)
Theorem multiple_assignment (retValWithInferredType : value → value)
    (valueOrError : location → rhsAny → result value) (loc exprLoc : location)
    (identifiers : list string) (results : list value)
    (symbolTable : ScopedSymbolTable) :
  1 < length identifiers → length results = length identifiers →
  match visitAssignStatement retValWithInferredType valueOrError loc exprLoc identifiers []
          (RhsResultRange results) symbolTable with
  | Ok symbolTable' =>
      Forall (λ var, ¬ boundReadOnly symbolTable var) identifiers
      ∧ Forall (boundWritable symbolTable') identifiers
      ∧ ∀ x, x ∉ identifiers → st_get symbolTable' x = st_get symbolTable x
  | Err e =>
      ∃ var, var ∈ identifiers ∧ boundReadOnly symbolTable var
             ∧ e = CompilerError loc "DSLVisitor (handleAssignmentPart)"
                     ("trying to assign read-only variable " +:+ var)
  end.
Proof.
  intros Hmany Hlen. unfold visitAssignStatement.
  pose proof (assignParts_plain retValWithInferredType loc identifiers 0 results
                symbolTable Hlen) as H.
  destruct identifiers as [|var [|var' identifiers]]; [cbn in Hmany; lia..|].
  by rewrite decide_True.
Qed.

Lemma multiple_assignment_witness :
  match visitAssignStatement (λ v, v) (λ _ _, Err (RuntimeError "")) 1 2 ["a"; "b"] []
          (RhsResultRange [Leaf 0 Unknown; Leaf 1 Unknown]) newSymbolTable with
  | Ok symbolTable' =>
      Forall (λ var, ¬ boundReadOnly newSymbolTable var) ["a"; "b"]
      ∧ Forall (boundWritable symbolTable') ["a"; "b"]
      ∧ ∀ x, x ∉ ["a"; "b"] → st_get symbolTable' x = st_get newSymbolTable x
  | Err e =>
      ∃ var, var ∈ ["a"; "b"] ∧ boundReadOnly newSymbolTable var
             ∧ e = CompilerError 1 "DSLVisitor (handleAssignmentPart)"
                     ("trying to assign read-only variable " +:+ var)
  end.
Proof.
  apply (multiple_assignment (λ v, v) (λ _ _, Err (RuntimeError "")) 1 2 ["a"; "b"]
           [Leaf 0 Unknown; Leaf 1 Unknown] newSymbolTable); cbn; lia.
Defined.

Lemma st_has_value_spec (symbolTable : ScopedSymbolTable) (v : value) :
  st_has_value symbolTable v = true
  ↔ ∃ sc sym info, sc ∈ scopes symbolTable ∧ sc !! sym = Some info ∧ si_value info = v.
Proof.
  unfold st_has_value. rewrite existsb_exists. split.
  - intros (sc & Hin & Hsc). apply bool_decide_eq_true, Exists_exists in Hsc.
    destruct Hsc as ([sym info] & Hkv & Hv). exists sc, sym, info.
    split; [by apply list_elem_of_In|]. split; [by apply elem_of_map_to_list|done].
  - intros (sc & sym & info & Hin & Hsym & Hv). exists sc.
    split; [by apply list_elem_of_In|]. apply bool_decide_eq_true, Exists_exists.
    exists (sym, info). split; [by apply elem_of_map_to_list|done].
Qed.

(** Reading after writing: after [x = v], reading [x] gives [v] itself
    when no name in any scope was bound to [v], and the renaming
    [RenameOp] of [v], a new value of the type of [v], when some name was,
    as in [y = x]; every other name stands for what it stood for; and
    a name that is not bound cannot be read. *)
Theorem assign_then_read (retValWithInferredType : value → value) (loc loc' : location)
    (var : string) (symbolTable symbolTable' : ScopedSymbolTable) (val : value) :
  handleAssignmentPart retValWithInferredType loc var None symbolTable val
    = Ok symbolTable' →
  ((∀ sc sym info,
      sc ∈ scopes symbolTable → sc !! sym = Some info → si_value info ≠ val) →
   visitIdentifierExpr loc' [var] symbolTable' = Ok val)
  ∧ ((∃ sc sym info,
        sc ∈ scopes symbolTable ∧ sc !! sym = Some info ∧ si_value info = val) →
     visitIdentifierExpr loc' [var] symbolTable' = Ok (RenameOp (getType val) val))
  ∧ (∀ identifiers info,
       st_get symbolTable (joinWith "." identifiers) = Some info →
       si_value info = val →
       visitIdentifierExpr loc' identifiers symbolTable = Ok val
       ∧ visitIdentifierExpr loc' [var] symbolTable' = Ok (RenameOp (getType val) val))
  ∧ (∀ identifiers, joinWith "." identifiers ≠ var →
       visitIdentifierExpr loc' identifiers symbolTable'
       = visitIdentifierExpr loc' identifiers symbolTable)
  ∧ (∀ identifiers, st_get symbolTable' (joinWith "." identifiers) = None →
       visitIdentifierExpr loc' identifiers symbolTable'
       = Err (CompilerError loc' "DSLVisitor"
                ("variable `" +:+ joinWith "." identifiers +:+
                 "` referenced before assignment"))).
Proof.
  intros Hassign.
  pose proof (plain_assignment retValWithInferredType loc var symbolTable val) as H.
  rewrite Hassign in H. destruct H as [_ ->].
  assert (visitIdentifierExpr loc' [var]
            (st_put var (mkSymbolInfo (renameIf symbolTable val) false) symbolTable)
          = Ok (renameIf symbolTable val)) as Hread.
  { unfold visitIdentifierExpr. cbn [joinWith]. by rewrite st_get_put. }
  assert ((∃ sc sym info,
             sc ∈ scopes symbolTable ∧ sc !! sym = Some info ∧ si_value info = val) →
          renameIf symbolTable val = RenameOp (getType val) val) as Hrenamed.
  { intros Hbound. apply st_has_value_spec in Hbound. unfold renameIf. by rewrite Hbound. }
  split; [|split; [|split; [|split]]].
  - intros Hfresh. rewrite Hread. f_equal. unfold renameIf.
    destruct (st_has_value symbolTable val) eqn:Ehas; [|done].
    apply st_has_value_spec in Ehas as (sc & sym & info & Hin & Hsym & Hv).
    by destruct (Hfresh sc sym info).
  - intros Hbound. by rewrite Hread, Hrenamed.
  - intros identifiers info Hget Hv. split.
    + unfold visitIdentifierExpr. cbv zeta. rewrite Hget. by rewrite Hv.
    + rewrite Hread, Hrenamed; [done|].
      destruct (lookupScopes_Some _ _ _ Hget) as (sc & Hin & Hsym).
      by exists sc, (joinWith "." identifiers), info.
  - intros identifiers Hne. unfold visitIdentifierExpr. cbv zeta. by rewrite st_get_put_ne.
  - intros identifiers Hnone. unfold visitIdentifierExpr. cbv zeta. by rewrite Hnone.
Qed.

(** [y = x] where [x] stands for a value: [y] stands for a renaming of
    it. *)
Lemma assign_then_read_witness :
  visitIdentifierExpr 2 ["y"]
    (st_put "y" (mkSymbolInfo (RenameOp (Scalar F64) (Leaf 0 (Scalar F64))) false)
       (st_put "x" (mkSymbolInfo (Leaf 0 (Scalar F64)) false) newSymbolTable))
  = Ok (RenameOp (Scalar F64) (Leaf 0 (Scalar F64))).
Proof.
  refine (proj1 (proj2 (assign_then_read (λ v, v) 1 2 "y"
            (st_put "x" (mkSymbolInfo (Leaf 0 (Scalar F64)) false) newSymbolTable)
            _ (Leaf 0 (Scalar F64)) _)) _).
  - vm_compute. reflexivity.
  - exists {["x" := mkSymbolInfo (Leaf 0 (Scalar F64)) false]}, "x",
      (mkSymbolInfo (Leaf 0 (Scalar F64)) false).
    split; [|split; [|done]].
    + left.
    + apply lookup_insert_eq.
Defined.

(** *** What the rectification makes of a block *)

Lemma rectifyLoop_wf (fuel : nat) :
  ∀ funcBlock funcBlock',
    wfBlock funcBlock = true → rectifyLoop fuel funcBlock = Finished funcBlock' →
    wfBlock funcBlock' = true.
Proof.
  induction fuel as [|fuel IH]; intros b b' Hwf; [done|].
  cbn [rectifyLoop]. destruct (nextRound b) as [|p| |] eqn:Eround; try done.
  - by intros [= <-].
  - pose proof (nextRound_leadsTo _ _ Hwf Eround) as Hlead.
    destruct (rectifyEarlyReturnAt p [] b) as [b1| | |] eqn:Estep; try done.
    cbn [mbind outcome_bind].
    destruct (rectifyEarlyReturnAt_decreases p [] b b1 Hwf eq_refl Hlead Estep)
      as (Hwf1 & _). by apply IH.
Qed.

(** The rectification keeps blocks well formed: what it returns for a
    block in which yields are the last operations of their blocks, returns
    and yields have no regions and an [scf.if] has one or two, is such a
    block again, and no round is left to do on it. *)
Theorem rectified_block_is_well_formed (fuel : nat) (funcBlock funcBlock' : list op) :
  wfBlock funcBlock = true →
  rectifyEarlyReturns fuel funcBlock = Finished funcBlock' →
  wfBlock funcBlock' = true ∧ nextRound funcBlock' = RoundBreak.
Proof.
  intros Hwf. unfold rectifyEarlyReturns. case_bool_decide as Hnil.
  - intros [= <-]. by subst.
  - intros H. split; [by eapply rectifyLoop_wf|by eapply rectifyLoop_break].
Qed.

Lemma walkOps_nil (b : list op) :
  Forall (λ o, walkOp o = [] ∧ isReturnOp o = false) b → ∀ i, walkOps i b = [].
Proof.
  induction 1 as [|o b [Ho Hret] _ IH]; intros i; [done|].
  cbn [walkOps]. by rewrite Ho, Hret, IH.
Qed.

Lemma isReturnOp_returnFree (o : op) : hasReturn o = false → isReturnOp o = false.
Proof.
  intros H. destruct (isReturnOp o) eqn:E; [|done].
  apply isReturnOp_hasReturn in E. congruence.
Qed.

Lemma walkRegions_nil (rs : list (list op)) :
  Forall (λ b, walkOps 0 b = []) rs → ∀ r, walkRegions r rs = [].
Proof.
  induction 1 as [|b rs Hb _ IH]; intros r; [done|].
  cbn [walkRegions]. by rewrite Hb, IH.
Qed.

Lemma walkOp_returnFree (o : op) : hasReturn o = false → walkOp o = [].
Proof.
  induction o as [k l rs IH] using op_ind'. intros Hfree.
  rewrite hasReturn_unfold in Hfree. apply orb_false_iff in Hfree as [_ Hrs].
  rewrite walkOp_unfold. apply walkRegions_nil.
  rewrite Forall_forall in IH. apply Forall_forall. intros b Hb.
  apply walkOps_nil. specialize (IH b Hb). rewrite Forall_forall in IH.
  apply Forall_forall. intros o Ho.
  assert (hasReturn o = false) as Hfree.
  { destruct (hasReturn o) eqn:E; [|done].
    assert (existsb (existsb hasReturn) rs = true); [|congruence].
    apply existsb_exists. exists b. split; [by apply list_elem_of_In|].
    apply existsb_exists. exists o. split; [by apply list_elem_of_In|done]. }
  split; [by apply IH|by apply isReturnOp_returnFree].
Qed.

Lemma walkOps_returnFree (b : list op) (i : nat) : returnFree b = true → walkOps i b = [].
Proof.
  intros Hfree. apply walkOps_nil. apply Forall_forall. intros o Ho.
  unfold returnFree in Hfree. rewrite forallb_forall in Hfree.
  apply list_elem_of_In, Hfree, negb_true_iff in Ho.
  split; [by apply walkOp_returnFree|by apply isReturnOp_returnFree].
Qed.

Lemma walkOps_app (a b : list op) :
  ∀ i, walkOps i (a ++ b) = walkOps i a ++ walkOps (i + length a) b.
Proof.
  induction a as [|o a IH]; intros i.
  - cbn. by rewrite Nat.add_0_r.
  - cbn [app walkOps length]. rewrite IH, <- !app_assoc.
    by replace (S i + length a) with (i + S (length a)) by lia.
Qed.

Lemma firstReturn_app_returnFree (a behind : list op) (ret : op) :
  returnFree a = true → isReturnOp ret = true →
  firstReturn (a ++ ret :: behind) = Some (length a).
Proof.
  intros Hfree Hret. induction a as [|o a IH]; cbn.
  - by rewrite Hret.
  - unfold returnFree in Hfree. cbn in Hfree. apply andb_true_iff in Hfree as [Ho Ha].
    apply negb_true_iff in Ho. rewrite (isReturnOp_returnFree o Ho).
    by rewrite (IH Ha).
Qed.

Lemma opsAfterIf_yieldFree (anc : ancestors) (next : list op) :
  yieldFree next = true → opsAfterIf anc next = Finished (next, []).
Proof.
  intros Hfree. induction next as [|o next IH]; [apply opsAfterIf_nil|].
  unfold yieldFree in Hfree. cbn in Hfree. apply andb_true_iff in Hfree as [Ho Hnext].
  apply negb_true_iff in Ho. rewrite opsAfterIf_cons, Ho. by rewrite (IH Hnext).
Qed.

Lemma eraseYields_yieldFree (b : list op) (n : nat) :
  yieldFree b = true → eraseYields n b = Finished b.
Proof.
  intros Hfree. induction b as [|o b IH]; [done|].
  unfold yieldFree in Hfree. cbn in Hfree. apply andb_true_iff in Hfree as [Ho Hb].
  apply negb_true_iff in Ho. cbn [eraseYields]. rewrite Ho. by rewrite (IH Hb).
Qed.

Lemma yieldFree_snoc_return (rest : list op) (l : location) :
  yieldFree rest = true → yieldFree (rest ++ [Op daphne_return l []]) = true.
Proof. intros H. unfold yieldFree in *. by rewrite forallb_app, H. Qed.

Lemma hasReturn_snoc_yield (ops : list op) (l : location) :
  returnFree ops = true → existsb hasReturn (ops ++ [Op scf_yield l []]) = false.
Proof.
  intros H. rewrite existsb_app, (existsb_hasReturn_returnFree _ H). done.
Qed.

Lemma rectifyCase_then (case : string) (loc lRet : location) (anc : ancestors)
    (thenOps behind next : list op) :
  returnFree thenOps = true →
  rectifyCase case loc anc (thenOps ++ Op daphne_return lRet [] :: behind) next
  = Finished (thenOps ++ [Op scf_yield lRet []], next).
Proof.
  intros Hthen. unfold rectifyCase. rewrite firstReturn_app_returnFree by done.
  cbn [mbind outcome_bind]. unfold removeOperationsBeforeReturnOp.
  rewrite (cons_middle _ thenOps behind), app_assoc.
  rewrite take_app_length' by (rewrite length_app; cbn; lia).
  rewrite last_snoc. change (isReturnOp (Op daphne_return lRet [])) with true.
  cbv iota. by rewrite removelast_last.
Qed.

Lemma rectifyCase_else_empty (case : string) (loc lEnd : location) (rest : list op) :
  yieldFree rest = true →
  rectifyCase case loc [] [] (rest ++ [Op daphne_return lEnd []])
  = Finished (rest ++ [Op scf_yield lEnd []], []).
Proof.
  intros Hyield. unfold rectifyCase. cbn [firstReturn].
  unfold rectifyIfCaseWithoutReturnOp. cbn [last from_option app].
  rewrite opsAfterIf_yieldFree by (by apply yieldFree_snoc_return).
  cbn [mbind outcome_bind leadingIfs app eraseYields].
  change (isYieldOp (Op scf_yield unknownLoc [])) with true. cbv iota.
  rewrite eraseYields_yieldFree by (by apply yieldFree_snoc_return).
  cbn [mbind outcome_bind]. rewrite last_snoc.
  change (isReturnOp (Op daphne_return lEnd [])) with true. cbv iota.
  by rewrite removelast_last.
Qed.

(** An [if] without an else-branch that returns early, in front of
    operations without returns and of the return that ends the function:
    the operations of its branch up to the return stay there, those behind
    the [if] become its else-branch, both branches yield what they returned,
    and one return of the results of the [if] is left behind it.  Two
    rounds of the loop do it. *)
Theorem early_return_moves_rest_into_else (fuel : nat) (lIf lRet lEnd : location)
    (thenOps behind rest : list op) :
  returnFree thenOps = true → returnFree behind = true →
  returnFree rest = true → yieldFree rest = true →
  rectifyEarlyReturns (S (S fuel))
    (Op scf_if lIf [thenOps ++ Op daphne_return lRet [] :: behind]
     :: rest ++ [Op daphne_return lEnd []])
  = Finished
      [ Op scf_if unknownLoc
          [ thenOps ++ [Op scf_yield lRet []]; rest ++ [Op scf_yield lEnd []] ];
        Op daphne_return lIf [] ].
Proof.
  intros Hthen Hbehind Hrest Hyield.
  set (thenBlock := thenOps ++ Op daphne_return lRet [] :: behind).
  set (ifOp := Op scf_if lIf [thenBlock]).
  set (next := rest ++ [Op daphne_return lEnd []]).
  set (result := [ Op scf_if unknownLoc
                     [ thenOps ++ [Op scf_yield lRet []]; rest ++ [Op scf_yield lEnd []] ];
                   Op daphne_return lIf [] ]).
  assert (Hwalk : walk (ifOp :: next)
                  = [([(0, 0)], length thenOps); ([], S (length rest))]).
  { unfold walk. cbn [walkOps]. unfold ifOp at 1. rewrite walkOp_unfold.
    cbn [walkRegions]. unfold thenBlock. rewrite walkOps_app.
    rewrite (walkOps_returnFree thenOps) by done. cbn [walkOps app].
    rewrite (walkOp_unfold daphne_return). cbn [walkRegions].
    rewrite (walkOps_returnFree behind) by done.
    unfold next. rewrite walkOps_app, (walkOps_returnFree rest) by done.
    cbn [walkOps app]. rewrite (walkOp_unfold daphne_return). cbn. done. }
  assert (Hround : nextRound (ifOp :: next) = RoundRectify [(0, 0)]).
  { unfold nextRound, mostNestedReturn. rewrite Hwalk. cbn [foldl].
    rewrite decide_False by (unfold nested; cbn; lia). done. }
  assert (Hstep : rectifyEarlyReturnAt [(0, 0)] [] (ifOp :: next) = Finished result).
  { cbn [rectifyEarlyReturnAt]. change ((ifOp :: next) !! 0) with (Some ifOp).
    cbv iota beta. change (drop 1 (ifOp :: next)) with next.
    change (take 0 (ifOp :: next)) with ([] : list op).
    unfold rectifyEarlyReturn.
    change (default [] (op_regions ifOp !! 0)) with thenBlock.
    change (default [] (op_regions ifOp !! 1)) with ([] : list op).
    change (op_loc ifOp) with lIf.
    unfold thenBlock. rewrite rectifyCase_then by done. cbn [mbind outcome_bind].
    unfold next. rewrite rectifyCase_else_empty by done. done. }
  assert (Hdone : nextRound result = RoundBreak).
  { unfold nextRound, mostNestedReturn, walk, result. cbn [walkOps].
    rewrite walkOp_returnFree.
    - rewrite (walkOp_unfold daphne_return). done.
    - rewrite hasReturn_unfold. cbn [existsb].
      by rewrite !hasReturn_snoc_yield by done. }
  unfold rectifyEarlyReturns. rewrite bool_decide_false by done.
  cbn [rectifyLoop]. rewrite Hround, Hstep. cbn [mbind outcome_bind].
  by rewrite Hdone.
Qed.

Lemma early_return_moves_rest_into_else_witness :
  rectifyEarlyReturns 2
    (Op scf_if 1 [[Op (other_op "daphne.print") 2 []] ++ Op daphne_return 3 []
                  :: [Op scf_yield 1 []]]
     :: [Op (other_op "daphne.print") 4 []] ++ [Op daphne_return 5 []])
  = Finished
      [ Op scf_if unknownLoc
          [ [Op (other_op "daphne.print") 2 []] ++ [Op scf_yield 3 []];
            [Op (other_op "daphne.print") 4 []] ++ [Op scf_yield 5 []] ];
        Op daphne_return 1 [] ].
Proof. by apply (early_return_moves_rest_into_else 0). Defined.

Lemma rectified_block_is_well_formed_witness :
  wfBlock twoEarlyReturns_rectified = true
  ∧ nextRound twoEarlyReturns_rectified = RoundBreak.
Proof.
  apply (rectified_block_is_well_formed 4 twoEarlyReturns); vm_compute; reflexivity.
Defined.

(** *** Calls of user-defined functions *)

Lemma length_callResults (loc : location) (udf : FuncOp) :
  length (callResults loc udf) = length (func_results udf).
Proof. unfold callResults. by rewrite length_imap. Qed.

(** The results of a call of a user-defined function and the variables
    of an assignment: with two variables or more (none indexed), the
    assignment of the call is refused unless the function has as many
    result types as there are variables, also when it has one or none; when
    it has as many, the assignment goes through unless a variable is
    read-only, and all the variables are bound then. *)
Theorem udf_call_results_fit_variables (printType : type → string)
    (retValWithInferredType : value → value)
    (valueOrError : location → rhsAny → result value)
    (m : functionsSymbolMap) (loc exprLoc : location) (func : string)
    (args_vec : list value) (rhs : rhsAny) (identifiers : list string)
    (symbolTable : ScopedSymbolTable) :
  visitCallExpr_udf printType m loc func false args_vec = Ok (Some rhs) →
  1 < length identifiers →
  ∃ udf,
    findMatchingUDF printType m func args_vec loc = Ok (Some udf)
    ∧ match visitAssignStatement retValWithInferredType valueOrError loc exprLoc
              identifiers [] rhs symbolTable with
      | Ok symbolTable' =>
          length (func_results udf) = length identifiers
          ∧ Forall (boundWritable symbolTable') identifiers
      | Err e =>
          (length (func_results udf) ≠ length identifiers
           ∧ e = CompilerError loc "DSLVisitor"
                   "right-hand side expression of assignment to multiple variables must return multiple values, one for each variable on the left-hand side")
          ∨ (length (func_results udf) = length identifiers
             ∧ ∃ var, var ∈ identifiers ∧ boundReadOnly symbolTable var)
      end.
Proof.
  unfold visitCallExpr_udf.
  destruct (findMatchingUDF printType m func args_vec loc) as [[udf|]|] eqn:Efind;
    cbn [mbind result_bind]; try done.
  intros Hrhs Hmany. exists udf. split; [done|].
  pose proof (length_callResults loc udf) as Hlen.
  unfold visitAssignStatement.
  destruct identifiers as [|var [|var' identifiers]]; [cbn in Hmany; lia..|].
  set (ids := var :: var' :: identifiers) in *.
  case_decide as Hresults.
  - injection Hrhs as <-. case_decide as Hfit.
    + pose proof (assignParts_plain retValWithInferredType loc ids 0
                    (callResults loc udf) symbolTable Hfit) as H.
      destruct (assignParts _ _ _ _ _ _ _) as [symbolTable'|e].
      * destruct H as (_ & Hw & _). split; [congruence|done].
      * destruct H as (x & Hin & Hro & _). right. split; [congruence|]. by exists x.
    + left. split; [congruence|done].
  - destruct (callResults loc udf) as [|result0 results] eqn:Eco;
      injection Hrhs as <-; left; (split; [|done]); cbn in Hmany; subst ids; cbn in *; lia.
Qed.

Definition pair_of_f64 : FuncOp :=
  mkFuncOp "minmax-1" [Matrix (Scalar F64)] [Scalar F64; Scalar F64].

Lemma udf_call_results_fit_variables_witness :
  ∃ udf,
    findMatchingUDF (λ _, "") [("minmax", pair_of_f64)] "minmax"
      [Leaf 0 (Matrix (Scalar F64))] 1 = Ok (Some udf)
    ∧ match visitAssignStatement (λ v, v) (λ _ _, Err (RuntimeError "")) 1 2
              ["lo"; "hi"] []
              (RhsResultRange [OpResult 1 0 (Scalar F64); OpResult 1 1 (Scalar F64)])
              newSymbolTable with
      | Ok symbolTable' =>
          length (func_results udf) = length ["lo"; "hi"]
          ∧ Forall (boundWritable symbolTable') ["lo"; "hi"]
      | Err e =>
          (length (func_results udf) ≠ length ["lo"; "hi"]
           ∧ e = CompilerError 1 "DSLVisitor"
                   "right-hand side expression of assignment to multiple variables must return multiple values, one for each variable on the left-hand side")
          ∨ (length (func_results udf) = length ["lo"; "hi"]
             ∧ ∃ var, var ∈ ["lo"; "hi"] ∧ boundReadOnly newSymbolTable var)
      end.
Proof.
  apply (udf_call_results_fit_variables (λ _, "") (λ v, v) (λ _ _, Err (RuntimeError ""))
           [("minmax", pair_of_f64)] 1 2 "minmax" [Leaf 0 (Matrix (Scalar F64))]
           (RhsResultRange [OpResult 1 0 (Scalar F64); OpResult 1 1 (Scalar F64)])
           ["lo"; "hi"] newSymbolTable).
  - vm_compute. reflexivity.
  - cbn. lia.
Defined.

(** *** Registering functions *)

Lemma ascii_compare_trans (a b c : ascii) :
  Ascii.compare a b ≠ Gt → Ascii.compare b c ≠ Gt →
  Ascii.compare a c ≠ Gt
  ∧ (Ascii.compare a c = Eq → Ascii.compare a b = Eq ∧ Ascii.compare b c = Eq).
Proof.
  unfold Ascii.compare. intros Hab Hbc.
  rewrite N.compare_gt_iff in Hab, Hbc. rewrite N.compare_gt_iff.
  rewrite !N.compare_eq_iff. lia.
Qed.

Lemma string_compare_trans (a b c : string) :
  String.compare a b ≠ Gt → String.compare b c ≠ Gt → String.compare a c ≠ Gt.
Proof.
  revert b c. induction a as [|x a IH]; intros [|y b] [|z c]; cbn; try done.
  intros Hab Hbc.
  destruct (ascii_compare_trans x y z) as [Hle Heq].
  - by destruct (Ascii.compare x y).
  - by destruct (Ascii.compare y z).
  - destruct (Ascii.compare x z) eqn:Exz; try done.
    destruct (Heq eq_refl) as [Exy Eyz]. rewrite Exy in Hab. rewrite Eyz in Hbc.
    by apply (IH b c).
Qed.

Lemma string_le_trans (a b c : string) : string_le a b → string_le b c → string_le a c.
Proof.
  unfold string_le, String.leb. intros Hab Hbc.
  pose proof (string_compare_trans a b c) as H.
  destruct (String.compare a b), (String.compare b c), (String.compare a c);
    try done; by exfalso; apply H.
Qed.

Lemma string_le_total (a b : string) : string_le a b ∨ string_le b a.
Proof. apply String.leb_total. Qed.

Lemma string_le_refl (a : string) : string_le a a.
Proof. by destruct (string_le_total a a). Qed.

Lemma multimapInsert_elem (m : functionsSymbolMap) (e x : string * FuncOp) :
  x ∈ multimapInsert m e → x = e ∨ x ∈ m.
Proof.
  induction m as [|y m IH]; cbn.
  - rewrite list_elem_of_singleton. by left.
  - case_decide.
    + rewrite !elem_of_cons. intros [->|Hin]; [by right; left|].
      destruct (IH Hin); [by left|by right; right].
    + rewrite elem_of_cons. intros [->|Hin]; [by left|by right].
Qed.

Lemma multimapInsert_sorted (m : functionsSymbolMap) (e : string * FuncOp) :
  sortedByName m → sortedByName (multimapInsert m e).
Proof.
  unfold sortedByName. induction 1 as [|x m Hsorted IH Hall]; cbn.
  - repeat constructor.
  - case_decide as Hle.
    + constructor; [done|]. apply Forall_forall. intros y Hy.
      destruct (multimapInsert_elem _ _ _ Hy) as [->|Hin]; [done|].
      by eapply Forall_forall in Hall.
    + assert (name_le e x) as Hex by (by destruct (string_le_total e.1 x.1)).
      constructor; [by constructor|]. constructor; [done|].
      eapply Forall_impl; [exact Hall|]. intros y Hxy.
      by eapply string_le_trans.
Qed.

Lemma equal_range_cons (e : string * FuncOp) (m : functionsSymbolMap) (name : string) :
  equal_range (e :: m) name
  = (if decide (e.1 = name) then [e.2] else []) ++ equal_range m name.
Proof. unfold equal_range. cbn [filter list_filter]. by case_decide. Qed.

Lemma equal_range_above (m : functionsSymbolMap) (x : string * FuncOp) (name : string) :
  Forall (name_le x) m → ¬ string_le x.1 name → equal_range m name = [].
Proof.
  induction 1 as [|y m Hxy Hall IH]; intros Hgt; [done|].
  rewrite equal_range_cons, IH by done. case_decide as Hy; [|done].
  by subst name.
Qed.

Lemma equal_range_insert (m : functionsSymbolMap) (k name : string) (v : FuncOp) :
  sortedByName m →
  equal_range (multimapInsert m (k, v)) name
  = equal_range m name ++ (if decide (k = name) then [v] else []).
Proof.
  unfold sortedByName. induction 1 as [|x m Hsorted IH Hall]; cbn [multimapInsert].
  - rewrite equal_range_cons. cbn. by rewrite app_nil_r.
  - destruct (decide (name_le x (k, v))) as [Hle|Hle].
    + rewrite (equal_range_cons x (multimapInsert m (k, v))), (equal_range_cons x m), IH.
      by rewrite app_assoc.
    + rewrite (equal_range_cons (k, v)). cbn [fst snd].
      case_decide as Hk; [|by rewrite app_nil_r].
      subst name. unfold name_le in Hle. cbn in Hle.
      rewrite equal_range_cons, (equal_range_above m x k) by done.
      case_decide as Hx; [|done]. rewrite Hx in Hle. destruct Hle. apply string_le_refl.
Qed.

Lemma importFunctions_sorted (finalPrefix : string) (imported origFuncMap : functionsSymbolMap) :
  sortedByName origFuncMap → sortedByName (importFunctions finalPrefix origFuncMap imported).
Proof.
  unfold importFunctions. revert origFuncMap.
  induction imported as [|e imported IH]; intros origFuncMap Hsorted; [done|].
  cbn [foldl]. apply IH. destruct (contains dot e.1); [done|].
  by apply multimapInsert_sorted.
Qed.

Lemma equal_range_import (finalPrefix : string) (imported : list (string * FuncOp))
    (origFuncMap : functionsSymbolMap) (name : string) :
  sortedByName origFuncMap →
  equal_range (importFunctions finalPrefix origFuncMap imported) name
  = equal_range origFuncMap name
    ++ (snd <$> filter (λ e, contains dot e.1 = false ∧ finalPrefix +:+ e.1 = name) imported).
Proof.
  unfold importFunctions. revert origFuncMap.
  induction imported as [|e imported IH]; intros origFuncMap Hsorted; cbn [foldl].
  - cbn. by rewrite app_nil_r.
  - cbn [filter list_filter]. destruct (contains dot e.1) eqn:Edot.
    + rewrite IH by done. case_decide as H; [by destruct H|done].
    + rewrite IH by (by apply multimapInsert_sorted).
      rewrite equal_range_insert by done. rewrite <- app_assoc. f_equal.
      cbn [fst snd].
      destruct (decide (finalPrefix +:+ e.1 = name)) as [Hname|Hname].
      * by rewrite decide_True.
      * rewrite decide_False; [done|]. by intros [_ ?].
Qed.

(** A function can call itself only when its return types are declared:
    the call in the body of a function whose name was not registered
    before finds the function itself when the return types are declared
    and the arguments fit its parameters, is refused when they are
    declared and the arguments do not fit, and finds no user-defined
    function at all (it goes on to the built-in functions) when no return
    types are declared. *)
Theorem recursion_needs_return_types (printType : type → string)
    (functionSymbolName functionName : string) (funcArgTypes : list type)
    (retTys : option (list type)) (m : functionsSymbolMap)
    (args : list value) (loc : location) :
  sortedByName m →
  equal_range m functionName = [] →
  findMatchingUDF printType
    (functionsAtBody functionSymbolName functionName funcArgTypes retTys m).2
    functionName args loc
  = match retTys with
    | Some returnTypes =>
        let functionOperation := mkFuncOp functionSymbolName funcArgTypes returnTypes in
        if decide (length funcArgTypes = length args
                   ∧ Forall2 (λ arg paramTy,
                                argAndUDFParamCompatible (getType arg) paramTy = true)
                       args funcArgTypes)
        then Ok (Some functionOperation)
        else Err (CompilerError loc "DSLVisitor"
                    (noDefinitionMessage printType functionName args [functionOperation]))
    | None => Ok None
    end.
Proof.
  intros Hsorted Hnew. unfold findMatchingUDF, functionsAtBody.
  destruct retTys as [returnTypes|]; cbn [snd]; [|by rewrite Hnew].
  unfold createUserDefinedFuncOp. cbn [snd]. rewrite equal_range_insert, Hnew by done.
  rewrite decide_True by done. cbn [app find].
  set (f := mkFuncOp _ _ _).
  assert (candidateMatches args f = true
          ↔ length funcArgTypes = length args
            ∧ Forall2 (λ arg paramTy,
                         argAndUDFParamCompatible (getType arg) paramTy = true)
                args funcArgTypes) as Hmatch.
  { unfold candidateMatches. cbn [func_inputs f].
    destruct (decide (length funcArgTypes ≠ length args)) as [Hlen|Hlen].
    - split; [done|]. by intros [? _].
    - apply dec_stable in Hlen. split; [|intros [_ Hall]].
      + intros Hall. split; [done|]. clear f Hnew. revert args Hlen Hall.
        induction funcArgTypes as [|ty tys IH]; intros [|arg args]; cbn; try done.
        intros [= Hlen]. destruct (argAndUDFParamCompatible _ _) eqn:E; [|done].
        intros Hall. constructor; [done|]. by apply IH.
      + clear f Hnew Hlen. induction Hall as [|arg ty args tys Hc Hall IH]; [done|].
        cbn. by rewrite Hc. }
  cbn [find]. destruct (candidateMatches args f) eqn:E.
  - by rewrite decide_True by (by apply Hmatch).
  - rewrite decide_False; [done|]. rewrite <- Hmatch. congruence.
Qed.

Definition recursive_sum : option FuncOp * functionsSymbolMap :=
  functionsAtBody "sum-1" "sum" [Scalar SI64] (Some [Scalar SI64]) g_registered.

Lemma recursion_needs_return_types_witness :
  findMatchingUDF (λ _, "") recursive_sum.2 "sum" [Leaf 0 (Scalar SI64)] 1
  = Ok (Some (mkFuncOp "sum-1" [Scalar SI64] [Scalar SI64])).
Proof.
  unfold recursive_sum.
  rewrite (recursion_needs_return_types (λ _, "") "sum-1" "sum" [Scalar SI64]
             (Some [Scalar SI64]) g_registered [Leaf 0 (Scalar SI64)] 1).
  - reflexivity.
  - apply (bool_decide_unpack (StronglySorted name_le g_registered)). vm_compute. reflexivity.
  - vm_compute. reflexivity.
Defined.

Lemma filter_cons_true {A} (P : A → Prop) `{∀ x, Decision (P x)} (x : A) (l : list A) :
  P x → filter P (x :: l) = x :: filter P l.
Proof. intros HP. cbn [filter list_filter]. by rewrite decide_True. Qed.

Lemma filter_cons_false {A} (P : A → Prop) `{∀ x, Decision (P x)} (x : A) (l : list A) :
  ¬ P x → filter P (x :: l) = filter P l.
Proof. intros HP. cbn [filter list_filter]. by rewrite decide_False. Qed.

Lemma prefixed_names (finalPrefix name : string) (imported : list (string * FuncOp)) :
  snd <$> filter (λ e, contains dot e.1 = false ∧ finalPrefix +:+ e.1 = finalPrefix +:+ name)
            imported
  = if contains dot name then [] else equal_range imported name.
Proof.
  induction imported as [|e imported IH].
  - cbn. by destruct (contains dot name).
  - rewrite equal_range_cons.
    destruct (decide (e.1 = name)) as [Heq|Hne].
    + destruct (contains dot name) eqn:Edot.
      * rewrite filter_cons_false; [done|]. rewrite Heq, Edot. by intros [? _].
      * rewrite filter_cons_true; [|by rewrite Heq]. cbn. by rewrite IH.
    + rewrite filter_cons_false; [by rewrite IH; destruct (contains dot name)|].
      intros [_ Heq]. by apply (inj (String.app finalPrefix)) in Heq.
Qed.

Lemma other_names (finalPrefix name : string) (imported : list (string * FuncOp)) :
  (∀ rest, name ≠ finalPrefix +:+ rest) →
  filter (λ e : string * FuncOp, contains dot e.1 = false ∧ finalPrefix +:+ e.1 = name)
    imported = [].
Proof.
  intros Hname. induction imported as [|e imported IH]; [done|].
  rewrite filter_cons_false; [done|].
  intros [_ Heq]. by apply (Hname e.1).
Qed.

Lemma findMatchingUDF_range (printType : type → string) (m m' : functionsSymbolMap)
    (functionName functionName' : string) (args : list value) (loc : location)
    (r : option FuncOp) :
  equal_range m functionName = equal_range m' functionName' →
  findMatchingUDF printType m functionName args loc = Ok r
  ↔ findMatchingUDF printType m' functionName' args loc = Ok r.
Proof.
  unfold findMatchingUDF. intros ->.
  destruct (find _ _); [done|]. by destruct (equal_range m' functionName').
Qed.

(** The functions of an imported script: after the import, the functions
    registered under the prefix and a name without a dot are the ones that
    were registered under it before, followed by the functions of the
    imported script of that name, in their order; the functions that the
    imported script had imported itself (a dot in the name) are dropped,
    and the names that do not start with the prefix keep their functions.
    So a call of a function under a prefix that was free before resolves as
    the call of the function does in the imported script. *)
Theorem imported_functions_are_prefixed (printType : type → string) (finalPrefix : string)
    (origFuncMap imported : functionsSymbolMap) :
  sortedByName origFuncMap →
  let functions := importFunctions finalPrefix origFuncMap imported in
  sortedByName functions
  ∧ (∀ name,
       equal_range functions (finalPrefix +:+ name)
       = equal_range origFuncMap (finalPrefix +:+ name)
         ++ (if contains dot name then [] else equal_range imported name))
  ∧ (∀ name, (∀ rest, name ≠ finalPrefix +:+ rest) →
       equal_range functions name = equal_range origFuncMap name)
  ∧ (∀ name args loc r,
       contains dot name = false →
       equal_range origFuncMap (finalPrefix +:+ name) = [] →
       findMatchingUDF printType functions (finalPrefix +:+ name) args loc = Ok r
       ↔ findMatchingUDF printType imported name args loc = Ok r).
Proof.
  intros Hsorted functions. subst functions.
  split; [by apply importFunctions_sorted|].
  assert (∀ name,
            equal_range (importFunctions finalPrefix origFuncMap imported)
              (finalPrefix +:+ name)
            = equal_range origFuncMap (finalPrefix +:+ name)
              ++ (if contains dot name then [] else equal_range imported name)) as Hprefixed.
  { intros name. by rewrite equal_range_import, prefixed_names. }
  split; [done|]. split.
  - intros name Hname. rewrite equal_range_import by done.
    by rewrite other_names, app_nil_r.
  - intros name args loc r Hdot Hfree. apply findMatchingUDF_range.
    by rewrite Hprefixed, Hfree, Hdot.
Qed.

Definition kmeans_functions : functionsSymbolMap :=
  [("km", mkFuncOp "km-1" [Matrix (Scalar F64)] [Matrix (Scalar F64)]);
   ("util.dist", mkFuncOp "dist-1" [Matrix (Scalar F64)] [Scalar F64])].

Lemma imported_functions_are_prefixed_witness :
  equal_range (importFunctions "algo." g_registered kmeans_functions) "algo.km"
  = [mkFuncOp "km-1" [Matrix (Scalar F64)] [Matrix (Scalar F64)]]
  ∧ equal_range (importFunctions "algo." g_registered kmeans_functions) "algo.util.dist" = [].
Proof.
  destruct (imported_functions_are_prefixed (λ _, "") "algo." g_registered kmeans_functions)
    as (_ & Hprefixed & _).
  - apply (bool_decide_unpack (StronglySorted name_le g_registered)). vm_compute. reflexivity.
  - split; [exact (Hprefixed "km")|exact (Hprefixed "util.dist")].
Defined.
